(** * decimal64: fixed-point decimal arithmetic

    A shallow embedding of [shared/include/decimal64/decimal64.hpp].

    - [int64_t] values are integers of [Z]; every arithmetic operation of the
      header is written with its two's-complement wrap-around ([wrap64]).
    - Integer division and remainder are the truncating ones of C++
      ([Z.quot], [Z.rem]).
    - A function with an output reference and a [bool] result returns the
      pair (output, result).
    - Template parameters ([Prec], [RoundPolicy], [CharSequence]) are ordinary
      arguments; policies are the constructors of [RoundPolicy]. *)

From Stdlib Require Import ZArith List Ascii String Bool Lia.
Import ListNotations.

Local Open Scope Z_scope.

(** ** 64-bit signed integers *)

Definition kMaxInt64 : Z := 9223372036854775807.
Definition kMinInt64 : Z := -9223372036854775808.

Definition wrap64 (z : Z) : Z := (z + 2 ^ 63) mod 2 ^ 64 - 2 ^ 63.

Definition in_int64 (z : Z) : Prop := kMinInt64 <= z <= kMaxInt64.

Definition add64 (a b : Z) : Z := wrap64 (a + b).
Definition sub64 (a b : Z) : Z := wrap64 (a - b).
Definition mul64 (a b : Z) : Z := wrap64 (a * b).
Definition neg64 (a : Z) : Z := wrap64 (- a).
Definition div64 (a b : Z) : Z := wrap64 (Z.quot a b).
Definition rem64 (a b : Z) : Z := wrap64 (Z.rem a b).

(** ** namespace impl: overflow-safe helpers *)

Definition kMaxDecimalDigits : Z := 18.

(** [PowSeries<MaxExp>(base)]: [None] is the thrown "Overflow". *)
Fixpoint PowSeries_loop (n : nat) (base pow : Z) (result : list Z)
  : option (list Z * Z) :=
  match n with
  | O => Some (result, pow)
  | S n' =>
      let result := result ++ [pow] in
      if pow >? div64 kMaxInt64 base then None
      else PowSeries_loop n' base (mul64 pow base) result
  end.

Definition PowSeries (MaxExp : nat) (base : Z) : option (list Z) :=
  match PowSeries_loop MaxExp base 1 [] with
  | Some (result, pow) => Some (result ++ [pow])
  | None => None
  end.

Definition kPowSeries10 : list Z :=
  Eval vm_compute in
    match PowSeries (Z.to_nat kMaxDecimalDigits) 10 with
    | Some l => l
    | None => []
    end.

Definition IsMultOverflowPositive (value1 value2 : Z) : bool :=
  (value1 >? div64 kMaxInt64 value2) && (value2 >? div64 kMaxInt64 value1).

Definition IsMultOverflow (value1 value2 : Z) : bool :=
  if (value1 =? 0) || (value2 =? 0) then false
  else if negb (Bool.eqb (value1 <? 0) (value2 <? 0)) then
    (* different sign *)
    if value1 =? kMinInt64 then value2 >? 1
    else if value2 =? kMinInt64 then value1 >? 1
    else if value1 <? 0 then IsMultOverflowPositive (neg64 value1) value2
    else if value2 <? 0 then IsMultOverflowPositive value1 (neg64 value2)
    else IsMultOverflowPositive value1 value2
  else if (value1 <? 0) && (value2 <? 0) then
    if value1 =? kMinInt64 then value2 <? -1
    else if value2 =? kMinInt64 then value1 <? -1
    else IsMultOverflowPositive (neg64 value1) (neg64 value2)
  else IsMultOverflowPositive value1 value2.

(** [impl::Abs] at [int64_t]. *)
Definition Abs (value : Z) : Z :=
  if value >=? 0 then value else neg64 value.

(** [Pow10(exp)]: [None] is the thrown [std::runtime_error]. *)
Definition Pow10 (exp : Z) : option Z :=
  if (exp <? 0) || (exp >? kMaxDecimalDigits) then None
  else nth_error kPowSeries10 (Z.to_nat exp).

(** [kPow10<Exp>]: a compile-time constant.  An instantiation with [Exp]
    outside 0..18 does not compile; the embedding gives 0 there. *)
Definition kPow10 (Exp : Z) : Z :=
  match Pow10 Exp with
  | Some p => p
  | None => 0
  end.

(** ** Rounding policies *)

Inductive RoundPolicy : Type :=
| Null | Def | HalfDown | HalfUp | HalfEven
| Ceiling | Floor | RoundDown | RoundUp.

Module NullRoundPolicy.
Definition DivRounded (a b : Z) : Z * bool := (div64 a b, true).
End NullRoundPolicy.

Module DefRoundPolicy.
Definition DivRounded (a b : Z) : Z * bool :=
  let divisor_corr := Abs (div64 b 2) in
  if a >=? 0 then
    if sub64 kMaxInt64 a >=? divisor_corr
    then (div64 (add64 a divisor_corr) b, true)
    else (0, false)
  else
    if neg64 (sub64 kMinInt64 a) >=? divisor_corr
    then (div64 (sub64 a divisor_corr) b, true)
    else (0, false).
End DefRoundPolicy.

Module HalfDownRoundPolicy.
Definition DivRounded (a b : Z) : Z * bool :=
  let divisor_corr := div64 (Abs b) 2 in
  let remainder := rem64 (Abs a) (Abs b) in
  if a >=? 0 then
    if sub64 kMaxInt64 a >=? divisor_corr then
      if remainder >? divisor_corr
      then (div64 (add64 a divisor_corr) b, true)
      else (div64 a b, true)
    else (0, false)
  else
    if neg64 (sub64 kMinInt64 a) >=? divisor_corr
    then (div64 (sub64 a divisor_corr) b, true)
    else (0, false).
End HalfDownRoundPolicy.

Module HalfUpRoundPolicy.
Definition DivRounded (a b : Z) : Z * bool :=
  let divisor_corr := div64 (Abs b) 2 in
  let remainder := rem64 (Abs a) (Abs b) in
  if a >=? 0 then
    if sub64 kMaxInt64 a >=? divisor_corr then
      if remainder >=? divisor_corr
      then (div64 (add64 a divisor_corr) b, true)
      else (div64 a b, true)
    else (0, false)
  else
    if neg64 (sub64 kMinInt64 a) >=? divisor_corr then
      if remainder <? divisor_corr
      then (div64 (sub64 a remainder) b, true)
      else if remainder =? divisor_corr
      then (div64 (add64 a divisor_corr) b, true)
      else (div64 (sub64 (add64 a remainder) (Abs b)) b, true)
    else (0, false).
End HalfUpRoundPolicy.

Module HalfEvenRoundPolicy.
Definition DivRounded (a b : Z) : Z * bool :=
  let divisor_div2 := div64 (Abs b) 2 in
  let remainder := rem64 (Abs a) (Abs b) in
  if remainder =? 0 then (div64 a b, true)
  else if a >=? 0 then
    if remainder >? divisor_div2
    then (div64 (add64 (sub64 a remainder) (Abs b)) b, true)
    else if remainder <? divisor_div2
    then (div64 (sub64 a remainder) b, true)
    else
      let is_even := rem64 (Abs (div64 a b)) 2 =? 0 in
      if is_even then (div64 a b, true)
      else (div64 (add64 (sub64 a remainder) (Abs b)) b, true)
  else
    (* negative value *)
    if remainder >? divisor_div2
    then (div64 (sub64 (add64 a remainder) (Abs b)) b, true)
    else if remainder <? divisor_div2
    then (div64 (add64 a remainder) b, true)
    else
      let is_even := rem64 (Abs (div64 a b)) 2 =? 0 in
      if is_even then (div64 a b, true)
      else (div64 (sub64 (add64 a remainder) (Abs b)) b, true).
End HalfEvenRoundPolicy.

Module CeilingRoundPolicy.
Definition DivRounded (a b : Z) : Z * bool :=
  let remainder := rem64 (Abs a) (Abs b) in
  if remainder =? 0 then (div64 a b, true)
  else if a >=? 0 then (div64 (add64 a (Abs b)) b, true)
  else (div64 a b, true).
End CeilingRoundPolicy.

Module FloorRoundPolicy.
Definition DivRounded (a b : Z) : Z * bool :=
  let remainder := rem64 (Abs a) (Abs b) in
  if remainder =? 0 then (div64 a b, true)
  else if a >=? 0 then (div64 (sub64 a remainder) b, true)
  else (div64 (sub64 (add64 a remainder) (Abs b)) b, true).
End FloorRoundPolicy.

(** [class RoundDownRoundPolicy : public NullRoundPolicy {}] *)
Module RoundDownRoundPolicy.
Definition DivRounded := NullRoundPolicy.DivRounded.
End RoundDownRoundPolicy.

Module RoundUpRoundPolicy.
Definition DivRounded (a b : Z) : Z * bool :=
  let remainder := rem64 (Abs a) (Abs b) in
  if remainder =? 0 then (div64 a b, true)
  else if a >=? 0 then (div64 (add64 a (Abs b)) b, true)
  else (div64 (sub64 a (Abs b)) b, true).
End RoundUpRoundPolicy.

(** [RoundPolicy::DivRounded(output, a, b)], by template argument. *)
Definition DivRounded (policy : RoundPolicy) : Z -> Z -> Z * bool :=
  match policy with
  | Null => NullRoundPolicy.DivRounded
  | Def => DefRoundPolicy.DivRounded
  | HalfDown => HalfDownRoundPolicy.DivRounded
  | HalfUp => HalfUpRoundPolicy.DivRounded
  | HalfEven => HalfEvenRoundPolicy.DivRounded
  | Ceiling => CeilingRoundPolicy.DivRounded
  | Floor => FloorRoundPolicy.DivRounded
  | RoundDown => RoundDownRoundPolicy.DivRounded
  | RoundUp => RoundUpRoundPolicy.DivRounded
  end.

(** Quotient [a / b] rounded as the policy table prescribes, written from
    the rules of the table over the exact rational [a / b]:
    [q] is the quotient truncated toward zero, [q + s] the next integer away
    from zero, and [2 * |r|] against [|b|] tells on which side of the halfway
    point the exact quotient lies. *)
Definition rounded_quotient (policy : RoundPolicy) (a b : Z) : Z :=
  let q := Z.quot a b in
  let r := Z.rem a b in
  let s := Z.sgn a * Z.sgn b in
  if r =? 0 then q
  else
    match policy with
    | Null | RoundDown => q
    | RoundUp => q + s
    | Ceiling => if s >? 0 then q + 1 else q
    | Floor => if s <? 0 then q - 1 else q
    | HalfDown => if 2 * Z.abs r >? Z.abs b then q + s else q
    | HalfUp | Def => if 2 * Z.abs r >=? Z.abs b then q + s else q
    | HalfEven =>
        if 2 * Z.abs r >? Z.abs b then q + s
        else if 2 * Z.abs r <? Z.abs b then q
        else if Z.even q then q else q + s
    end.

(** ** MultDiv *)

Section MultDivSection.

(** [RoundPolicy::Round(static_cast<long double>(value1dec) *
    static_cast<long double>(value2dec) / static_cast<long double>(divisor))]:
    the floating-point fallback of [MultDiv], taken as a parameter. *)
Variable RoundLongDouble : RoundPolicy -> Z -> Z -> Z -> Z.

(** [std::gcd] at [int64_t]. *)
Definition gcd64 (m n : Z) : Z := wrap64 (Z.gcd m n).

(** result = (value1 * value2) / divisor *)
Definition MultDiv (policy : RoundPolicy) (value1 value2 divisor : Z) : Z :=
  let value1int := div64 value1 divisor in
  let value1dec := rem64 value1 divisor in
  let value2int := div64 value2 divisor in
  let value2dec := rem64 value2 divisor in
  let result :=
    add64 (mul64 value1 value2int) (mul64 value1int value2dec) in
  if (value1dec =? 0) || (value2dec =? 0) then result
  else if negb (IsMultOverflow value1dec value2dec) then
    let res_dec_part := mul64 value1dec value2dec in
    let '(output, ok) := DivRounded policy res_dec_part divisor in
    let res_dec_part := if ok then output else 0 in
    add64 result res_dec_part
  else
    (* reduce value1 & divisor *)
    let c := gcd64 value1dec divisor in
    let '(value1dec, divisor) :=
      if negb (c =? 1) then (div64 value1dec c, div64 divisor c)
      else (value1dec, divisor) in
    (* reduce value2 & divisor *)
    let c := gcd64 value2dec divisor in
    let '(value2dec, divisor) :=
      if negb (c =? 1) then (div64 value2dec c, div64 divisor c)
      else (value2dec, divisor) in
    let fallback :=
      add64 result (RoundLongDouble policy value1dec value2dec divisor) in
    if negb (IsMultOverflow value1dec value2dec) then
      let res_dec_part := mul64 value1dec value2dec in
      let '(output, ok) := DivRounded policy res_dec_part divisor in
      if ok then add64 result output else fallback
    else fallback.

End MultDivSection.

(** ** Decimal<Prec, RoundPolicy> *)

Record Decimal : Type := FromUnbiased { value_ : Z }.

Definition AsUnbiased (d : Decimal) : Z := value_ d.

(** [Decimal()] *)
Definition Decimal_zero : Decimal := FromUnbiased 0.

(** [kDecimalFactor] *)
Definition kDecimalFactor (Prec : Z) : Z := kPow10 Prec.

Definition FromIntegerImpl (Prec : Z) (value : Z) : Decimal :=
  FromUnbiased (mul64 value (kDecimalFactor Prec)).

(** [Decimal::FromBiased]; [None] is the exception of [Pow10]. *)
Definition FromBiased (Prec : Z) (policy : RoundPolicy)
    (original_unbiased original_precision : Z) : option Decimal :=
  let exponent_for_pack := Prec - original_precision in
  if exponent_for_pack >=? 0 then
    match Pow10 exponent_for_pack with
    | Some p => Some (FromUnbiased (mul64 original_unbiased p))
    | None => None
    end
  else
    match Pow10 (- exponent_for_pack) with
    | Some p =>
        let '(new_value, ok) := DivRounded policy original_unbiased p in
        Some (FromUnbiased (if ok then new_value else 0))
    | None => None
    end.

Definition Sign (d : Decimal) : Z :=
  if value_ d >? 0 then 1 else if value_ d <? 0 then -1 else 0.

Definition Decimal_Abs (d : Decimal) : Decimal := FromUnbiased (Abs (value_ d)).

Definition ToInteger (Prec : Z) (policy : RoundPolicy) (d : Decimal) : Z :=
  let '(result, ok) := DivRounded policy (value_ d) (kDecimalFactor Prec) in
  if ok then result else 0.

(** [impl::FromUnpacked(before, after)] *)
Definition FromUnpacked2 (Prec : Z) (before after : Z) : Decimal :=
  if Prec >? 0
  then FromUnbiased (add64 (mul64 before (kDecimalFactor Prec)) after)
  else FromUnbiased (mul64 before (kDecimalFactor Prec)).

(** [impl::FromUnpacked(before, after, original_precision)] *)
Definition FromUnpacked (Prec : Z) (policy : RoundPolicy)
    (before after original_precision : Z) : option Decimal :=
  if original_precision <=? Prec then
    (* direct mode *)
    let missing_digits := Prec - original_precision in
    match Pow10 missing_digits with
    | Some factor => Some (FromUnpacked2 Prec before (mul64 after factor))
    | None => None
    end
  else
    (* rounding mode *)
    let extra_digits := original_precision - Prec in
    match Pow10 extra_digits with
    | Some factor =>
        let '(rounded_after, ok) := DivRounded policy after factor in
        if negb ok then Some (FromIntegerImpl Prec 0)
        else Some (FromUnpacked2 Prec before rounded_after)
    | None => None
    end.

Record UnpackedDecimal : Type :=
  { unpacked_before : Z; unpacked_after : Z }.

Definition AsUnpacked (Prec : Z) (dec : Decimal) : UnpackedDecimal :=
  {| unpacked_before := div64 (AsUnbiased dec) (kDecimalFactor Prec);
     unpacked_after := rem64 (AsUnbiased dec) (kDecimalFactor Prec) |}.

(** [decimal_cast<Decimal<Prec, RoundPolicy>>(arg)] for an argument of
    precision [OldPrec]. *)
Definition decimal_cast (Prec : Z) (policy : RoundPolicy) (OldPrec : Z)
    (arg : Decimal) : option Decimal :=
  FromBiased Prec policy (AsUnbiased arg) OldPrec.


(** [Decimal::operator-()] *)
Definition operator_neg (d : Decimal) : Decimal :=
  FromUnbiased (neg64 (value_ d)).

(** [Decimal::operator*(T rhs)] for an integer [rhs] *)
Definition operator_mul_int (lhs : Decimal) (rhs : Z) : Decimal :=
  FromUnbiased (mul64 (value_ lhs) rhs).

Section DecimalArithmetic.

Variable RoundLongDouble : RoundPolicy -> Z -> Z -> Z -> Z.

(** [Decimal::operator*(Decimal rhs)], that is [operator*=] *)
Definition operator_mul (Prec : Z) (policy : RoundPolicy)
    (lhs rhs : Decimal) : Decimal :=
  FromUnbiased
    (MultDiv RoundLongDouble policy (value_ lhs) (value_ rhs) (kPow10 Prec)).

(** [Decimal::operator/(Decimal rhs)], that is [operator/=] *)
Definition operator_div (Prec : Z) (policy : RoundPolicy)
    (lhs rhs : Decimal) : Decimal :=
  FromUnbiased
    (MultDiv RoundLongDouble policy (value_ lhs) (kPow10 Prec) (value_ rhs)).


End DecimalArithmetic.

(** ** Character sequences *)

(** The numeric value of a character. *)
Definition code (c : ascii) : Z := Z.of_N (N_of_ascii c).

Definition char_eqb (c d : ascii) : bool := code c =? code d.

(** The character ['\0']. *)
Definition NUL : ascii := Ascii.zero.

Definition IsSpace (c : ascii) : bool :=
  char_eqb c " " || char_eqb c "009" || char_eqb c "013"
  || char_eqb c "010" || char_eqb c "011".

(** The interface the parser needs of its [CharSequence] template argument.
    [Avail] is not part of the C++ interface: it bounds the number of
    characters the sequence can still deliver and is the only source of the
    iteration bound of the parser's loops. *)
Class CharSequence (Seq : Type) : Type :=
  { Get : Seq -> ascii * Seq;
    Unget : Seq -> Seq;
    Avail : Seq -> nat }.

(** [StringCharSequence]: [consumed_] is the text before the iterator
    [current_], last character first; [current_] is the text from the
    iterator up to [end_]. *)
Record StringCharSequence : Type :=
  { consumed_ : list ascii; current_ : list ascii }.

Definition MakeStringCharSequence (sv : list ascii) : StringCharSequence :=
  {| consumed_ := []; current_ := sv |}.

Definition StringCharSequence_Get (s : StringCharSequence)
  : ascii * StringCharSequence :=
  match current_ s with
  | [] => (NUL, s)
  | c :: rest => (c, {| consumed_ := c :: consumed_ s; current_ := rest |})
  end.

Definition StringCharSequence_Unget (s : StringCharSequence)
  : StringCharSequence :=
  match consumed_ s with
  | [] => s
  | c :: before => {| consumed_ := before; current_ := c :: current_ s |}
  end.

#[export] Instance StringCharSequence_CharSequence
  : CharSequence StringCharSequence :=
  { Get := StringCharSequence_Get;
    Unget := StringCharSequence_Unget;
    Avail := fun s => List.length (current_ s) }.

(** A [std::basic_istream<char>] over a buffer: the characters already
    extracted (last one first), the characters still to be read, the state
    bits and the [skipws] format flag. *)
Record istream : Type :=
  { extracted : list ascii;
    pending : list ascii;
    eofbit : bool;
    failbit : bool;
    badbit : bool;
    skipws : bool }.

Definition good (ins : istream) : bool :=
  negb (eofbit ins || failbit ins || badbit ins).

Definition set_eofbit (ins : istream) : istream :=
  {| extracted := extracted ins; pending := pending ins; eofbit := true;
     failbit := failbit ins; badbit := badbit ins; skipws := skipws ins |}.

Definition clear_eofbit (ins : istream) : istream :=
  {| extracted := extracted ins; pending := pending ins; eofbit := false;
     failbit := failbit ins; badbit := badbit ins; skipws := skipws ins |}.

(** [is.setstate(std::ios_base::failbit)] *)
Definition set_failbit (ins : istream) : istream :=
  {| extracted := extracted ins; pending := pending ins; eofbit := eofbit ins;
     failbit := true; badbit := badbit ins; skipws := skipws ins |}.

Definition set_badbit (ins : istream) : istream :=
  {| extracted := extracted ins; pending := pending ins; eofbit := eofbit ins;
     failbit := failbit ins; badbit := true; skipws := skipws ins |}.

Definition with_buffer (ins : istream) (ex pe : list ascii) : istream :=
  {| extracted := ex; pending := pe; eofbit := eofbit ins;
     failbit := failbit ins; badbit := badbit ins; skipws := skipws ins |}.

(** [traits_type::eof()] converted to [char]. *)
Definition kEof : ascii := "255".

(** [StreamCharSequence::Get]: [peek] sets [eofbit] at the end of the
    buffer, [ignore] extracts the character that [peek] has shown. *)
Definition StreamCharSequence_Get (ins : istream) : ascii * istream :=
  if negb (good ins) then (NUL, ins)
  else
    match pending ins with
    | [] => (NUL, set_eofbit ins)
    | c :: rest =>
        if char_eqb c kEof then (NUL, ins)
        else (c, with_buffer ins (c :: extracted ins) rest)
    end.

(** [StreamCharSequence::Unget], that is [std::istream::unget]: clears
    [eofbit]; on a stream that is not good sets [failbit]; with nothing
    to put back sets [badbit]. *)
Definition StreamCharSequence_Unget (ins : istream) : istream :=
  let ins := clear_eofbit ins in
  if negb (good ins) then set_failbit ins
  else
    match extracted ins with
    | [] => set_badbit ins
    | c :: before => with_buffer ins before (c :: pending ins)
    end.

#[export] Instance StreamCharSequence_CharSequence : CharSequence istream :=
  { Get := StreamCharSequence_Get;
    Unget := StreamCharSequence_Unget;
    Avail := fun ins => List.length (pending ins) }.

(** The whitespace of [std::isspace] in the classic locale. *)
Definition isspace (c : ascii) : bool :=
  char_eqb c " " || ((9 <=? code c) && (code c <=? 13)).

Fixpoint skip_spaces (ex pe : list ascii) : list ascii * list ascii :=
  match pe with
  | [] => (ex, [])
  | c :: rest => if isspace c then skip_spaces (c :: ex) rest else (ex, pe)
  end.

(** [std::ws(is)] *)
Definition ws (ins : istream) : istream :=
  if negb (good ins) then set_failbit ins
  else
    let '(ex, pe) := skip_spaces (extracted ins) (pending ins) in
    let ins := with_buffer ins ex pe in
    match pe with
    | [] => set_eofbit ins
    | _ => ins
    end.

(** ** Parser *)

(** [utils::Flags<ParseOptions>]: a bit set. *)
Definition kNone : Z := 0.
Definition kAllowSpaces : Z := Z.shiftl 1 0.
Definition kAllowTrailingJunk : Z := Z.shiftl 1 1.
Definition kAllowBoundaryDot : Z := Z.shiftl 1 2.
Definition kAllowRounding : Z := Z.shiftl 1 3.

(** [options & flag] as a condition. *)
Definition has (options flag : Z) : bool := negb (Z.land options flag =? 0).

Inductive ParseErrorCode : Type :=
| kWrongChar | kNoDigits | kOverflow | kSpace
| kTrailingJunk | kBoundaryDot | kRounding.

Record ParseUnpackedResult : Type :=
  { before : Z;
    after : Z;
    decimal_digits : Z;
    is_negative : bool;
    error : option ParseErrorCode;
    error_position : Z }.

Inductive ParseState : Type :=
| kSign | kBeforeFirstDig | kLeadingZeros | kBeforeDec
| kAfterDec | kIgnoringAfterDec | kEnd.

(** The local variables of [ParseUnpacked]. *)
Record Locals : Type :=
  { l_before : Z;
    l_after : Z;
    l_is_negative : bool;
    l_position : Z;
    l_state : ParseState;
    l_error : option ParseErrorCode;
    l_before_digit_count : Z;
    l_after_digit_count : Z }.

Definition initial_locals : Locals :=
  {| l_before := 0; l_after := 0; l_is_negative := false; l_position := -1;
     l_state := kSign; l_error := None;
     l_before_digit_count := 0; l_after_digit_count := 0 |}.

Definition set_before (v : Z) (l : Locals) : Locals :=
  {| l_before := v; l_after := l_after l; l_is_negative := l_is_negative l;
     l_position := l_position l; l_state := l_state l; l_error := l_error l;
     l_before_digit_count := l_before_digit_count l;
     l_after_digit_count := l_after_digit_count l |}.

Definition set_after (v : Z) (l : Locals) : Locals :=
  {| l_before := l_before l; l_after := v; l_is_negative := l_is_negative l;
     l_position := l_position l; l_state := l_state l; l_error := l_error l;
     l_before_digit_count := l_before_digit_count l;
     l_after_digit_count := l_after_digit_count l |}.

Definition set_is_negative (v : bool) (l : Locals) : Locals :=
  {| l_before := l_before l; l_after := l_after l; l_is_negative := v;
     l_position := l_position l; l_state := l_state l; l_error := l_error l;
     l_before_digit_count := l_before_digit_count l;
     l_after_digit_count := l_after_digit_count l |}.

Definition set_position (v : Z) (l : Locals) : Locals :=
  {| l_before := l_before l; l_after := l_after l;
     l_is_negative := l_is_negative l;
     l_position := v; l_state := l_state l; l_error := l_error l;
     l_before_digit_count := l_before_digit_count l;
     l_after_digit_count := l_after_digit_count l |}.

Definition set_state (v : ParseState) (l : Locals) : Locals :=
  {| l_before := l_before l; l_after := l_after l;
     l_is_negative := l_is_negative l;
     l_position := l_position l; l_state := v; l_error := l_error l;
     l_before_digit_count := l_before_digit_count l;
     l_after_digit_count := l_after_digit_count l |}.

Definition set_error (v : ParseErrorCode) (l : Locals) : Locals :=
  {| l_before := l_before l; l_after := l_after l;
     l_is_negative := l_is_negative l;
     l_position := l_position l; l_state := l_state l; l_error := Some v;
     l_before_digit_count := l_before_digit_count l;
     l_after_digit_count := l_after_digit_count l |}.

Definition set_before_digit_count (v : Z) (l : Locals) : Locals :=
  {| l_before := l_before l; l_after := l_after l;
     l_is_negative := l_is_negative l;
     l_position := l_position l; l_state := l_state l; l_error := l_error l;
     l_before_digit_count := v;
     l_after_digit_count := l_after_digit_count l |}.

Definition set_after_digit_count (v : Z) (l : Locals) : Locals :=
  {| l_before := l_before l; l_after := l_after l;
     l_is_negative := l_is_negative l;
     l_position := l_position l; l_state := l_state l; l_error := l_error l;
     l_before_digit_count := l_before_digit_count l;
     l_after_digit_count := v |}.

Definition no_error (l : Locals) : bool :=
  match l_error l with
  | None => true
  | Some _ => false
  end.

(** [(c >= lo) && (c <= hi)] *)
Definition in_chars (lo hi c : ascii) : bool :=
  (code c >=? code lo) && (code c <=? code hi).

(** [static_cast<int>(c - '0')] *)
Definition digit_of (c : ascii) : Z := code c - code "0".

Definition dec_point : ascii := ".".

(** One turn of the [switch (state)] of [ParseUnpacked], for a character
    [c] other than ['\0'], after [if (!error) ++position]. *)
Definition parse_switch (options : Z) (c : ascii) (l : Locals) : Locals :=
  match l_state l with
  | kSign =>
      if char_eqb c "-" then
        set_state kBeforeFirstDig (set_is_negative true l)
      else if char_eqb c "+" then
        set_state kBeforeFirstDig l
      else if char_eqb c "0" then
        set_before_digit_count 1 (set_state kLeadingZeros l)
      else if in_chars "1" "9" c then
        set_before_digit_count 1
          (set_before (digit_of c) (set_state kBeforeDec l))
      else if char_eqb c dec_point then
        let l :=
          if negb (has options kAllowBoundaryDot) && no_error l
          then set_error kBoundaryDot l (* keep reading digits *)
          else l in
        set_state kAfterDec l
      else if IsSpace c then
        if negb (has options kAllowSpaces)
        then set_error kSpace (set_state kEnd l)
        else l
      else
        set_error kWrongChar (set_state kEnd l)
  | kBeforeFirstDig =>
      if char_eqb c "0" then
        set_before_digit_count 1 (set_state kLeadingZeros l)
      else if in_chars "1" "9" c then
        set_before_digit_count 1
          (set_before (digit_of c) (set_state kBeforeDec l))
      else if char_eqb c dec_point then
        let l :=
          if negb (has options kAllowBoundaryDot) && no_error l
          then set_error kBoundaryDot l (* keep reading digits *)
          else l in
        set_state kAfterDec l
      else
        set_error kWrongChar (set_state kEnd l)
  | kLeadingZeros =>
      if char_eqb c "0" then
        l (* skip *)
      else if in_chars "1" "9" c then
        set_before (digit_of c) (set_state kBeforeDec l)
      else if char_eqb c dec_point then
        set_state kAfterDec l
      else
        set_state kEnd l
  | kBeforeDec =>
      if in_chars "0" "9" c then
        if l_before_digit_count l <? kMaxDecimalDigits then
          set_before_digit_count (l_before_digit_count l + 1)
            (set_before (add64 (mul64 10 (l_before l)) (digit_of c)) l)
        else if no_error l then
          set_error kOverflow l (* keep reading digits *)
        else l
      else if char_eqb c dec_point then
        set_state kAfterDec l
      else
        set_state kEnd l
  | kAfterDec =>
      if in_chars "0" "9" c then
        if l_after_digit_count l <? kMaxDecimalDigits then
          set_after_digit_count (l_after_digit_count l + 1)
            (set_after (add64 (mul64 10 (l_after l)) (digit_of c)) l)
        else
          let l :=
            if negb (has options kAllowRounding) && no_error l
            then set_error kRounding l (* keep reading digits *)
            else l in
          let l := set_state kIgnoringAfterDec l in
          if code c >=? code "5" then
            (* round half up *)
            set_after (add64 (l_after l) 1) l
          else l
      else
        let l :=
          if negb (has options kAllowBoundaryDot)
             && (l_after_digit_count l =? 0) && no_error l
          then set_error kBoundaryDot l
          else l in
        set_state kEnd l
  | kIgnoringAfterDec =>
      if in_chars "0" "9" c then
        l (* skip *)
      else
        set_state kEnd l
  | kEnd => l
  end.

(** The body of the main loop for a character other than ['\0']. *)
Definition parse_step (options : Z) (c : ascii) (l : Locals) : Locals :=
  let l := if no_error l then set_position (l_position l + 1) l else l in
  parse_switch options c l.

Definition is_kEnd (s : ParseState) : bool :=
  match s with
  | kEnd => true
  | _ => false
  end.

(** The two checks after the loops of [ParseUnpacked]. *)
Definition final_checks (options : Z) (l : Locals) : Locals :=
  let l :=
    if no_error l && (l_before_digit_count l =? 0)
       && (l_after_digit_count l =? 0)
    then set_error kNoDigits l
    else l in
  if no_error l
     && match l_state l with kAfterDec => true | _ => false end
     && negb (has options kAllowBoundaryDot)
     && (l_after_digit_count l =? 0)
  then set_error kBoundaryDot l
  else l.

(** The [return] of [ParseUnpacked]. *)
Definition make_result (l : Locals) : ParseUnpackedResult :=
  {| before := l_before l;
     after := l_after l;
     decimal_digits := l_after_digit_count l;
     is_negative := l_is_negative l;
     error := l_error l;
     (* static_cast<uint32_t>(position) *)
     error_position := l_position l mod 2 ^ 32 |}.

Section ParseUnpackedSection.

Context {Seq : Type} `{CharSequence Seq}.

(** [while (state != ParseState::kEnd)]; at most [fuel] turns. *)
Fixpoint main_loop (fuel : nat) (options : Z) (l : Locals) (input : Seq)
  : Locals * Seq :=
  match fuel with
  | O => (l, input)
  | S fuel' =>
      if is_kEnd (l_state l) then (l, input)
      else
        let '(c, input) := Get input in
        if char_eqb c NUL then (l, input)
        else main_loop fuel' options (parse_step options c l) input
  end.

(** The [while (true)] loop over the characters that follow the number;
    at most [fuel] turns. *)
Fixpoint junk_loop (fuel : nat) (l : Locals) (input : Seq) : Locals * Seq :=
  match fuel with
  | O => (l, input)
  | S fuel' =>
      let '(c, input) := Get input in
      if char_eqb c NUL then (l, input)
      else
        let l := set_position (l_position l + 1) l in
        if negb (IsSpace c)
        then (set_error kTrailingJunk l, Unget input)
        else junk_loop fuel' l input
  end.

(** The block [if (state == ParseState::kEnd) { ... }] after the main
    loop. *)
Definition scan_trailing (options : Z) (l : Locals) (input : Seq)
  : Locals * Seq :=
  if is_kEnd (l_state l) then
    let input := Unget input in
    if no_error l && negb (has options kAllowTrailingJunk) then
      let l :=
        if negb (has options kAllowSpaces) then set_error kSpace l
        else l in
      let l := set_position (l_position l - 1) l in
      junk_loop (S (Avail input)) l input
    else (l, input)
  else (l, input).

(** [ParseUnpacked(input, options)], together with the character sequence
    as the call leaves it. *)
Definition ParseUnpacked (input : Seq) (options : Z)
  : ParseUnpackedResult * Seq :=
  let '(l, input) :=
    main_loop (S (Avail input)) options initial_locals input in
  let '(l, input) := scan_trailing options l input in
  (make_result (final_checks options l), input).

End ParseUnpackedSection.

Record ParseResult : Type :=
  { decimal : Decimal;
    parse_error : option ParseErrorCode;
    parse_error_position : Z }.

(** [impl::Parse] after its call of [ParseUnpacked].  [None] is the
    exception of [Pow10] inside [FromUnpacked]. *)
Definition Parse_pack (Prec : Z) (policy : RoundPolicy) (options : Z)
    (parsed : ParseUnpackedResult) : option ParseResult :=
  match error parsed with
  | Some e =>
      Some {| decimal := Decimal_zero; parse_error := Some e;
              parse_error_position := error_position parsed |}
  | None =>
      if before parsed >=? div64 kMaxInt64 (kPow10 Prec) then
        Some {| decimal := Decimal_zero; parse_error := Some kOverflow;
                parse_error_position := 0 |}
      else if negb (has options kAllowRounding)
              && (decimal_digits parsed >? Prec) then
        Some {| decimal := Decimal_zero; parse_error := Some kRounding;
                parse_error_position := 0 |}
      else
        let '(parsed_before, parsed_after) :=
          if is_negative parsed
          then (neg64 (before parsed), neg64 (after parsed))
          else (before parsed, after parsed) in
        match FromUnpacked Prec policy parsed_before parsed_after
                (decimal_digits parsed) with
        | Some d =>
            Some {| decimal := d; parse_error := None;
                    parse_error_position := 0 |}
        | None => None
        end
  end.

(** [impl::Parse<Prec, RoundPolicy>(input, options)], together with the
    character sequence as the call leaves it. *)
Definition Parse {Seq : Type} `{CharSequence Seq}
    (Prec : Z) (policy : RoundPolicy) (input : Seq) (options : Z)
  : option ParseResult * Seq :=
  let '(parsed, input) := ParseUnpacked input options in
  (Parse_pack Prec policy options parsed, input).

(** What a string-taking constructor leaves: the decimal, or the thrown
    exception. [GetErrorMessage] is only declared in the header; the
    [ParseError] is kept as the position and the code it is built from. *)
Inductive Constructed : Type :=
| Value (d : Decimal)
| ParseError (position : Z) (reason : ParseErrorCode)
| RuntimeError.

Definition of_ParseResult (r : option ParseResult) : Constructed :=
  match r with
  | None => RuntimeError
  | Some r =>
      match parse_error r with
      | Some e => ParseError (parse_error_position r) e
      | None => Value (decimal r)
      end
  end.

(** [Decimal<Prec, RoundPolicy>::Decimal(std::string_view value)] *)
Definition Decimal_of_string (Prec : Z) (policy : RoundPolicy)
    (value : list ascii) : Constructed :=
  of_ParseResult
    (fst (Parse Prec policy (MakeStringCharSequence value) kNone)).

(** [Decimal<Prec, RoundPolicy>::FromStringPermissive(input)] *)
Definition FromStringPermissive (Prec : Z) (policy : RoundPolicy)
    (input : list ascii) : Constructed :=
  of_ParseResult
    (fst (Parse Prec policy (MakeStringCharSequence input)
            (Z.lor kAllowSpaces (Z.lor kAllowBoundaryDot kAllowRounding)))).

(** [operator>>(std::istream& is, Decimal& d)]: the stream and the target
    after the call; [None] is the exception of [Pow10]. *)
Definition operator_in (Prec : Z) (policy : RoundPolicy)
    (ins : istream) (d : Decimal) : option (istream * Decimal) :=
  let ins := if skipws ins then ws ins else ins in
  let '(result, ins) := Parse Prec policy ins kAllowTrailingJunk in
  match result with
  | None => None
  | Some result =>
      match parse_error result with
      | Some _ => Some (set_failbit ins, d)
      | None => Some (ins, decimal result)
      end
  end.

(** ** Formatter *)

(** [impl::TrimTrailingZeros<Prec>(after)]: the number of zeros trimmed and
    the new value of [after]. *)
Definition trim_step (enabled : bool) (k : Z) (st : Z * Z) : Z * Z :=
  let '(n_trimmed, after) := st in
  if enabled && (rem64 after (kPow10 k) =? 0)
  then (n_trimmed + k, div64 after (kPow10 k))
  else (n_trimmed, after).

Definition TrimTrailingZeros (Prec : Z) (after : Z) : Z * Z :=
  if Prec =? 0 then (0, after)
  else if after =? 0 then (Prec, after)
  else
    let st := (0, after) in
    let st := trim_step (Prec >=? 17) 16 st in
    let st := trim_step (Prec >=? 9) 8 st in
    let st := trim_step (Prec >=? 5) 4 st in
    let st := trim_step (Prec >=? 3) 2 st in
    trim_step true 1 st.

(** The character of a decimal digit. *)
Definition digit_char (d : Z) : ascii := ascii_of_N (Z.to_N (code "0" + d)).

(** The decimal digits of a non-negative integer, most significant first,
    as the fmt library writes them; [fuel] bounds their number. *)
Fixpoint digits_of (fuel : nat) (n : Z) : list ascii :=
  match fuel with
  | O => []
  | S fuel' =>
      if n <? 10 then [digit_char n]
      else digits_of fuel' (n / 10) ++ [digit_char (n mod 10)]
  end.

(** fmt's ["{}"] for an unsigned 64-bit magnitude (at most 20 digits). *)
Definition fmt_uint (n : Z) : list ascii := digits_of 20 n.

(** fmt's ["{}"] for an [int64_t]. *)
Definition fmt_int (n : Z) : list ascii :=
  if n <? 0 then "-"%char :: fmt_uint (- n) else fmt_uint n.

(** fmt's ["{:0{}}"] for an [int64_t] and a width: zeros between the sign
    and the digits up to the width. *)
Definition fmt_int_zero_padded (n : Z) (width : Z) : list ascii :=
  let sign := if n <? 0 then ["-"%char] else [] in
  let digits := fmt_uint (Z.abs n) in
  let fill :=
    Z.to_nat (width - Z.of_nat (List.length sign + List.length digits)) in
  sign ++ repeat "0"%char fill ++ digits.

(** The three [fmt::format_to] calls at the end of [format]. *)
Definition format_to (dec : Decimal) (before after after_digits : Z)
  : list ascii :=
  if after_digits >? 0 then
    if Sign dec =? -1 then
      "-"%char :: fmt_int (neg64 before) ++ "."%char
        :: fmt_int_zero_padded (neg64 after) after_digits
    else
      fmt_int before ++ "."%char :: fmt_int_zero_padded after after_digits
  else fmt_int before.

(** [fmt::formatter<Decimal<Prec, RoundPolicy>>::format] *)
Definition format (Prec : Z) (remove_trailing_zeros_ : bool) (dec : Decimal)
  : list ascii :=
  let before := unpacked_before (AsUnpacked Prec dec) in
  let after := unpacked_after (AsUnpacked Prec dec) in
  let after_digits := Prec in
  let '(after_digits, after) :=
    if remove_trailing_zeros_ then
      let '(n_trimmed, after) := TrimTrailingZeros Prec after in
      (after_digits - n_trimmed, after)
    else (after_digits, after) in
  format_to dec before after after_digits.

(** [ToString(dec)]: the format ["{}"]. *)
Definition ToString (Prec : Z) (dec : Decimal) : list ascii :=
  format Prec true dec.

(** [ToStringTrailingZeros(dec)]: the format ["{:f}"]. *)
Definition ToStringTrailingZeros (Prec : Z) (dec : Decimal) : list ascii :=
  format Prec false dec.

(** A string literal as a sequence of characters. *)
Definition chars (s : string) : list ascii := list_ascii_of_string s.

(** ** Auxiliary definitions of the proofs *)

(** The characters of a string up to its first ['\0']. *)
Fixpoint until_NUL (s : list ascii) : list ascii :=
  match s with
  | [] => []
  | c :: rest => if char_eqb c NUL then [] else c :: until_NUL rest
  end.

(** The main loop of [ParseUnpacked] on a [StringCharSequence], by recursion
    on the text that is left (no iteration bound). *)
Fixpoint string_loop (options : Z) (l : Locals) (consumed pending : list ascii)
  : Locals * StringCharSequence :=
  match pending with
  | [] => (l, {| consumed_ := consumed; current_ := [] |})
  | c :: rest =>
      if is_kEnd (l_state l)
      then (l, {| consumed_ := consumed; current_ := pending |})
      else if char_eqb c NUL
      then (l, {| consumed_ := c :: consumed; current_ := rest |})
      else string_loop options (parse_step options c l) (c :: consumed) rest
  end.

(** The loop over the trailing characters on a [StringCharSequence]. *)
Fixpoint string_junk_loop (l : Locals) (consumed pending : list ascii)
  : Locals * StringCharSequence :=
  match pending with
  | [] => (l, {| consumed_ := consumed; current_ := [] |})
  | c :: rest =>
      if char_eqb c NUL
      then (l, {| consumed_ := c :: consumed; current_ := rest |})
      else
        let l := set_position (l_position l + 1) l in
        if negb (IsSpace c)
        then (set_error kTrailingJunk l,
              {| consumed_ := consumed; current_ := pending |})
        else string_junk_loop l (c :: consumed) rest
  end.

(** A character sequence whose [Get] uses up [Avail]. *)
Class LawfulCharSequence (Seq : Type) `{CharSequence Seq} : Prop :=
  { Get_Avail :
      forall (s s' : Seq) (c : ascii),
        Get s = (c, s') -> char_eqb c NUL = false ->
        (Avail s' < Avail s)%nat }.

(** The value of a run of decimal digits read after the value [init]. *)
Definition eval_from (init : Z) (ds : list ascii) : Z :=
  fold_left (fun v c => 10 * v + digit_of c) ds init.

Definition is_digit (c : ascii) : bool := in_chars "0" "9" c.

(** [reads options l text l']: from the locals [l] the main loop takes
    the characters of [text] one after the other, none of them ['\0'] and
    none met in the state [kEnd], and has the locals [l'] after them. *)
Inductive reads (options : Z) : Locals -> list ascii -> Locals -> Prop :=
| reads_nil (l : Locals) : reads options l [] l
| reads_cons (l l' : Locals) (c : ascii) (text : list ascii) :
    is_kEnd (l_state l) = false ->
    char_eqb c NUL = false ->
    reads options (parse_step options c l) text l' ->
    reads options l (c :: text) l'.

(** The locals without the position. *)
Definition view (l : Locals)
  : ParseState * option ParseErrorCode * bool * Z * Z * Z * Z :=
  (l_state l, l_error l, l_is_negative l,
   l_before l, l_before_digit_count l, l_after l, l_after_digit_count l).

(** The locals once the 19th digit of the integer part has been met. *)
Definition overflow_latched (l : Locals) : Prop :=
  l_error l = Some kOverflow
  /\ match l_state l with
     | kBeforeDec | kAfterDec | kIgnoringAfterDec | kEnd => True
     | _ => False
     end.

(** The bound that the main loop keeps on [after_digit_count]. *)
Definition digit_counts_ok (l : Locals) : Prop :=
  0 <= l_after_digit_count l <= 18.

(** Leading spaces are there only when the options allow them. *)
Definition spaces_ok (options : Z) (spaces : list ascii) : Prop :=
  Forall (fun c => IsSpace c = true) spaces
  /\ (spaces = [] \/ has options kAllowSpaces = true).

Definition sign_ok (sign : list ascii) : Prop :=
  sign = [] \/ sign = ["+"%char] \/ sign = ["-"%char].

(** A text that starts with spaces, an optional sign, leading zeros and
    then more than 18 digits. *)
Definition long_integer_part (options : Z) (text : list ascii) : Prop :=
  exists (spaces sign : list ascii) (k : nat) (d : ascii)
         (digits rest : list ascii),
    text = spaces ++ sign ++ repeat "0"%char k ++ d :: digits ++ rest
    /\ spaces_ok options spaces
    /\ sign_ok sign
    /\ in_chars "1" "9" d = true
    /\ Forall (fun c => is_digit c = true) digits
    /\ (18 <= List.length digits)%nat.

(** What the locals of the main loop say about the text [pre] read so
    far, as far as the integer part is concerned. *)
Definition progress (options : Z) (pre : list ascii) (l : Locals) : Prop :=
  match l_state l with
  | kSign => l_error l = None /\ spaces_ok options pre
  | kBeforeFirstDig =>
      l_error l = None
      /\ exists spaces s,
          pre = spaces ++ [s] /\ spaces_ok options spaces
          /\ (s = "+"%char \/ s = "-"%char)
  | kLeadingZeros =>
      l_error l = None /\ l_before_digit_count l = 1
      /\ exists spaces sign k,
          pre = spaces ++ sign ++ repeat "0"%char (S k)
          /\ spaces_ok options spaces /\ sign_ok sign
  | kBeforeDec =>
      match l_error l with
      | None =>
          exists spaces sign k d digits,
            pre = spaces ++ sign ++ repeat "0"%char k ++ d :: digits
            /\ spaces_ok options spaces /\ sign_ok sign
            /\ in_chars "1" "9" d = true
            /\ Forall (fun c => is_digit c = true) digits
            /\ l_before_digit_count l = 1 + Z.of_nat (List.length digits)
      | Some e => e = kOverflow -> long_integer_part options pre
      end
  | kAfterDec | kIgnoringAfterDec | kEnd =>
      l_error l = Some kOverflow -> long_integer_part options pre
  end.

(** The numerator of [DefRoundPolicy::DivRounded] after the correction by
    half the divisor, computed without wrap-around. *)
Definition Def_corrected (a b : Z) : Z :=
  if a >=? 0 then a + Z.abs (Z.quot b 2) else a - Z.abs (Z.quot b 2).

(** The strings of the regular expression [[+-]?\d+(\.\d+)?] that the
    documentation of [Decimal(std::string_view)] gives. *)
Definition matches_strict (text : list ascii) : Prop :=
  exists sign digits fraction : list ascii,
    text = sign ++ digits ++ fraction
    /\ sign_ok sign
    /\ digits <> []
    /\ Forall (fun c => is_digit c = true) digits
    /\ (fraction = []
        \/ exists more : list ascii,
             fraction = dec_point :: more
             /\ more <> []
             /\ Forall (fun c => is_digit c = true) more).

(** What the locals of the main loop say, in strict mode and as long as no
    error is set, about the text [pre] read so far. *)
Definition strict_progress (pre : list ascii) (l : Locals) : Prop :=
  l_error l = None ->
  match l_state l with
  | kSign =>
      pre = [] /\ l_before_digit_count l = 0 /\ l_after_digit_count l = 0
  | kBeforeFirstDig =>
      (pre = ["+"%char] \/ pre = ["-"%char])
      /\ l_before_digit_count l = 0 /\ l_after_digit_count l = 0
  | kLeadingZeros | kBeforeDec =>
      l_after_digit_count l = 0
      /\ exists sign digits,
          pre = sign ++ digits /\ sign_ok sign /\ digits <> []
          /\ Forall (fun c => is_digit c = true) digits
  | kAfterDec =>
      exists sign digits more,
        pre = sign ++ digits ++ dec_point :: more
        /\ sign_ok sign /\ digits <> []
        /\ Forall (fun c => is_digit c = true) digits
        /\ Forall (fun c => is_digit c = true) more
        /\ (more = [] -> l_after_digit_count l = 0)
  | kIgnoringAfterDec => False
  | kEnd => True
  end.

(** No error, or one of the two errors of a well-formed text. *)
Definition range_error (e : option ParseErrorCode) : Prop :=
  e = None \/ e = Some kOverflow \/ e = Some kRounding.

(** The locals inside the integer part of a well-formed text. *)
Definition in_integer_part (l : Locals) : Prop :=
  (l_state l = kLeadingZeros \/ l_state l = kBeforeDec)
  /\ range_error (l_error l)
  /\ 1 <= l_before_digit_count l /\ 0 <= l_after_digit_count l.

(** The locals inside the fraction of a well-formed text; [started] tells
    that a digit of the fraction has been read. *)
Definition in_fraction (started : bool) (l : Locals) : Prop :=
  (l_state l = kAfterDec \/ l_state l = kIgnoringAfterDec)
  /\ range_error (l_error l)
  /\ 1 <= l_before_digit_count l /\ 0 <= l_after_digit_count l
  /\ (started = true -> l_state l = kAfterDec -> 1 <= l_after_digit_count l).

(** A character that ends a number: no digit and not the decimal point. *)
Definition ends_number (c : ascii) : Prop :=
  is_digit c = false /\ char_eqb c dec_point = false.

(** Congruence modulo [2^64]. *)
Definition eqm64 (x y : Z) : Prop := exists k : Z, x = y + k * 2 ^ 64.

(** The locals of a run whose text has one more character, a sign, in
    front. *)
Definition after_sign (negative : bool) (l : Locals) : Locals :=
  set_is_negative negative (set_position (l_position l + 1) l).

(** The good stream whose buffer is the string sequence [q], after the
    characters [base] extracted earlier. *)
Definition stream_of (base : list ascii) (skip : bool)
    (q : StringCharSequence) : istream :=
  {| extracted := consumed_ q ++ base; pending := current_ q;
     eofbit := false; failbit := false; badbit := false; skipws := skip |}.

(** A text without the character that [StreamCharSequence::Get] takes for
    the end of the stream. *)
Definition no_kEof (text : list ascii) : Prop :=
  Forall (fun c => char_eqb c kEof = false) text.

(** The options of [FromStringPermissive]. *)
Definition kPermissive : Z :=
  Z.lor kAllowSpaces (Z.lor kAllowBoundaryDot kAllowRounding).

(** The part of the locals that [Parse] turns into the decimal. *)
Definition number_of (l : Locals) : option ParseErrorCode * bool * Z * Z * Z :=
  (l_error l, l_is_negative l, l_before l, l_after l, l_after_digit_count l).

(** * Properties *)

(** ** 64-bit arithmetic *)

Lemma wrap64_id (z : Z) : in_int64 z -> wrap64 z = z.
Proof.
  unfold in_int64, wrap64, kMinInt64, kMaxInt64. intros Hz.
  rewrite Z.mod_small; lia.
Qed.

Lemma wrap64_in_int64 (z : Z) : in_int64 (wrap64 z).
Proof.
  unfold in_int64, wrap64, kMinInt64, kMaxInt64.
  pose proof (Z.mod_pos_bound (z + 2 ^ 63) (2 ^ 64) ltac:(lia)). lia.
Qed.

(** ** Powers of ten and truncating division *)

Lemma small_fits (x : Z) : 0 <= x <= 10 ^ 18 -> in_int64 x.
Proof.
  unfold in_int64, kMinInt64, kMaxInt64.
  change (10 ^ 18) with 1000000000000000000. lia.
Qed.

Lemma pow10_le (i j : Z) : 0 <= i <= j -> 10 ^ i <= 10 ^ j.
Proof. intros H. apply Z.pow_le_mono_r; lia. Qed.

Lemma pow10_pos (i : Z) : 0 <= i -> 0 < 10 ^ i.
Proof. intros H. apply Z.pow_pos_nonneg; lia. Qed.

Lemma pow10_succ (k : Z) : 0 <= k -> 10 ^ (k + 1) = 10 * 10 ^ k.
Proof.
  intros Hk. rewrite Z.pow_add_r by lia. change (10 ^ 1) with 10. lia.
Qed.

Lemma quot_rem_facts (x d : Z) :
  0 < d ->
  x = d * Z.quot x d + Z.rem x d
  /\ Z.abs (Z.rem x d) < d
  /\ (0 <= x -> 0 <= Z.quot x d /\ 0 <= Z.rem x d)
  /\ (x <= 0 -> Z.quot x d <= 0 /\ Z.rem x d <= 0).
Proof.
  intros Hd.
  split; [apply Z.quot_rem'|].
  split; [pose proof (Z.rem_bound_abs x d ltac:(lia)); lia|].
  split; intros Hx.
  - split; [apply Z.quot_pos; lia | apply Z.rem_nonneg; lia].
  - split; [|apply Z.rem_nonpos; lia].
    pose proof (Z.quot_opp_l x d ltac:(lia)).
    pose proof (Z.quot_pos (- x) d ltac:(lia) ltac:(lia)). lia.
Qed.

Lemma quot_rem_in_int64 (x d : Z) :
  0 < d -> in_int64 x ->
  in_int64 (Z.quot x d) /\ in_int64 (Z.rem x d)
  /\ Z.abs (Z.quot x d) <= Z.abs x.
Proof.
  intros Hd Hx.
  destruct (quot_rem_facts x d Hd) as (He & Hr & Hpos & Hneg).
  unfold in_int64, kMinInt64, kMaxInt64 in *.
  destruct (Z.le_ge_cases 0 x) as [H0 | H0].
  - destruct (Hpos H0). nia.
  - destruct (Hneg ltac:(lia)). nia.
Qed.

Lemma Pow10_spec (e : Z) : 0 <= e <= 18 -> Pow10 e = Some (10 ^ e).
Proof.
  intros He.
  assert (Hn : e = Z.of_nat (Z.to_nat e)) by lia.
  assert (Hb : (Z.to_nat e <= 18)%nat) by lia.
  rewrite Hn. generalize dependent (Z.to_nat e). clear. intros n Hb.
  do 19 (destruct n as [|n]; [reflexivity|]). lia.
Qed.

Lemma kPow10_spec (e : Z) : 0 <= e <= 18 -> kPow10 e = 10 ^ e.
Proof. intros He. unfold kPow10. rewrite Pow10_spec by exact He. reflexivity. Qed.

Lemma div64_kMaxInt64 (Prec : Z) :
  0 <= Prec <= 18 ->
  div64 kMaxInt64 (10 ^ Prec) = kMaxInt64 / 10 ^ Prec.
Proof.
  intros HP. pose proof (pow10_pos Prec ltac:(lia)) as Hp.
  unfold div64.
  assert (Hk : in_int64 kMaxInt64)
    by (unfold in_int64, kMinInt64, kMaxInt64; lia).
  destruct (quot_rem_in_int64 kMaxInt64 (10 ^ Prec) Hp Hk) as (Hq & _ & _).
  rewrite (wrap64_id _ Hq).
  apply Z.quot_div_nonneg; [unfold kMaxInt64|]; lia.
Qed.

(** ** Rounding policies *)

(** C1. [DivRounded] of the half-way policies on a negative numerator:
    at [-2 / 4] (exactly [-0.5]) [HalfDownRoundPolicy] reports success with
    [-1] where "0.5 towards zero" prescribes [0], and [HalfUpRoundPolicy]
    reports success with [0] where "0.5 away from zero" prescribes [-1];
    on the positive numerator [2 / 4] both follow the table. *)
Theorem DivRounded_half_tie_negative_numerator :
  DivRounded HalfDown (-2) 4 = (-1, true)
  /\ rounded_quotient HalfDown (-2) 4 = 0
  /\ DivRounded HalfUp (-2) 4 = (0, true)
  /\ rounded_quotient HalfUp (-2) 4 = -1
  /\ DivRounded HalfDown 2 4 = (rounded_quotient HalfDown 2 4, true)
  /\ DivRounded HalfUp 2 4 = (rounded_quotient HalfUp 2 4, true).
Proof. repeat split; vm_compute; reflexivity. Qed.

(** Further places where a successful [DivRounded] leaves the table:
    [HalfEvenRoundPolicy] takes [remainder == |b| / 2] for a tie also when
    [b] is odd, and [CeilingRoundPolicy] and [FloorRoundPolicy] look at the
    sign of [a] alone. *)
Lemma DivRounded_other_divergences :
  DivRounded HalfEven 4 3 = (2, true)
  /\ rounded_quotient HalfEven 4 3 = 1
  /\ DivRounded Ceiling 1 (-2) = (-1, true)
  /\ rounded_quotient Ceiling 1 (-2) = 0
  /\ DivRounded Floor 1 (-2) = (0, true)
  /\ rounded_quotient Floor 1 (-2) = -1.
Proof. repeat split; vm_compute; reflexivity. Qed.

(** Every exact tie with a negative numerator and a positive divisor is
    rounded by [HalfDownRoundPolicy] away from zero and by
    [HalfUpRoundPolicy] toward zero. *)
Lemma DivRounded_negative_ties (a b : Z) :
  in_int64 a -> in_int64 b -> a < 0 < b ->
  2 * Z.rem a b = - b ->
  kMinInt64 <= a - b / 2 ->
  DivRounded HalfDown a b = (Z.quot a b - 1, true)
  /\ rounded_quotient HalfDown a b = Z.quot a b
  /\ DivRounded HalfUp a b = (Z.quot a b, true)
  /\ rounded_quotient HalfUp a b = Z.quot a b - 1.
Proof.
  intros Ha Hb Hs Htie Hmin.
  destruct (quot_rem_facts a b ltac:(lia)) as (Hdm & Hr & _ & Hneg).
  destruct (Hneg ltac:(lia)) as [Hq0 Hr0].
  set (q := Z.quot a b) in *. set (r := Z.rem a b) in *.
  assert (Hh : b / 2 = - r).
  { symmetry. apply Z.div_unique_exact; lia. }
  assert (Hquot2 : Z.quot b 2 = - r).
  { rewrite Z.quot_div_nonneg by lia. exact Hh. }
  rewrite Hh in Hmin.
  assert (Hbounds : in_int64 (- a) /\ in_int64 (- r) /\ in_int64 q
                    /\ in_int64 (q - 1)).
  { unfold in_int64, kMinInt64, kMaxInt64 in *. nia. }
  destruct Hbounds as (Hna & Hnr & Hqi & Hq1).
  assert (Habs_a : Abs a = - a).
  { unfold Abs, neg64. destruct (Z.geb_spec a 0); [lia|].
    apply wrap64_id, Hna. }
  assert (Habs_b : Abs b = b).
  { unfold Abs. destruct (Z.geb_spec b 0); [reflexivity | lia]. }
  assert (Hcorr : div64 b 2 = - r).
  { unfold div64. rewrite Hquot2. apply wrap64_id, Hnr. }
  assert (Hrem : rem64 (- a) b = - r).
  { unfold rem64. rewrite Z.rem_opp_l by lia. fold r. apply wrap64_id, Hnr. }
  assert (Hguard : (neg64 (sub64 kMinInt64 a) >=? - r) = true).
  { unfold neg64, sub64.
    rewrite (wrap64_id (kMinInt64 - a))
      by (unfold in_int64, kMinInt64, kMaxInt64 in *; lia).
    rewrite wrap64_id by (unfold in_int64, kMinInt64, kMaxInt64 in *; lia).
    apply Z.geb_le. lia. }
  assert (Hdown : div64 (sub64 a (- r)) b = q - 1).
  { unfold div64, sub64.
    rewrite (wrap64_id (a - - r))
      by (unfold in_int64, kMinInt64, kMaxInt64 in *; lia).
    replace (a - - r) with ((q - 1) * b) by lia.
    rewrite Z.quot_mul by lia. apply wrap64_id, Hq1. }
  assert (Hup : div64 (add64 a (- r)) b = q).
  { unfold div64, add64.
    rewrite (wrap64_id (a + - r))
      by (unfold in_int64, kMinInt64, kMaxInt64 in *; lia).
    replace (a + - r) with (q * b) by lia.
    rewrite Z.quot_mul by lia. apply wrap64_id, Hqi. }
  assert (Hage : (a >=? 0) = false).
  { destruct (Z.geb_spec a 0); [lia | reflexivity]. }
  assert (Hsgn : Z.sgn a * Z.sgn b = -1).
  { rewrite (Z.sgn_neg a), (Z.sgn_pos b) by lia. reflexivity. }
  split; [|split; [|split]].
  - cbn [DivRounded]. unfold HalfDownRoundPolicy.DivRounded.
    rewrite Habs_a, Habs_b, Hcorr, Hage, Hguard, Hdown. reflexivity.
  - unfold rounded_quotient. fold q r. rewrite Hsgn.
    destruct (Z.eqb_spec r 0); [lia|].
    destruct (Z.gtb_spec (2 * Z.abs r) (Z.abs b)); [lia | reflexivity].
  - cbn [DivRounded]. unfold HalfUpRoundPolicy.DivRounded.
    rewrite Habs_a, Habs_b, Hcorr, Hrem, Hage, Hguard.
    rewrite Z.ltb_irrefl, Z.eqb_refl, Hup. reflexivity.
  - unfold rounded_quotient. fold q r. rewrite Hsgn.
    destruct (Z.eqb_spec r 0); [lia|].
    destruct (Z.geb_spec (2 * Z.abs r) (Z.abs b)); [reflexivity | lia].
Qed.

Lemma quot_between (x b k : Z) :
  0 < b -> 0 <= x -> k * b <= x < (k + 1) * b -> Z.quot x b = k.
Proof.
  intros Hb Hx Hk. rewrite Z.quot_div_nonneg by lia.
  symmetry. apply Z.div_unique with (r := x - k * b); lia.
Qed.

(** For a numerator [a >= 0] and a divisor [b > 0] with [a + b] inside the
    64-bit range, every policy succeeds with the quotient that the table
    prescribes ([HalfEvenRoundPolicy] for even [b]). *)
Lemma DivRounded_nonnegative (policy : RoundPolicy) (a b : Z) :
  0 <= a -> 0 < b -> a + b <= kMaxInt64 ->
  (policy = HalfEven -> Z.even b = true) ->
  DivRounded policy a b = (rounded_quotient policy a b, true).
Proof.
  intros Ha Hb Hab Heven.
  destruct (quot_rem_facts a b Hb) as (Hdm & _ & Hpos & _).
  destruct (Hpos Ha) as [Hq0 Hr0].
  pose proof (Z.rem_bound_pos a b Ha Hb) as Hr.
  pose proof (Z.div_mod b 2 ltac:(lia)) as Hb2.
  pose proof (Z.mod_pos_bound b 2 ltac:(lia)) as Hb2m.
  assert (Hq2 : Z.quot b 2 = b / 2) by (apply Z.quot_div_nonneg; lia).
  set (q := Z.quot a b) in *. set (r := Z.rem a b) in *.
  set (h := b / 2) in *.
  assert (Hqb : 0 <= b * q <= a) by nia.
  assert (Hfit : forall x, 0 <= x <= a + b -> wrap64 x = x).
  { intros x Hx. apply wrap64_id.
    unfold in_int64, kMinInt64, kMaxInt64 in *. lia. }
  assert (Habs : forall x, 0 <= x -> Abs x = x).
  { intros x Hx. unfold Abs. destruct (Z.geb_spec x 0); [reflexivity | lia]. }
  assert (Hsgn : r <> 0 -> Z.sgn a * Z.sgn b = 1).
  { intros Hr1. rewrite (Z.sgn_pos a), (Z.sgn_pos b) by nia. reflexivity. }
  assert (Hdiv : div64 a b = q).
  { unfold div64. fold q. apply Hfit. nia. }
  assert (Hrem : rem64 a b = r).
  { unfold rem64. fold r. apply Hfit. lia. }
  assert (Hcorr : div64 b 2 = h).
  { unfold div64. rewrite Hq2. apply Hfit. lia. }
  assert (Hguard : (sub64 kMaxInt64 a >=? h) = true).
  { unfold sub64. rewrite wrap64_id
      by (unfold in_int64, kMinInt64, kMaxInt64 in *; lia).
    apply Z.geb_le. lia. }
  assert (Hage : (a >=? 0) = true) by (apply Z.geb_le; lia).
  assert (Hplus : forall x k, 0 <= x -> a + x <= a + b ->
                          k * b <= a + x < (k + 1) * b ->
                          div64 (add64 a x) b = k).
  { intros x k Hx Hle Hk. unfold div64, add64.
    rewrite (Hfit (a + x)) by lia.
    rewrite (quot_between (a + x) b k) by lia. apply Hfit. nia. }
  assert (Hminus : div64 (sub64 a r) b = q).
  { unfold div64, sub64. rewrite (Hfit (a - r)) by lia.
    rewrite (quot_between (a - r) b q) by lia. apply Hfit. nia. }
  assert (Hround : div64 (add64 (sub64 a r) b) b = q + 1).
  { unfold div64, add64, sub64. rewrite (Hfit (a - r)) by lia.
    rewrite (Hfit (a - r + b)) by lia.
    rewrite (quot_between (a - r + b) b (q + 1)) by lia. apply Hfit. nia. }
  unfold rounded_quotient. fold q r.
  destruct policy; cbn [DivRounded];
    unfold NullRoundPolicy.DivRounded, DefRoundPolicy.DivRounded,
      HalfDownRoundPolicy.DivRounded, HalfUpRoundPolicy.DivRounded,
      HalfEvenRoundPolicy.DivRounded, CeilingRoundPolicy.DivRounded,
      FloorRoundPolicy.DivRounded, RoundDownRoundPolicy.DivRounded,
      RoundUpRoundPolicy.DivRounded, NullRoundPolicy.DivRounded;
    rewrite ?(Habs a Ha), ?(Habs b ltac:(lia)), ?Hrem, ?Hcorr,
      ?(Habs h ltac:(lia)), ?Hage, ?Hguard.
  - (* Null *)
    rewrite Hdiv. destruct (r =? 0); reflexivity.
  - (* Def *)
    destruct (Z.eqb_spec r 0) as [Hz | Hnz].
    + rewrite (Hplus h q) by lia. reflexivity.
    + rewrite Z.abs_eq, Z.abs_eq by lia.
      destruct (Z.geb_spec (2 * r) b).
      * rewrite (Hplus h (q + 1)), (Hsgn Hnz) by lia. reflexivity.
      * rewrite (Hplus h q) by lia. reflexivity.
  - (* HalfDown *)
    destruct (Z.eqb_spec r 0) as [Hz | Hnz].
    + destruct (Z.gtb_spec r h); [lia|]. rewrite Hdiv. reflexivity.
    + rewrite Z.abs_eq, Z.abs_eq by lia.
      destruct (Z.gtb_spec r h); destruct (Z.gtb_spec (2 * r) b); try lia.
      * rewrite (Hplus h (q + 1)), (Hsgn Hnz) by lia. reflexivity.
      * rewrite Hdiv. reflexivity.
  - (* HalfUp *)
    destruct (Z.eqb_spec r 0) as [Hz | Hnz].
    + destruct (Z.geb_spec r h).
      * rewrite (Hplus h q) by lia. reflexivity.
      * rewrite Hdiv. reflexivity.
    + rewrite Z.abs_eq, Z.abs_eq by lia.
      destruct (Z.geb_spec r h); destruct (Z.geb_spec (2 * r) b); try lia.
      * rewrite (Hplus h (q + 1)), (Hsgn Hnz) by lia. reflexivity.
      * rewrite (Hplus h q) by lia. reflexivity.
      * rewrite Hdiv. reflexivity.
  - (* HalfEven *)
    specialize (Heven eq_refl).
    assert (Hbe : b = 2 * h).
    { rewrite Zeven_mod in Heven. apply Z.eqb_eq in Heven. lia. }
    destruct (Z.eqb_spec r 0) as [Hz | Hnz]; [rewrite Hdiv; reflexivity|].
    rewrite Z.abs_eq, Z.abs_eq by lia.
    destruct (Z.gtb_spec r h); destruct (Z.gtb_spec (2 * r) b); try lia.
    + rewrite Hround, (Hsgn Hnz). reflexivity.
    + destruct (Z.ltb_spec r h); destruct (Z.ltb_spec (2 * r) b); try lia.
      * rewrite Hminus. reflexivity.
      * rewrite Hdiv, (Habs q Hq0), Hround, (Hsgn Hnz).
        assert (Hq2r : rem64 q 2 = Z.rem q 2).
        { unfold rem64. apply Hfit.
          pose proof (Z.rem_bound_pos q 2 Hq0 ltac:(lia)). nia. }
        rewrite Hq2r, Z.rem_mod_nonneg by lia.
        rewrite Zeven_mod. destruct (q mod 2 =? 0); reflexivity.
  - (* Ceiling *)
    destruct (Z.eqb_spec r 0) as [Hz | Hnz]; [rewrite Hdiv; reflexivity|].
    rewrite (Hplus b (q + 1)), (Hsgn Hnz) by lia. reflexivity.
  - (* Floor *)
    destruct (Z.eqb_spec r 0) as [Hz | Hnz]; [rewrite Hdiv; reflexivity|].
    rewrite Hminus, (Hsgn Hnz). reflexivity.
  - (* RoundDown *)
    rewrite Hdiv. destruct (r =? 0); reflexivity.
  - (* RoundUp *)
    destruct (Z.eqb_spec r 0) as [Hz | Hnz]; [rewrite Hdiv; reflexivity|].
    rewrite (Hplus b (q + 1)), (Hsgn Hnz) by lia. reflexivity.
Qed.

(** ** IsMultOverflow *)

(** C2. [IsMultOverflow(min_i64, -1)] is [false] although the product
    [2^63] is outside the signed 64-bit range; and [IsMultOverflow(-2, 2^62)]
    is [true] although the product [-(2^63)] is inside it. *)
Theorem IsMultOverflow_min_times_minus_one :
  IsMultOverflow kMinInt64 (-1) = false
  /\ ~ in_int64 (kMinInt64 * -1)
  /\ IsMultOverflow (-2) (2 ^ 62) = true
  /\ in_int64 (-2 * 2 ^ 62).
Proof.
  split; [reflexivity|]. split.
  - unfold in_int64, kMinInt64, kMaxInt64. lia.
  - split; [reflexivity|]. unfold in_int64, kMinInt64, kMaxInt64. lia.
Qed.

Lemma IsMultOverflowPositive_spec (v1 v2 : Z) :
  0 < v1 <= kMaxInt64 -> 0 < v2 <= kMaxInt64 ->
  (IsMultOverflowPositive v1 v2 = true <-> v1 * v2 > kMaxInt64).
Proof.
  intros H1 H2. unfold IsMultOverflowPositive, div64.
  assert (Hk : in_int64 kMaxInt64)
    by (unfold in_int64, kMinInt64, kMaxInt64; lia).
  destruct (quot_rem_in_int64 kMaxInt64 v1 ltac:(lia) Hk) as (Hq1 & _ & _).
  destruct (quot_rem_in_int64 kMaxInt64 v2 ltac:(lia) Hk) as (Hq2 & _ & _).
  rewrite (wrap64_id _ Hq1), (wrap64_id _ Hq2).
  destruct (quot_rem_facts kMaxInt64 v1 ltac:(lia)) as (E1 & R1 & P1 & _).
  destruct (quot_rem_facts kMaxInt64 v2 ltac:(lia)) as (E2 & R2 & P2 & _).
  destruct (P1 ltac:(unfold kMaxInt64; lia)) as [Q1 R1'].
  destruct (P2 ltac:(unfold kMaxInt64; lia)) as [Q2 R2'].
  rewrite andb_true_iff.
  destruct (Z.gtb_spec v1 (Z.quot kMaxInt64 v2));
    destruct (Z.gtb_spec v2 (Z.quot kMaxInt64 v1));
    split; intros Hx; try (destruct Hx; discriminate);
    try (split; reflexivity); nia.
Qed.

(** Where [IsMultOverflow] and the mathematical product differ: it misses
    the overflow of [min_i64 * -1], and it reports a product that is exactly
    [min_i64] unless an operand is [min_i64]. *)
Lemma IsMultOverflow_characterization (a b : Z) :
  in_int64 a -> in_int64 b ->
  (IsMultOverflow a b = true <->
   (~ in_int64 (a * b)
    /\ ~ (a = kMinInt64 /\ b = -1) /\ ~ (a = -1 /\ b = kMinInt64))
   \/ (a * b = kMinInt64 /\ a <> kMinInt64 /\ b <> kMinInt64)).
Proof.
  intros Ha Hb. unfold IsMultOverflow.
  destruct (Z.eqb_spec a 0) as [-> | Ha0]; cbn [orb].
  { unfold in_int64, kMinInt64, kMaxInt64. split; [discriminate | lia]. }
  destruct (Z.eqb_spec b 0) as [-> | Hb0].
  { unfold in_int64, kMinInt64, kMaxInt64. split; [discriminate | lia]. }
  assert (Hneg : forall x, in_int64 x -> x <> kMinInt64 -> neg64 x = - x).
  { intros x Hx Hm. unfold neg64. apply wrap64_id.
    unfold in_int64, kMinInt64, kMaxInt64 in *. lia. }
  destruct (Z.ltb_spec a 0) as [Han | Hap];
    destruct (Z.ltb_spec b 0) as [Hbn | Hbp]; cbn [Bool.eqb negb andb].
  - (* both negative *)
    destruct (Z.eqb_spec a kMinInt64) as [-> | Ham].
    { destruct (Z.ltb_spec b (-1));
        unfold in_int64, kMinInt64, kMaxInt64 in *;
        split; intros Hx; try discriminate; try reflexivity; try nia;
        try (left; nia). }
    destruct (Z.eqb_spec b kMinInt64) as [-> | Hbm].
    { destruct (Z.ltb_spec a (-1));
        unfold in_int64, kMinInt64, kMaxInt64 in *;
        split; intros Hx; try discriminate; try reflexivity; try nia;
        try (left; nia). }
    rewrite (Hneg a Ha Ham), (Hneg b Hb Hbm).
    rewrite IsMultOverflowPositive_spec
      by (unfold in_int64, kMinInt64, kMaxInt64 in *; lia).
    unfold in_int64, kMinInt64, kMaxInt64 in *.
    split; intros Hx; [left; nia | nia].
  - (* a negative, b positive *)
    destruct (Z.eqb_spec a kMinInt64) as [-> | Ham].
    { destruct (Z.gtb_spec b 1);
        unfold in_int64, kMinInt64, kMaxInt64 in *;
        split; intros Hx; try discriminate; try reflexivity; try nia;
        try (left; nia). }
    destruct (Z.eqb_spec b kMinInt64) as [-> | Hbm].
    { unfold in_int64, kMinInt64, kMaxInt64 in *. lia. }
    rewrite (Hneg a Ha Ham).
    rewrite IsMultOverflowPositive_spec
      by (unfold in_int64, kMinInt64, kMaxInt64 in *; lia).
    unfold in_int64, kMinInt64, kMaxInt64 in *.
    split; intros Hx.
    + destruct (Z.eq_dec (a * b) (-9223372036854775808)); [right|left]; nia.
    + nia.
  - (* a positive, b negative *)
    destruct (Z.eqb_spec a kMinInt64) as [-> | Ham].
    { unfold in_int64, kMinInt64, kMaxInt64 in *. lia. }
    destruct (Z.eqb_spec b kMinInt64) as [-> | Hbm].
    { destruct (Z.gtb_spec a 1);
        unfold in_int64, kMinInt64, kMaxInt64 in *;
        split; intros Hx; try discriminate; try reflexivity; try nia;
        try (left; nia). }
    rewrite (Hneg b Hb Hbm).
    rewrite IsMultOverflowPositive_spec
      by (unfold in_int64, kMinInt64, kMaxInt64 in *; lia).
    unfold in_int64, kMinInt64, kMaxInt64 in *.
    split; intros Hx.
    + destruct (Z.eq_dec (a * b) (-9223372036854775808)); [right|left]; nia.
    + nia.
  - (* both positive *)
    rewrite IsMultOverflowPositive_spec
      by (unfold in_int64, kMinInt64, kMaxInt64 in *; lia).
    unfold in_int64, kMinInt64, kMaxInt64 in *.
    split; intros Hx; [left; nia | nia].
Qed.

(** ** MultDiv *)

(** The branch of [MultDiv] for fractional parts whose product fits: the
    rounded quotient is added when [DivRounded] succeeds, and 0 when it
    fails. *)
Lemma MultDiv_product_fits
    (RoundLongDouble : RoundPolicy -> Z -> Z -> Z -> Z)
    (policy : RoundPolicy) (value1 value2 divisor : Z) :
  rem64 value1 divisor <> 0 -> rem64 value2 divisor <> 0 ->
  IsMultOverflow (rem64 value1 divisor) (rem64 value2 divisor) = false ->
  MultDiv RoundLongDouble policy value1 value2 divisor
  = add64
      (add64 (mul64 value1 (div64 value2 divisor))
         (mul64 (div64 value1 divisor) (rem64 value2 divisor)))
      (let '(output, ok) :=
         DivRounded policy
           (mul64 (rem64 value1 divisor) (rem64 value2 divisor)) divisor in
       if ok then output else 0).
Proof.
  intros H1 H2 Ho. unfold MultDiv.
  destruct (Z.eqb_spec (rem64 value1 divisor) 0) as [? | _]; [contradiction|].
  destruct (Z.eqb_spec (rem64 value2 divisor) 0) as [? | _]; [contradiction|].
  cbn [orb]. rewrite Ho. cbn [negb].
  destruct (DivRounded policy _ divisor) as [output ok]. reflexivity.
Qed.

(** C3. With [DefRoundPolicy], [MultDiv(3037000499, 3037000499, 10^18)]:
    the decomposition products are 0, [aD = bD = 3037000499] are nonzero,
    [aD * bD] does not overflow and [aD * bD / d] rounds to 9, yet the
    result is 0: a failed [DivRounded] is replaced by 0. *)
Theorem MultDiv_drops_fraction_when_DivRounded_fails :
  forall RoundLongDouble : RoundPolicy -> Z -> Z -> Z -> Z,
    let a := 3037000499 in
    let b := 3037000499 in
    let d := 10 ^ 18 in
    let aD := Z.rem a d in
    let bD := Z.rem b d in
    in_int64 (a * Z.quot b d) /\ in_int64 (Z.quot a d * bD)
    /\ aD <> 0 /\ bD <> 0
    /\ in_int64 (aD * bD) /\ IsMultOverflow aD bD = false
    /\ DivRounded Def (aD * bD) d = (0, false)
    /\ a * Z.quot b d + Z.quot a d * bD + rounded_quotient Def (aD * bD) d = 9
    /\ MultDiv RoundLongDouble Def a b d = 0.
Proof.
  intros R. cbv zeta.
  repeat split; try (vm_compute; congruence); vm_compute; reflexivity.
Qed.

(** ** Abs and Sign *)

Lemma Abs_eq (v : Z) : in_int64 v -> v <> kMinInt64 -> Abs v = Z.abs v.
Proof.
  unfold Abs, neg64. intros Hr Hm.
  destruct (Z.geb_spec v 0) as [Hv | Hv].
  - symmetry. apply Z.abs_eq. lia.
  - rewrite wrap64_id.
    + symmetry. apply Z.abs_neq. lia.
    + unfold in_int64, kMinInt64, kMaxInt64 in *. lia.
Qed.

(** C9, as the code has it: for every decimal whose mantissa is an
    [int64_t] other than [min_i64], [Abs(d).Sign() >= 0] and
    [Abs(d).AsUnbiased()] is the absolute value of [d.AsUnbiased()]. *)
Theorem Decimal_Abs_spec (d : Decimal) :
  in_int64 (AsUnbiased d) ->
  AsUnbiased d <> kMinInt64 ->
  Sign (Decimal_Abs d) >= 0
  /\ AsUnbiased (Decimal_Abs d) = Z.abs (AsUnbiased d).
Proof.
  intros Hr Hm. unfold Decimal_Abs, AsUnbiased in *. cbn [value_].
  rewrite (Abs_eq _ Hr Hm). split; [|reflexivity].
  unfold Sign. cbn [value_].
  destruct (Z.gtb_spec (Z.abs (value_ d)) 0); [lia|].
  destruct (Z.ltb_spec (Z.abs (value_ d)) 0); lia.
Qed.

Lemma Decimal_Abs_spec_witness :
  in_int64 (AsUnbiased (FromUnbiased (-5)))
  /\ AsUnbiased (FromUnbiased (-5)) <> kMinInt64
  /\ Sign (Decimal_Abs (FromUnbiased (-5))) >= 0
  /\ AsUnbiased (Decimal_Abs (FromUnbiased (-5)))
     = Z.abs (AsUnbiased (FromUnbiased (-5))).
Proof.
  assert (Hr : in_int64 (AsUnbiased (FromUnbiased (-5)))).
  { unfold in_int64, kMinInt64, kMaxInt64. simpl. lia. }
  assert (Hm : AsUnbiased (FromUnbiased (-5)) <> kMinInt64).
  { unfold kMinInt64. simpl. lia. }
  split; [exact Hr|]. split; [exact Hm|].
  exact (Decimal_Abs_spec (FromUnbiased (-5)) Hr Hm).
Defined.

(** C9 at the mantissa [min_i64]: the negation wraps, [Abs] gives back
    [min_i64], whose sign is [-1]. *)
Lemma Decimal_Abs_min_counterexample :
  ~ (Sign (Decimal_Abs (FromUnbiased kMinInt64)) >= 0
     /\ AsUnbiased (Decimal_Abs (FromUnbiased kMinInt64))
        = Z.abs (AsUnbiased (FromUnbiased kMinInt64))).
Proof. intros [H _]. vm_compute in H. apply H. reflexivity. Qed.

(** ** Literal scenarios *)

(** C5. [Decimal<2, HalfEvenRoundPolicy>("2.5").ToInteger()] is 2,
    [Decimal<2, HalfEvenRoundPolicy>("3.5").ToInteger()] is 4 and
    [Decimal<2, HalfUpRoundPolicy>("2.5").ToInteger()] is 3. *)
Theorem ToInteger_scenarios :
  (Decimal_of_string 2 HalfEven (chars "2.5") = Value (FromUnbiased 250)
   /\ ToInteger 2 HalfEven (FromUnbiased 250) = 2)
  /\ (Decimal_of_string 2 HalfEven (chars "3.5") = Value (FromUnbiased 350)
      /\ ToInteger 2 HalfEven (FromUnbiased 350) = 4)
  /\ (Decimal_of_string 2 HalfUp (chars "2.5") = Value (FromUnbiased 250)
      /\ ToInteger 2 HalfUp (FromUnbiased 250) = 3).
Proof. repeat split; vm_compute; reflexivity. Qed.

(** C7. ["0.12345"] with [Prec = 4]: the strict constructor fails with
    [kRounding] under every policy; [FromStringPermissive] gives 0.1235
    (mantissa 1235) under [DefRoundPolicy] and 0.1234 (mantissa 1234) under
    [FloorRoundPolicy]. *)
Theorem Parse_extra_digit_scenarios :
  (forall policy,
      exists position,
        Decimal_of_string 4 policy (chars "0.12345")
        = ParseError position kRounding)
  /\ FromStringPermissive 4 Def (chars "0.12345") = Value (FromUnbiased 1235)
  /\ ToString 4 (FromUnbiased 1235) = chars "0.1235"
  /\ FromStringPermissive 4 Floor (chars "0.12345") = Value (FromUnbiased 1234)
  /\ ToString 4 (FromUnbiased 1234) = chars "0.1234".
Proof.
  split.
  - intros policy. exists 0. destruct policy; vm_compute; reflexivity.
  - repeat split; vm_compute; reflexivity.
Qed.

(** ** The loops of the parser have fuel to spare *)

Section Fuel.

Context {Seq : Type} `{LawfulCharSequence Seq}.

Lemma main_loop_fuel (options : Z) (fuel1 fuel2 : nat) :
  forall (l : Locals) (input : Seq),
    (Avail input < fuel1)%nat -> (Avail input < fuel2)%nat ->
    main_loop fuel1 options l input = main_loop fuel2 options l input.
Proof.
  revert fuel2. induction fuel1 as [|f1 IH]; intros fuel2 l input H1 H2.
  - lia.
  - destruct fuel2 as [|f2]; [lia|]. simpl.
    destruct (is_kEnd (l_state l)); [reflexivity|].
    destruct (Get input) as [c input'] eqn:HG.
    destruct (char_eqb c NUL) eqn:Hc; [reflexivity|].
    pose proof (Get_Avail _ _ _ HG Hc).
    apply IH; lia.
Qed.

Lemma junk_loop_fuel (fuel1 fuel2 : nat) :
  forall (l : Locals) (input : Seq),
    (Avail input < fuel1)%nat -> (Avail input < fuel2)%nat ->
    junk_loop fuel1 l input = junk_loop fuel2 l input.
Proof.
  revert fuel2. induction fuel1 as [|f1 IH]; intros fuel2 l input H1 H2.
  - lia.
  - destruct fuel2 as [|f2]; [lia|]. simpl.
    destruct (Get input) as [c input'] eqn:HG.
    destruct (char_eqb c NUL) eqn:Hc; [reflexivity|].
    destruct (negb (IsSpace c)); [reflexivity|].
    pose proof (Get_Avail _ _ _ HG Hc).
    apply IH; lia.
Qed.

End Fuel.

#[export] Instance StringCharSequence_Lawful
  : LawfulCharSequence StringCharSequence.
Proof.
  constructor. intros s s' c HG Hc. cbn in HG.
  unfold StringCharSequence_Get in HG.
  destruct (current_ s) as [|c0 rest] eqn:Hcur.
  - inversion HG; subst. discriminate Hc.
  - inversion HG; subst. cbn. rewrite Hcur. cbn. lia.
Qed.

#[export] Instance StreamCharSequence_Lawful : LawfulCharSequence istream.
Proof.
  constructor. intros s s' c HG Hc. cbn in HG.
  unfold StreamCharSequence_Get in HG.
  destruct (negb (good s)).
  - inversion HG; subst. discriminate Hc.
  - destruct (pending s) as [|c0 rest] eqn:Hp.
    + inversion HG; subst. discriminate Hc.
    + destruct (char_eqb c0 kEof).
      * inversion HG; subst. discriminate Hc.
      * inversion HG; subst. cbn. rewrite Hp. cbn. lia.
Qed.

(** On a [StringCharSequence] the main loop with fuel is the recursion on
    the text. *)
Lemma main_loop_string (options : Z) :
  forall (text seen : list ascii) (fuel : nat) (l : Locals),
    (List.length text < fuel)%nat ->
    main_loop fuel options l {| consumed_ := seen; current_ := text |}
    = string_loop options l seen text.
Proof.
  induction text as [|c rest IH]; intros seen fuel l Hf;
    (destruct fuel as [|fuel]; [cbn in Hf; lia|]); cbn.
  - destruct (is_kEnd (l_state l)); reflexivity.
  - destruct (is_kEnd (l_state l)); [reflexivity|].
    destruct (char_eqb c NUL); [reflexivity|].
    apply IH. cbn in Hf. lia.
Qed.

Lemma junk_loop_string :
  forall (text seen : list ascii) (fuel : nat) (l : Locals),
    (List.length text < fuel)%nat ->
    junk_loop fuel l {| consumed_ := seen; current_ := text |}
    = string_junk_loop l seen text.
Proof.
  induction text as [|c rest IH]; intros seen fuel l Hf;
    (destruct fuel as [|fuel]; [cbn in Hf; lia|]); cbn.
  - reflexivity.
  - destruct (char_eqb c NUL); [reflexivity|].
    destruct (negb (IsSpace c)); [reflexivity|].
    apply IH. cbn in Hf. lia.
Qed.

(** [ParseUnpacked] on a string, through the recursions on the text. *)
Lemma ParseUnpacked_string (options : Z) (s : list ascii) :
  fst (ParseUnpacked (MakeStringCharSequence s) options)
  = let '(l, q) := string_loop options initial_locals [] s in
    let l :=
      if is_kEnd (l_state l) then
        if no_error l && negb (has options kAllowTrailingJunk) then
          let q := Unget q in
          let l :=
            if negb (has options kAllowSpaces) then set_error kSpace l
            else l in
          fst (string_junk_loop (set_position (l_position l - 1) l)
                 (consumed_ q) (current_ q))
        else l
      else l in
    make_result (final_checks options l).
Proof.
  unfold ParseUnpacked, MakeStringCharSequence.
  rewrite main_loop_string by (cbn; lia).
  destruct (string_loop options initial_locals [] s) as [l q].
  unfold scan_trailing.
  destruct (is_kEnd (l_state l)); [|reflexivity].
  destruct (no_error l && negb (has options kAllowTrailingJunk));
    [|reflexivity].
  destruct (Unget q) as [seen text] eqn:Hq.
  rewrite junk_loop_string by (cbn; lia).
  cbn [consumed_ current_].
  destruct (string_junk_loop _ seen text). reflexivity.
Qed.

(** ** The character ['\0'] ends the input *)

Lemma string_loop_until_NUL (options : Z) :
  forall (s seen : list ascii) (l : Locals),
    Forall (fun c => char_eqb c NUL = false) seen ->
    fst (string_loop options l seen s)
    = fst (string_loop options l seen (until_NUL s))
    /\ (is_kEnd (l_state (fst (string_loop options l seen s))) = true ->
        consumed_ (snd (string_loop options l seen s))
        = consumed_ (snd (string_loop options l seen (until_NUL s)))
        /\ current_ (snd (string_loop options l seen (until_NUL s)))
           = until_NUL (current_ (snd (string_loop options l seen s)))
        /\ Forall (fun c => char_eqb c NUL = false)
             (consumed_ (snd (string_loop options l seen s)))).
Proof.
  induction s as [|c rest IH]; intros seen l Hseen.
  - cbn. auto.
  - cbn [until_NUL string_loop].
    destruct (is_kEnd (l_state l)) eqn:Hend.
    + destruct (char_eqb c NUL) eqn:Hc; cbn; rewrite Hend; cbn.
      * rewrite Hc. auto.
      * rewrite Hc. auto.
    + destruct (char_eqb c NUL) eqn:Hc.
      * cbn. rewrite Hend. split; [reflexivity|discriminate].
      * cbn [string_loop]. rewrite Hend, Hc.
        apply IH. constructor; assumption.
Qed.

Lemma string_junk_loop_until_NUL :
  forall (text seen : list ascii) (l : Locals),
    fst (string_junk_loop l seen text)
    = fst (string_junk_loop l seen (until_NUL text)).
Proof.
  induction text as [|c rest IH]; intros seen l.
  - reflexivity.
  - cbn [until_NUL string_junk_loop].
    destruct (char_eqb c NUL) eqn:Hc.
    + reflexivity.
    + cbn [string_junk_loop]. rewrite Hc.
      destruct (negb (IsSpace c)); [reflexivity|]. apply IH.
Qed.

Lemma ParseUnpacked_until_NUL (options : Z) (s : list ascii) :
  fst (ParseUnpacked (MakeStringCharSequence s) options)
  = fst (ParseUnpacked (MakeStringCharSequence (until_NUL s)) options).
Proof.
  rewrite !ParseUnpacked_string.
  destruct (string_loop_until_NUL options s [] initial_locals (Forall_nil _))
    as [Hl Hq].
  destruct (string_loop options initial_locals [] s) as [l q].
  destruct (string_loop options initial_locals [] (until_NUL s)) as [l' q'].
  cbn [fst snd] in *. subst l'.
  destruct (is_kEnd (l_state l)); [|reflexivity].
  destruct (no_error l && negb (has options kAllowTrailingJunk));
    [|reflexivity].
  destruct (Hq eq_refl) as (Hc & Hcur & Hnn).
  destruct q as [seen text], q' as [seen' text']. cbn in Hc, Hcur, Hnn.
  subst seen' text'.
  unfold Unget, StringCharSequence_CharSequence, StringCharSequence_Unget.
  cbn [consumed_ current_].
  destruct seen as [|c0 seen]; cbn [consumed_ current_].
  - rewrite <- string_junk_loop_until_NUL. reflexivity.
  - inversion Hnn as [|? ? Hc0 _]; subst.
    rewrite (string_junk_loop_until_NUL (c0 :: text)).
    cbn [until_NUL]. rewrite Hc0. reflexivity.
Qed.

Lemma Parse_fst {Seq : Type} `{CharSequence Seq}
    (Prec : Z) (policy : RoundPolicy) (input : Seq) (options : Z) :
  fst (Parse Prec policy input options)
  = Parse_pack Prec policy options (fst (ParseUnpacked input options)).
Proof.
  unfold Parse. destruct (ParseUnpacked input options). reflexivity.
Qed.

(** C10. On a string the parser's result is the result on the text before
    the first ['\0']: nothing after it is examined and no error is
    attributed there.  So in strict mode ["12.5"] followed by ['\0'] and
    junk parses to 12.5, while the same junk without the ['\0'] is
    [kTrailingJunk]. *)
Theorem Parse_stops_at_NUL :
  (forall (Prec : Z) (policy : RoundPolicy) (options : Z) (s : list ascii),
      fst (Parse Prec policy (MakeStringCharSequence s) options)
      = fst (Parse Prec policy (MakeStringCharSequence (until_NUL s)) options))
  /\ (forall (policy : RoundPolicy) (junk : list ascii),
         Decimal_of_string 2 policy (chars "12.5" ++ NUL :: junk)
         = Value (FromUnbiased 1250))
  /\ Decimal_of_string 2 Def (chars "12.5junk") = ParseError 4 kTrailingJunk.
Proof.
  split; [|split].
  - intros. rewrite !Parse_fst, ParseUnpacked_until_NUL. reflexivity.
  - intros policy junk. unfold Decimal_of_string.
    rewrite Parse_fst, ParseUnpacked_until_NUL.
    destruct policy; vm_compute; reflexivity.
  - vm_compute. reflexivity.
Qed.

(** ** The parser always returns *)

Ltac split_ifs :=
  repeat match goal with
    | |- context [if ?b then _ else _] => destruct b eqn:?
    end.

Lemma parse_step_digit_counts (options : Z) (c : ascii) (l : Locals) :
  digit_counts_ok l -> digit_counts_ok (parse_step options c l).
Proof.
  unfold digit_counts_ok, parse_step, parse_switch, kMaxDecimalDigits.
  intros Hl.
  destruct (no_error l); cbn [l_state set_position];
    destruct (l_state l); split_ifs; cbn;
    repeat match goal with
      | E : (_ <? _) = true |- _ => apply Z.ltb_lt in E
      end; cbn in *; lia.
Qed.

Section Totality.

Context {Seq : Type} `{CharSequence Seq}.

Lemma main_loop_digit_counts (options : Z) (fuel : nat) :
  forall (l : Locals) (input : Seq),
    digit_counts_ok l ->
    digit_counts_ok (fst (main_loop fuel options l input)).
Proof.
  induction fuel as [|fuel IH]; intros l input Hl; cbn; [exact Hl|].
  destruct (is_kEnd (l_state l)); [exact Hl|].
  destruct (Get input) as [c input'].
  destruct (char_eqb c NUL); [exact Hl|].
  apply IH, parse_step_digit_counts, Hl.
Qed.

Lemma junk_loop_digit_counts (fuel : nat) :
  forall (l : Locals) (input : Seq),
    digit_counts_ok l -> digit_counts_ok (fst (junk_loop fuel l input)).
Proof.
  induction fuel as [|fuel IH]; intros l input Hl; cbn; [exact Hl|].
  destruct (Get input) as [c input'].
  destruct (char_eqb c NUL); [exact Hl|].
  destruct (negb (IsSpace c)); [exact Hl|].
  apply IH. exact Hl.
Qed.

Lemma ParseUnpacked_decimal_digits (input : Seq) (options : Z) :
  0 <= decimal_digits (fst (ParseUnpacked input options)) <= 18.
Proof.
  unfold ParseUnpacked.
  pose proof (main_loop_digit_counts options (S (Avail input))
                initial_locals input) as Hm.
  destruct (main_loop (S (Avail input)) options initial_locals input)
    as [l q].
  cbn [fst] in Hm.
  assert (Hl : digit_counts_ok l).
  { apply Hm. unfold digit_counts_ok. cbn. lia. }
  clear Hm.
  assert (Hs : digit_counts_ok (fst (scan_trailing options l q))).
  { unfold scan_trailing.
    destruct (is_kEnd (l_state l)); [|exact Hl].
    destruct (no_error l && negb (has options kAllowTrailingJunk));
      [|exact Hl].
    apply junk_loop_digit_counts.
    destruct (negb (has options kAllowSpaces)); exact Hl. }
  destruct (scan_trailing options l q) as [l' q']. cbn [fst] in *.
  unfold make_result, final_checks, digit_counts_ok in *.
  cbn [decimal_digits].
  split_ifs; cbn; lia.
Qed.

End Totality.

Lemma FromUnpacked_total (Prec : Z) (policy : RoundPolicy)
    (before after original_precision : Z) :
  0 <= Prec <= 18 -> 0 <= original_precision <= 18 ->
  exists d, FromUnpacked Prec policy before after original_precision = Some d.
Proof.
  intros HP Ho. unfold FromUnpacked.
  destruct (Z.leb_spec original_precision Prec).
  - rewrite Pow10_spec by lia. eexists. reflexivity.
  - rewrite Pow10_spec by lia.
    destruct (DivRounded policy after _) as [r ok].
    destruct ok; eexists; reflexivity.
Qed.

Lemma Parse_total {Seq : Type} `{CharSequence Seq}
    (Prec : Z) (policy : RoundPolicy) (input : Seq) (options : Z) :
  0 <= Prec <= 18 ->
  exists result, fst (Parse Prec policy input options) = Some result.
Proof.
  intros HP. rewrite Parse_fst.
  pose proof (ParseUnpacked_decimal_digits input options) as Hd.
  destruct (fst (ParseUnpacked input options)) as [b a dd neg e pos].
  cbn [decimal_digits] in Hd. unfold Parse_pack.
  cbn [error before after decimal_digits is_negative error_position].
  destruct e; [eexists; reflexivity|].
  destruct (b >=? _); [eexists; reflexivity|].
  destruct (negb (has options kAllowRounding) && (dd >? Prec));
    [eexists; reflexivity|].
  destruct neg.
  - destruct (FromUnpacked_total Prec policy (neg64 b) (neg64 a) dd HP Hd)
      as [d Hdec].
    rewrite Hdec. eexists. reflexivity.
  - destruct (FromUnpacked_total Prec policy b a dd HP Hd) as [d Hdec].
    rewrite Hdec. eexists. reflexivity.
Qed.

(** ** Stream input *)

(** C8. [operator>>] on any stream and any target [d]: the parse gives a
    result; when it carries an error the stream leaves the call with its
    fail bit set and the target is [d] as before; otherwise the target is
    the parsed decimal. *)
Theorem operator_in_spec (Prec : Z) (policy : RoundPolicy)
    (ins : istream) (d : Decimal) :
  0 <= Prec <= 18 ->
  exists (result : ParseResult) (ins' : istream),
    fst (Parse Prec policy (if skipws ins then ws ins else ins)
           kAllowTrailingJunk) = Some result
    /\ match parse_error result with
       | Some _ =>
           operator_in Prec policy ins d = Some (ins', d)
           /\ failbit ins' = true
       | None =>
           operator_in Prec policy ins d = Some (ins', decimal result)
       end.
Proof.
  intros HP. unfold operator_in.
  destruct (Parse_total Prec policy (if skipws ins then ws ins else ins)
              kAllowTrailingJunk HP) as [result Hres].
  destruct (Parse Prec policy (if skipws ins then ws ins else ins)
              kAllowTrailingJunk) as [r ins1].
  cbn [fst] in Hres. subst r.
  exists result.
  destruct (parse_error result).
  - exists (set_failbit ins1). auto.
  - exists ins1. auto.
Qed.

Lemma operator_in_spec_witness :
  0 <= 2 <= 18
  /\ exists (result : ParseResult) (ins' : istream),
      let ins :=
        {| extracted := []; pending := chars " 1.5x"; eofbit := false;
           failbit := false; badbit := false; skipws := true |} in
      fst (Parse 2 Def (if skipws ins then ws ins else ins)
             kAllowTrailingJunk) = Some result
      /\ match parse_error result with
         | Some _ =>
             operator_in 2 Def ins (FromUnbiased 7)
             = Some (ins', FromUnbiased 7)
             /\ failbit ins' = true
         | None =>
             operator_in 2 Def ins (FromUnbiased 7)
             = Some (ins', decimal result)
         end.
Proof.
  split; [lia|].
  apply (operator_in_spec 2 Def
           {| extracted := []; pending := chars " 1.5x"; eofbit := false;
              failbit := false; badbit := false; skipws := true |}
           (FromUnbiased 7)).
  lia.
Defined.

(** ** Reading a text character by character *)

Lemma string_loop_reads (options : Z) (l l' : Locals) (text : list ascii) :
  reads options l text l' ->
  forall seen rest,
    string_loop options l seen (text ++ rest)
    = string_loop options l' (rev text ++ seen) rest.
Proof.
  induction 1 as [l | l l' c text Hend Hc Hr IH]; intros seen rest.
  - reflexivity.
  - cbn [app string_loop]. rewrite Hend, Hc, IH.
    cbn [rev]. rewrite <- app_assoc. reflexivity.
Qed.

Lemma reads_app (options : Z) (l1 l2 l3 : Locals) (s t : list ascii) :
  reads options l1 s l2 -> reads options l2 t l3 ->
  reads options l1 (s ++ t) l3.
Proof.
  induction 1 as [l | l l' c text Hend Hc Hr IH]; intros Ht.
  - exact Ht.
  - cbn [app]. apply reads_cons; auto.
Qed.

Lemma reads_one (options : Z) (l : Locals) (c : ascii) :
  is_kEnd (l_state l) = false -> char_eqb c NUL = false ->
  reads options l [c] (parse_step options c l).
Proof. intros. apply reads_cons; auto. apply reads_nil. Qed.

(** Characters are compared through their codes. *)
Ltac eval_codes :=
  unfold NUL, Ascii.zero, dec_point in *;
  repeat match goal with
    | |- context [code (Ascii ?a ?b ?c ?d ?e ?f ?g ?h)] =>
        let v := eval vm_compute in (code (Ascii a b c d e f g h)) in
        change (code (Ascii a b c d e f g h)) with v
    | H : context [code (Ascii ?a ?b ?c ?d ?e ?f ?g ?h)] |- _ =>
        let v := eval vm_compute in (code (Ascii a b c d e f g h)) in
        change (code (Ascii a b c d e f g h)) with v in H
    end.

Ltac char_tests :=
  unfold is_digit, IsSpace, in_chars, char_eqb, digit_of in *;
  eval_codes;
  repeat match goal with
    | H : _ && _ = true |- _ => apply andb_prop in H; destruct H
    | H : (_ >=? _) = true |- _ => apply Z.geb_le in H
    | H : (_ <=? _) = true |- _ => apply Z.leb_le in H
    | H : (_ <? _) = true |- _ => apply Z.ltb_lt in H
    | H : (_ =? _) = true |- _ => apply Z.eqb_eq in H
    | H : (_ =? _) = false |- _ => apply Z.eqb_neq in H
    end;
  repeat match goal with
    | |- context [?a =? ?b] => destruct (Z.eqb_spec a b); try lia
    | |- context [?a >=? ?b] => destruct (Z.geb_spec a b); try lia
    | |- context [?a <=? ?b] => destruct (Z.leb_spec a b); try lia
    | |- context [?a <? ?b] => destruct (Z.ltb_spec a b); try lia
    end;
  cbn [andb orb negb].

Lemma digit_not_NUL (c : ascii) : is_digit c = true -> char_eqb c NUL = false.
Proof. intros H. char_tests; try reflexivity. Qed.

Lemma digit_of_range (c : ascii) : is_digit c = true -> 0 <= digit_of c <= 9.
Proof. intros H. char_tests; try lia. Qed.

(** ** Single steps of the state machine *)

Ltac open_view l :=
  destruct l as [b0 a0 n0 p0 s0 e0 bc0 ac0];
  unfold view in *;
  cbn [l_state l_error l_is_negative l_before l_before_digit_count
         l_after l_after_digit_count] in *;
  repeat match goal with
    | H : (_, _) = (_, _) |- _ => inversion H; subst; clear H
    end.

Ltac run_step :=
  unfold parse_step, parse_switch, no_error, kMaxDecimalDigits,
    set_position, set_state, set_error, set_before, set_after,
    set_is_negative, set_before_digit_count, set_after_digit_count;
  cbn [l_state l_error l_is_negative l_before l_before_digit_count
         l_after l_after_digit_count l_position].

Lemma view_state (l : Locals) st e n b bc a ac :
  view l = (st, e, n, b, bc, a, ac) -> l_state l = st.
Proof. intros H. open_view l. reflexivity. Qed.

Lemma step_minus (options : Z) (l : Locals) n b bc a ac :
  view l = (kSign, None, n, b, bc, a, ac) ->
  view (parse_step options "-" l) = (kBeforeFirstDig, None, true, b, bc, a, ac).
Proof. intros H. open_view l. reflexivity. Qed.

Lemma step_plus (options : Z) (l : Locals) n b bc a ac :
  view l = (kSign, None, n, b, bc, a, ac) ->
  view (parse_step options "+" l) = (kBeforeFirstDig, None, n, b, bc, a, ac).
Proof. intros H. open_view l. reflexivity. Qed.

Lemma step_space (options : Z) (l : Locals) (c : ascii) n b bc a ac :
  view l = (kSign, None, n, b, bc, a, ac) ->
  IsSpace c = true -> has options kAllowSpaces = true ->
  view (parse_step options c l) = (kSign, None, n, b, bc, a, ac).
Proof.
  intros H Hc Ho. open_view l. run_step.
  assert (Hm : char_eqb c "-" = false).
  { unfold IsSpace in Hc. char_tests; try reflexivity;
      cbn in Hc; try discriminate. }
  assert (Hp : char_eqb c "+" = false).
  { unfold IsSpace in Hc. char_tests; try reflexivity;
      cbn in Hc; try discriminate. }
  assert (Hz : char_eqb c "0" = false).
  { unfold IsSpace in Hc. char_tests; try reflexivity;
      cbn in Hc; try discriminate. }
  assert (Hd : in_chars "1" "9" c = false).
  { unfold IsSpace in Hc. char_tests; try reflexivity;
      cbn in Hc; try discriminate. }
  assert (Hdot : char_eqb c dec_point = false).
  { unfold IsSpace in Hc. char_tests; try reflexivity;
      cbn in Hc; try discriminate. }
  rewrite Hm, Hp, Hz, Hd, Hdot, Hc, Ho. reflexivity.
Qed.

Lemma step_first_zero (options : Z) (l : Locals) st n b bc a ac :
  view l = (st, None, n, b, bc, a, ac) ->
  st = kSign \/ st = kBeforeFirstDig ->
  view (parse_step options "0" l) = (kLeadingZeros, None, n, b, 1, a, ac).
Proof. intros H [-> | ->]; open_view l; reflexivity. Qed.

Lemma nonzero_digit_tests (c : ascii) :
  in_chars "1" "9" c = true ->
  char_eqb c "-" = false /\ char_eqb c "+" = false /\ char_eqb c "0" = false
  /\ is_digit c = true.
Proof. intros H. char_tests; repeat split; reflexivity. Qed.

Lemma step_first_digit (options : Z) (l : Locals) (c : ascii)
    st n b bc a ac :
  view l = (st, None, n, b, bc, a, ac) ->
  st = kSign \/ st = kBeforeFirstDig ->
  in_chars "1" "9" c = true ->
  view (parse_step options c l) = (kBeforeDec, None, n, digit_of c, 1, a, ac).
Proof.
  intros H Hst Hc.
  destruct (nonzero_digit_tests c Hc) as (Hm & Hp & Hz & _).
  destruct Hst as [-> | ->]; open_view l; run_step;
    rewrite ?Hm, ?Hp, Hz, Hc; reflexivity.
Qed.

Lemma step_leading_zero (options : Z) (l : Locals) e n b bc a ac :
  view l = (kLeadingZeros, e, n, b, bc, a, ac) ->
  view (parse_step options "0" l) = (kLeadingZeros, e, n, b, bc, a, ac).
Proof. intros H. destruct e; open_view l; reflexivity. Qed.

Lemma step_digit_after_zeros (options : Z) (l : Locals) (c : ascii)
    e n b bc a ac :
  view l = (kLeadingZeros, e, n, b, bc, a, ac) ->
  in_chars "1" "9" c = true ->
  view (parse_step options c l) = (kBeforeDec, e, n, digit_of c, bc, a, ac).
Proof.
  intros H Hc.
  destruct (nonzero_digit_tests c Hc) as (_ & _ & Hz & _).
  destruct e; open_view l; run_step; rewrite Hz, Hc; reflexivity.
Qed.

Lemma step_integer_digit (options : Z) (l : Locals) (c : ascii)
    e n b bc a ac :
  view l = (kBeforeDec, e, n, b, bc, a, ac) ->
  is_digit c = true -> bc < 18 ->
  view (parse_step options c l)
  = (kBeforeDec, e, n, add64 (mul64 10 b) (digit_of c), bc + 1, a, ac).
Proof.
  intros H Hc Hbc. unfold is_digit in Hc.
  apply Z.ltb_lt in Hbc.
  destruct e; open_view l; run_step; rewrite Hc, Hbc; reflexivity.
Qed.

Lemma step_integer_overflow (options : Z) (l : Locals) (c : ascii)
    n b bc a ac :
  view l = (kBeforeDec, None, n, b, bc, a, ac) ->
  is_digit c = true -> 18 <= bc ->
  view (parse_step options c l)
  = (kBeforeDec, Some kOverflow, n, b, bc, a, ac).
Proof.
  intros H Hc Hbc. unfold is_digit in Hc.
  open_view l. run_step. apply Z.ltb_ge in Hbc.
  rewrite Hc, Hbc. reflexivity.
Qed.

Lemma step_dec_point (options : Z) (l : Locals) st e n b bc a ac :
  view l = (st, e, n, b, bc, a, ac) ->
  st = kLeadingZeros \/ st = kBeforeDec ->
  view (parse_step options dec_point l) = (kAfterDec, e, n, b, bc, a, ac).
Proof.
  intros H [-> | ->]; destruct e; open_view l; reflexivity.
Qed.

Lemma step_fraction_digit (options : Z) (l : Locals) (c : ascii)
    e n b bc a ac :
  view l = (kAfterDec, e, n, b, bc, a, ac) ->
  is_digit c = true -> ac < 18 ->
  view (parse_step options c l)
  = (kAfterDec, e, n, b, bc, add64 (mul64 10 a) (digit_of c), ac + 1).
Proof.
  intros H Hc Hac. unfold is_digit in Hc.
  apply Z.ltb_lt in Hac.
  destruct e; open_view l; run_step; rewrite Hc, Hac; reflexivity.
Qed.

(** ** More than 18 digits in the integer part *)

Lemma latched_step (options : Z) (c : ascii) (l : Locals) :
  overflow_latched l -> overflow_latched (parse_step options c l).
Proof.
  unfold overflow_latched. destruct l as [b a n p s e bc ac].
  cbn [l_error l_state]. intros [-> Hs].
  destruct s; try contradiction; run_step; split_ifs; cbn; auto;
    match goal with
    | E : _ && false = true |- _ => rewrite andb_false_r in E; discriminate
    end.
Qed.

Lemma latched_string_loop (options : Z) :
  forall (text seen : list ascii) (l : Locals),
    overflow_latched l ->
    overflow_latched (fst (string_loop options l seen text)).
Proof.
  induction text as [|c rest IH]; intros seen l Hl; cbn [string_loop].
  - exact Hl.
  - destruct (is_kEnd (l_state l)); [exact Hl|].
    destruct (char_eqb c NUL); [exact Hl|].
    apply IH, latched_step, Hl.
Qed.

Lemma integer_digits_overflow (options : Z) :
  forall (digits seen rest : list ascii) (l : Locals) n b bc a ac,
    view l = (kBeforeDec, None, n, b, bc, a, ac) ->
    Forall (fun c => is_digit c = true) digits ->
    bc <= 18 -> 19 <= bc + Z.of_nat (List.length digits) ->
    overflow_latched (fst (string_loop options l seen (digits ++ rest))).
Proof.
  induction digits as [|d ds IH]; intros seen rest l n b bc a ac Hv Hd Hb Hlen.
  - cbn in Hlen. lia.
  - inversion Hd as [|? ? Hd1 Hds]; subst.
    cbn [app string_loop].
    rewrite (view_state _ _ _ _ _ _ _ _ Hv). cbn [is_kEnd].
    rewrite (digit_not_NUL _ Hd1).
    destruct (Z.lt_ge_cases bc 18) as [Hlt | Hge].
    + eapply IH.
      * apply step_integer_digit; eassumption.
      * exact Hds.
      * lia.
      * cbn [List.length] in Hlen. lia.
    + apply latched_string_loop.
      pose proof (step_integer_overflow options l d n b bc a ac Hv Hd1 Hge)
        as Hv'.
      unfold overflow_latched.
      destruct (parse_step options d l) as [b1 a1 n1 p1 s1 e1 bc1 ac1].
      unfold view in Hv'. cbn in Hv'. inversion Hv'; subst. cbn. auto.
Qed.

Lemma space_not_NUL (c : ascii) : IsSpace c = true -> char_eqb c NUL = false.
Proof.
  intros H. unfold IsSpace in H. char_tests; try reflexivity;
    cbn in H; discriminate.
Qed.

Lemma reads_spaces (options : Z) :
  forall (spaces : list ascii) (l : Locals) n b bc a ac,
    view l = (kSign, None, n, b, bc, a, ac) ->
    has options kAllowSpaces = true ->
    Forall (fun c => IsSpace c = true) spaces ->
    exists l', reads options l spaces l'
               /\ view l' = (kSign, None, n, b, bc, a, ac).
Proof.
  induction spaces as [|c cs IH]; intros l n b bc a ac Hv Ho Hs.
  - exists l. split; [apply reads_nil | exact Hv].
  - inversion Hs as [|? ? Hc Hcs]; subst.
    destruct (IH (parse_step options c l) n b bc a ac) as (l' & Hr & Hv').
    + apply step_space; assumption.
    + exact Ho.
    + exact Hcs.
    + exists l'. split; [|exact Hv'].
      apply reads_cons; auto.
      * rewrite (view_state _ _ _ _ _ _ _ _ Hv). reflexivity.
      * apply space_not_NUL, Hc.
Qed.

Lemma reads_sign (options : Z) (sign : list ascii) (l : Locals) n b bc a ac :
  view l = (kSign, None, n, b, bc, a, ac) ->
  sign = [] \/ sign = ["+"%char] \/ sign = ["-"%char] ->
  exists l' st n',
    reads options l sign l'
    /\ view l' = (st, None, n', b, bc, a, ac)
    /\ (st = kSign \/ st = kBeforeFirstDig).
Proof.
  intros Hv [-> | [-> | ->]].
  - exists l, kSign, n. split; [apply reads_nil|]. auto.
  - exists (parse_step options "+" l), kBeforeFirstDig, n. split; [|split].
    + apply reads_one; [|reflexivity].
      rewrite (view_state _ _ _ _ _ _ _ _ Hv). reflexivity.
    + apply step_plus with (n := n). exact Hv.
    + auto.
  - exists (parse_step options "-" l), kBeforeFirstDig, true. split; [|split].
    + apply reads_one; [|reflexivity].
      rewrite (view_state _ _ _ _ _ _ _ _ Hv). reflexivity.
    + apply step_minus with (n := n). exact Hv.
    + auto.
Qed.

Lemma reads_more_zeros (options : Z) :
  forall (k : nat) (l : Locals) e n b bc a ac,
    view l = (kLeadingZeros, e, n, b, bc, a, ac) ->
    exists l', reads options l (repeat "0"%char k) l'
               /\ view l' = (kLeadingZeros, e, n, b, bc, a, ac).
Proof.
  induction k as [|k IH]; intros l e n b bc a ac Hv.
  - exists l. split; [apply reads_nil | exact Hv].
  - destruct (IH (parse_step options "0" l) e n b bc a ac) as (l' & Hr & Hv').
    + apply step_leading_zero. exact Hv.
    + exists l'. split; [|exact Hv'].
      cbn [repeat]. apply reads_cons; auto.
      rewrite (view_state _ _ _ _ _ _ _ _ Hv). reflexivity.
Qed.

(** After the sign, leading zeros and the first significant digit the
    state is [kBeforeDec] with one digit counted. *)
Lemma reads_to_first_digit (options : Z)
    (k : nat) (d : ascii) (l : Locals) st n b bc a ac :
  view l = (st, None, n, b, bc, a, ac) ->
  st = kSign \/ st = kBeforeFirstDig ->
  in_chars "1" "9" d = true ->
  exists l', reads options l (repeat "0"%char k ++ [d]) l'
             /\ view l' = (kBeforeDec, None, n, digit_of d, 1, a, ac).
Proof.
  intros Hv Hst Hd.
  destruct (nonzero_digit_tests d Hd) as (_ & _ & _ & Hdig).
  assert (Hend : is_kEnd (l_state l) = false).
  { rewrite (view_state _ _ _ _ _ _ _ _ Hv).
    destruct Hst as [-> | ->]; reflexivity. }
  destruct k as [|k].
  - exists (parse_step options d l). split.
    + apply reads_one; [exact Hend | apply digit_not_NUL, Hdig].
    + eapply step_first_digit; eassumption.
  - pose proof (step_first_zero options l st n b bc a ac Hv Hst) as Hz.
    destruct (reads_more_zeros options k _ _ _ _ _ _ _ Hz) as (l1 & Hr1 & Hv1).
    exists (parse_step options d l1). split.
    + cbn [repeat app]. apply reads_cons; [exact Hend | reflexivity |].
      eapply reads_app; [exact Hr1|].
      apply reads_one; [|apply digit_not_NUL, Hdig].
      rewrite (view_state _ _ _ _ _ _ _ _ Hv1). reflexivity.
    + eapply step_digit_after_zeros; eassumption.
Qed.

Lemma latched_ParseUnpacked (options : Z) (text : list ascii) :
  overflow_latched (fst (string_loop options initial_locals [] text)) ->
  error (fst (ParseUnpacked (MakeStringCharSequence text) options))
  = Some kOverflow.
Proof.
  intros Hl. rewrite ParseUnpacked_string.
  destruct (string_loop options initial_locals [] text) as [l q].
  cbn [fst] in Hl. destruct Hl as [He _].
  assert (Hn : no_error l = false) by (unfold no_error; rewrite He; reflexivity).
  rewrite Hn. cbn [andb].
  assert (Hf : final_checks options l = l).
  { unfold final_checks. rewrite Hn. cbn [andb]. rewrite Hn. reflexivity. }
  destruct (is_kEnd (l_state l)); rewrite Hf; exact He.
Qed.

Lemma initial_view :
  view initial_locals = (kSign, None, false, 0, 0, 0, 0).
Proof. reflexivity. Qed.

Lemma long_integer_part_latches (options : Z)
    (spaces sign : list ascii) (k : nat) (d : ascii)
    (digits rest : list ascii) :
  spaces = [] \/ has options kAllowSpaces = true ->
  Forall (fun c => IsSpace c = true) spaces ->
  sign = [] \/ sign = ["+"%char] \/ sign = ["-"%char] ->
  in_chars "1" "9" d = true ->
  Forall (fun c => is_digit c = true) digits ->
  (18 <= List.length digits)%nat ->
  overflow_latched
    (fst (string_loop options initial_locals []
            (spaces ++ sign ++ repeat "0"%char k ++ d :: digits ++ rest))).
Proof.
  intros Hsp Hspaces Hsign Hd Hdigits Hlen.
  assert (Hs : exists l0, reads options initial_locals spaces l0
                          /\ view l0 = (kSign, None, false, 0, 0, 0, 0)).
  { destruct Hsp as [-> | Ho].
    - exists initial_locals. split; [apply reads_nil | reflexivity].
    - apply reads_spaces; auto. }
  destruct Hs as (l0 & Hr0 & Hv0).
  destruct (reads_sign options sign l0 _ _ _ _ _ Hv0 Hsign)
    as (l1 & st & n' & Hr1 & Hv1 & Hst).
  destruct (reads_to_first_digit options k d l1 _ _ _ _ _ _ Hv1 Hst Hd)
    as (l2 & Hr2 & Hv2).
  pose proof (reads_app _ _ _ _ _ _ Hr0 (reads_app _ _ _ _ _ _ Hr1 Hr2)) as Hr.
  replace (spaces ++ sign ++ repeat "0"%char k ++ d :: digits ++ rest)
    with ((spaces ++ sign ++ repeat "0"%char k ++ [d]) ++ digits ++ rest)
    by (rewrite <- !app_assoc; reflexivity).
  rewrite (string_loop_reads _ _ _ _ Hr).
  eapply integer_digits_overflow; [exact Hv2 | exact Hdigits | lia | lia].
Qed.

(** ** Only a long integer part gives [kOverflow] *)

Lemma char_eqb_eq (c d : ascii) : char_eqb c d = true -> c = d.
Proof.
  unfold char_eqb, code. intros H. apply Z.eqb_eq, N2Z.inj in H.
  rewrite <- (ascii_N_embedding c), <- (ascii_N_embedding d), H.
  reflexivity.
Qed.

Lemma long_integer_part_app (options : Z) (text more : list ascii) :
  long_integer_part options text -> long_integer_part options (text ++ more).
Proof.
  intros (spaces & sign & k & d & digits & rest & -> & H).
  exists spaces, sign, k, d, digits, (rest ++ more). split; [|exact H].
  repeat (rewrite <- app_assoc; cbn [app]). reflexivity.
Qed.

Lemma progress_overflow (options : Z) (pre : list ascii) (l : Locals) :
  progress options pre l -> l_error l = Some kOverflow ->
  long_integer_part options pre.
Proof.
  unfold progress. intros Hp He.
  destruct (l_state l); rewrite He in Hp; try (destruct Hp; discriminate);
    auto.
Qed.

Ltac proj_cbn :=
  cbn [l_state l_error l_before_digit_count l_after_digit_count
         l_before l_after l_position l_is_negative].

(** After the integer part the error can only stay [kOverflow], never become
    it. *)
Lemma late_step (options : Z) (c : ascii) (l : Locals) :
  l_state l = kAfterDec \/ l_state l = kIgnoringAfterDec \/ l_state l = kEnd ->
  (l_state (parse_step options c l) = kAfterDec
   \/ l_state (parse_step options c l) = kIgnoringAfterDec
   \/ l_state (parse_step options c l) = kEnd)
  /\ (l_error (parse_step options c l) = Some kOverflow ->
      l_error l = Some kOverflow).
Proof.
  destruct l as [b a n p s e bc ac]. proj_cbn.
  intros [-> | [-> | ->]]; destruct e as [e|]; run_step;
    cbn [andb negb]; rewrite ?andb_false_r, ?andb_true_r.
  all: try (destruct (in_chars "0" "9" c); [try destruct (ac <? 18)|]).
  all: try destruct (negb (has options kAllowRounding)).
  all: try destruct (negb (has options kAllowBoundaryDot) && (ac =? 0)).
  all: try destruct (code c >=? code "5").
  all: proj_cbn; split; auto; intros E; try discriminate E; exact E.
Qed.

Ltac close_progress :=
  repeat match goal with |- _ /\ _ => split end;
  try assumption; try reflexivity; try apply Forall_nil;
  try (left; reflexivity).

Lemma progress_late (options : Z) (pre : list ascii) (c : ascii) (l : Locals) :
  l_state l = kAfterDec \/ l_state l = kIgnoringAfterDec \/ l_state l = kEnd ->
  progress options pre l ->
  progress options (pre ++ [c]) (parse_step options c l).
Proof.
  intros Hst Hp.
  destruct (late_step options c l Hst) as [Hst' He].
  assert (Hx : l_error (parse_step options c l) = Some kOverflow ->
               long_integer_part options (pre ++ [c])).
  { intros E. apply long_integer_part_app.
    apply (progress_overflow options pre l Hp (He E)). }
  unfold progress.
  destruct Hst' as [-> | [-> | ->]]; exact Hx.
Qed.

Lemma progress_step (options : Z) (pre : list ascii) (c : ascii) (l : Locals) :
  progress options pre l ->
  progress options (pre ++ [c]) (parse_step options c l).
Proof.
  intros Hp.
  destruct (l_state l) eqn:Hs; [ | | | | apply progress_late; auto .. ].
  all: destruct l as [b a n p s e bc ac]; cbn [l_state] in Hs; subst s;
    revert Hp; unfold progress; cbn [l_state l_error l_before_digit_count].
  - (* kSign *)
    intros [-> Hsp]. run_step.
    destruct (char_eqb c "-") eqn:Hm.
    { apply char_eqb_eq in Hm. subst c. proj_cbn.
      split; [reflexivity|]. exists pre, "-"%char. auto. }
    destruct (char_eqb c "+") eqn:Hpl.
    { apply char_eqb_eq in Hpl. subst c. proj_cbn.
      split; [reflexivity|]. exists pre, "+"%char. auto. }
    destruct (char_eqb c "0") eqn:Hz.
    { apply char_eqb_eq in Hz. subst c. proj_cbn.
      split; [reflexivity|]. split; [reflexivity|].
      exists pre, [], 0%nat. close_progress. }
    destruct (in_chars "1" "9" c) eqn:Hd.
    { proj_cbn. exists pre, [], 0%nat, c, []. close_progress. }
    destruct (char_eqb c dec_point) eqn:Hdot.
    { proj_cbn. split_ifs; proj_cbn; intros E; discriminate E. }
    destruct (IsSpace c) eqn:Hs.
    { destruct (has options kAllowSpaces) eqn:Ho; proj_cbn.
      - split; [reflexivity|]. destruct Hsp as [Hsp _].
        split; [|right; exact Ho].
        apply Forall_app. split; [exact Hsp|]. constructor; auto.
      - intros E. discriminate E. }
    proj_cbn. intros E. discriminate E.
  - (* kBeforeFirstDig *)
    intros [-> (spaces & s & -> & Hsp & Hs)]. run_step.
    assert (Hsign : sign_ok [s]).
    { unfold sign_ok. destruct Hs as [-> | ->]; auto. }
    destruct (char_eqb c "0") eqn:Hz.
    { apply char_eqb_eq in Hz. subst c. proj_cbn.
      split; [reflexivity|]. split; [reflexivity|].
      exists spaces, [s], 0%nat. rewrite <- app_assoc.
      split; [reflexivity|]. split; assumption. }
    destruct (in_chars "1" "9" c) eqn:Hd.
    { proj_cbn. exists spaces, [s], 0%nat, c, []. rewrite <- app_assoc.
      close_progress. }
    destruct (char_eqb c dec_point) eqn:Hdot.
    { proj_cbn. split_ifs; proj_cbn; intros E; discriminate E. }
    proj_cbn. intros E. discriminate E.
  - (* kLeadingZeros *)
    intros [-> [-> (spaces & sign & k & -> & Hsp & Hsign)]]. run_step.
    destruct (char_eqb c "0") eqn:Hz.
    { apply char_eqb_eq in Hz. subst c. proj_cbn.
      split; [reflexivity|]. split; [reflexivity|].
      exists spaces, sign, (S k). split; [|auto].
      rewrite <- !app_assoc. do 2 f_equal.
      change ("0"%char :: repeat "0"%char k) with (repeat "0"%char (S k)).
      rewrite <- repeat_cons. reflexivity. }
    destruct (in_chars "1" "9" c) eqn:Hd.
    { proj_cbn. exists spaces, sign, (S k), c, [].
      rewrite <- !app_assoc. close_progress. }
    destruct (char_eqb c dec_point) eqn:Hdot; proj_cbn; intros E; discriminate E.
  - (* kBeforeDec *)
    destruct e as [e|].
    + intros He. run_step.
      assert (Hx : e = kOverflow -> long_integer_part options (pre ++ [c])).
      { intros E. apply long_integer_part_app, He, E. }
      destruct (in_chars "0" "9" c); [destruct (bc <? 18)|
        destruct (char_eqb c dec_point)]; proj_cbn; try exact Hx.
      all: intros E; inversion E; subst; apply Hx; reflexivity.
    + intros (spaces & sign & k & d & digits & -> & Hsp & Hsign & Hd & Hds
              & Hbc).
      run_step.
      destruct (in_chars "0" "9" c) eqn:Hc.
      * destruct (Z.ltb_spec bc 18) as [Hlt | Hge]; proj_cbn.
        -- exists spaces, sign, k, d, (digits ++ [c]).
           rewrite <- !app_assoc. cbn [app].
           close_progress.
           ++ apply Forall_app. split; [exact Hds|]. constructor; auto.
           ++ rewrite length_app. cbn [List.length]. lia.
        -- intros _. exists spaces, sign, k, d, (digits ++ [c]), [].
           rewrite <- !app_assoc. cbn [app]. rewrite ?app_nil_r.
           close_progress.
           ++ apply Forall_app. split; [exact Hds|]. constructor; auto.
           ++ rewrite length_app. cbn [List.length]. lia.
      * destruct (char_eqb c dec_point); proj_cbn; intros E; discriminate E.
Qed.

Lemma progress_string_loop (options : Z) :
  forall (text seen : list ascii) (l : Locals),
    progress options (rev seen) l ->
    l_error (fst (string_loop options l seen text)) = Some kOverflow ->
    long_integer_part options (rev seen ++ text).
Proof.
  induction text as [|c rest IH]; intros seen l Hp He; cbn [string_loop] in He.
  - rewrite app_nil_r. exact (progress_overflow _ _ _ Hp He).
  - destruct (is_kEnd (l_state l)).
    { apply long_integer_part_app, (progress_overflow _ _ _ Hp He). }
    destruct (char_eqb c NUL).
    { apply long_integer_part_app, (progress_overflow _ _ _ Hp He). }
    replace (rev seen ++ c :: rest) with (rev (c :: seen) ++ rest)
      by (cbn [rev]; rewrite <- app_assoc; reflexivity).
    apply (IH (c :: seen) (parse_step options c l)); [|exact He].
    cbn [rev]. apply progress_step, Hp.
Qed.

Lemma string_junk_loop_error :
  forall (text seen : list ascii) (l : Locals),
    l_error (fst (string_junk_loop l seen text)) = Some kOverflow ->
    l_error l = Some kOverflow.
Proof.
  induction text as [|c rest IH]; intros seen l He; cbn [string_junk_loop] in He.
  - exact He.
  - destruct (char_eqb c NUL); [exact He|].
    destruct (negb (IsSpace c)); [discriminate He|].
    apply IH in He. exact He.
Qed.

Lemma final_checks_error (options : Z) (l : Locals) :
  l_error (final_checks options l) = Some kOverflow ->
  l_error l = Some kOverflow.
Proof.
  unfold final_checks, no_error. destruct l as [b a n p s e bc ac].
  proj_cbn. destruct e as [e|]; cbn [andb]; [intros E; exact E|].
  destruct ((bc =? 0) && (ac =? 0)); proj_cbn; cbn [andb];
    [intros E; discriminate E|].
  destruct (match s with kAfterDec => true | _ => false end
            && negb (has options kAllowBoundaryDot) && (ac =? 0));
    proj_cbn; intros E; discriminate E.
Qed.

Lemma ParseUnpacked_Overflow_iff (options : Z) (text : list ascii) :
  error (fst (ParseUnpacked (MakeStringCharSequence text) options))
  = Some kOverflow
  <-> long_integer_part options text.
Proof.
  split.
  - rewrite ParseUnpacked_string.
    pose proof (progress_string_loop options text [] initial_locals) as Hl.
    destruct (string_loop options initial_locals [] text) as [l q].
    cbn [fst rev app] in Hl.
    intros He. unfold make_result in He. cbn [error] in He.
    apply final_checks_error in He.
    apply Hl.
    { unfold progress, spaces_ok. cbn. auto. }
    destruct (is_kEnd (l_state l)); [|exact He].
    destruct (no_error l) eqn:Hn; cbn [andb] in He; [|exact He].
    destruct (negb (has options kAllowTrailingJunk)); [|exact He].
    apply string_junk_loop_error in He.
    unfold no_error in Hn. destruct (l_error l) eqn:E; [discriminate Hn|].
    destruct (negb (has options kAllowSpaces)); cbn in He;
      try rewrite E in He; discriminate He.
  - intros (spaces & sign & k & d & digits & rest & -> & [Hsp Hal] & Hsign
            & Hd & Hds & Hlen).
    apply latched_ParseUnpacked, long_integer_part_latches; assumption.
Qed.

(** C6, as the code has it.  (1) [ParseUnpacked] reports [kOverflow]
    exactly for a text made of spaces (when they are allowed), an optional
    sign, leading zeros and then more than 18 digits, whatever follows.
    (2) [Parse] reports [kOverflow] exactly for such a text and, when
    unpacking succeeds, for [before >= max_i64 / 10^Prec]. *)
Theorem Parse_Overflow_cases :
  (forall (options : Z) (text : list ascii),
      error (fst (ParseUnpacked (MakeStringCharSequence text) options))
      = Some kOverflow
      <-> long_integer_part options text)
  /\ (forall (Prec : Z) (policy : RoundPolicy) (options : Z)
             (text : list ascii),
         0 <= Prec <= 18 ->
         let parsed :=
           fst (ParseUnpacked (MakeStringCharSequence text) options) in
         exists r,
           fst (Parse Prec policy (MakeStringCharSequence text) options)
           = Some r
           /\ (parse_error r = Some kOverflow
               <-> long_integer_part options text
                   \/ (error parsed = None
                       /\ before parsed >= kMaxInt64 / 10 ^ Prec))).
Proof.
  split; [exact ParseUnpacked_Overflow_iff|].
  intros Prec policy options text HP parsed.
  destruct (Parse_total Prec policy (MakeStringCharSequence text) options HP)
    as [r Hr].
  exists r. split; [exact Hr|].
  rewrite Parse_fst in Hr. fold parsed in Hr.
  pose proof (ParseUnpacked_Overflow_iff options text) as Hiff.
  fold parsed in Hiff.
  unfold Parse_pack in Hr.
  rewrite kPow10_spec, div64_kMaxInt64 in Hr by exact HP.
  destruct (error parsed) as [e|] eqn:Herr.
  - inversion Hr; subst r. cbn [parse_error]. split.
    + intros E. left. apply Hiff. exact E.
    + intros [Hs | [Hc _]]; [|discriminate Hc]. apply Hiff. exact Hs.
  - assert (Hns : ~ long_integer_part options text).
    { intros Hs. apply Hiff in Hs. discriminate Hs. }
    destruct (Z.geb_spec (before parsed) (kMaxInt64 / 10 ^ Prec)) as [Hge | Hlt].
    + inversion Hr; subst r. cbn [parse_error]. split; [|reflexivity].
      intros _. right. split; [reflexivity | lia].
    + assert (Hne : parse_error r <> Some kOverflow).
      { destruct (negb (has options kAllowRounding)
                  && (decimal_digits parsed >? Prec)).
        - inversion Hr; subst r. cbn. discriminate.
        - destruct (is_negative parsed);
            destruct (FromUnpacked _ _ _ _ _); inversion Hr; subst r;
            cbn; discriminate. }
      split; [intros E; contradiction|].
      intros [Hs | [_ Hge]]; [contradiction | lia].
Qed.

Lemma Parse_Overflow_cases_witness :
  0 <= 2 <= 18
  /\ exists r,
      fst (Parse 2 Def
             (MakeStringCharSequence (chars "-001234567890123456789.5"))
             kNone) = Some r
      /\ (parse_error r = Some kOverflow
          <-> long_integer_part kNone (chars "-001234567890123456789.5")
              \/ (error
                    (fst (ParseUnpacked
                            (MakeStringCharSequence
                               (chars "-001234567890123456789.5")) kNone))
                  = None
                  /\ before
                       (fst (ParseUnpacked
                               (MakeStringCharSequence
                                  (chars "-001234567890123456789.5")) kNone))
                     >= kMaxInt64 / 10 ^ 2)).
Proof.
  split; [lia|].
  apply (proj2 Parse_Overflow_cases 2 Def kNone
           (chars "-001234567890123456789.5")).
  lia.
Defined.

(** C6 as stated, at an integer part of 19 digits of which 18 are leading
    zeros: the strict parse with [Prec = 0] succeeds with the value 1.  And
    a 19-digit integer part after a space, in strict mode, is [kSpace]. *)
Lemma Parse_Overflow_leading_zeros_counterexample :
  List.length (chars "0000000000000000001") = 19%nat
  /\ Forall (fun c => is_digit c = true) (chars "0000000000000000001")
  /\ Decimal_of_string 0 Def (chars "0000000000000000001")
     = Value (FromUnbiased 1)
  /\ Decimal_of_string 0 Def (chars " 1234567890123456789")
     = ParseError 0 kSpace.
Proof.
  split; [reflexivity|]. split; [repeat constructor|].
  split; vm_compute; reflexivity.
Qed.

(** ** Decimal digits *)

Lemma digit_char_spec (d : Z) :
  0 <= d <= 9 ->
  is_digit (digit_char d) = true /\ digit_of (digit_char d) = d
  /\ (1 <= d -> in_chars "1" "9" (digit_char d) = true).
Proof.
  intros Hd.
  assert (H : d = 0 \/ d = 1 \/ d = 2 \/ d = 3 \/ d = 4 \/ d = 5 \/ d = 6
              \/ d = 7 \/ d = 8 \/ d = 9) by lia.
  repeat (destruct H as [-> | H]); try subst d;
    (split; [reflexivity | split; [reflexivity|]]);
    intros H1; try lia; reflexivity.
Qed.

Lemma digit_char_zero : digit_char 0 = "0"%char.
Proof. reflexivity. Qed.

Lemma digits_of_length_le (fuel : nat) :
  forall (n k : Z),
    0 <= n < 10 ^ k -> 1 <= k ->
    Z.of_nat (List.length (digits_of fuel n)) <= k.
Proof.
  induction fuel as [|fuel IH]; intros n k Hn Hk.
  - cbn. lia.
  - cbn [digits_of]. destruct (Z.ltb_spec n 10) as [Hlt | Hge].
    + cbn. lia.
    + rewrite length_app. cbn [List.length].
      assert (Hk2 : 2 <= k).
      { destruct (Z.eq_dec k 1) as [-> | ?]; [|lia]. cbn in Hn. lia. }
      assert (Hq : 0 <= n / 10 < 10 ^ (k - 1)).
      { split; [apply Z.div_pos; lia|].
        apply Z.div_lt_upper_bound; [lia|].
        replace (10 * 10 ^ (k - 1)) with (10 ^ k); [lia|].
        replace k with (Z.succ (k - 1)) at 1 by lia.
        rewrite Z.pow_succ_r by lia. reflexivity. }
      pose proof (IH (n / 10) (k - 1) Hq ltac:(lia)). lia.
Qed.

(** The next digit: [10 * v + d] without wrap-around below [10^18]. *)
Lemma accumulate_digit (v d k : Z) :
  0 <= v < 10 ^ k -> 0 <= d <= 9 -> 0 <= k < 18 ->
  add64 (mul64 10 v) d = 10 * v + d /\ 0 <= 10 * v + d < 10 ^ (k + 1).
Proof.
  intros Hv Hd Hk.
  assert (Hp : 10 ^ (k + 1) = 10 * 10 ^ k).
  { rewrite Z.pow_add_r by lia. change (10 ^ 1) with 10. lia. }
  assert (Hle : 10 ^ (k + 1) <= 10 ^ 18) by (apply pow10_le; lia).
  assert (Hb : 0 <= 10 * v + d < 10 ^ (k + 1)) by lia.
  split; [|exact Hb].
  unfold add64, mul64.
  rewrite (wrap64_id (10 * v)) by (apply small_fits; lia).
  apply wrap64_id, small_fits. lia.
Qed.

(** ** Reading what the formatter writes *)


Lemma div10_bound (m k : Z) :
  0 <= m < 10 ^ (k + 1) -> 0 <= k -> 0 <= m / 10 < 10 ^ k.
Proof.
  intros Hm Hk. rewrite pow10_succ in Hm by exact Hk.
  split; [apply Z.div_pos; lia|].
  apply Z.div_lt_upper_bound; lia.
Qed.

Lemma reads_integer_digits (options : Z) (fuel : nat) :
  forall (m : Z) (l : Locals) st n b bc a ac,
    0 < m < 10 ^ 18 -> m < 10 ^ Z.of_nat fuel ->
    view l = (st, None, n, b, bc, a, ac) ->
    st = kSign \/ st = kBeforeFirstDig ->
    exists l',
      reads options l (digits_of fuel m) l'
      /\ view l' = (kBeforeDec, None, n, m,
                    Z.of_nat (List.length (digits_of fuel m)), a, ac).
Proof.
  induction fuel as [|fuel IH]; intros m l st n b bc a ac Hm Hf Hv Hst.
  - cbn in Hf. lia.
  - assert (Hend : is_kEnd (l_state l) = false).
    { rewrite (view_state _ _ _ _ _ _ _ _ Hv).
      destruct Hst as [-> | ->]; reflexivity. }
    cbn [digits_of]. destruct (Z.ltb_spec m 10) as [Hlt | Hge].
    + destruct (digit_char_spec m ltac:(lia)) as (Hdig & Hval & Hnz).
      exists (parse_step options (digit_char m) l). split.
      * apply reads_one; [exact Hend | apply digit_not_NUL, Hdig].
      * rewrite (step_first_digit options l _ st n b bc a ac Hv Hst
                   (Hnz ltac:(lia))).
        rewrite Hval. reflexivity.
    + assert (Hq : 0 <= m / 10 < 10 ^ 17).
      { apply div10_bound; [change (17 + 1) with 18|]; lia. }
      assert (Hq0 : 0 < m / 10).
      { apply Z.div_str_pos. lia. }
      assert (Hqf : m / 10 < 10 ^ Z.of_nat fuel).
      { apply div10_bound; [|lia].
        replace (Z.of_nat fuel + 1) with (Z.of_nat (S fuel)) by lia. lia. }
      destruct (IH (m / 10) l st n b bc a ac) as (l1 & Hr1 & Hv1);
        [change (10 ^ 18) with (10 * 10 ^ 17); lia | exact Hqf
        | exact Hv | exact Hst |].
      pose proof (digits_of_length_le fuel (m / 10) 17 Hq ltac:(lia)) as Hlen.
      pose proof (Z.mod_pos_bound m 10 ltac:(lia)) as Hmod.
      destruct (digit_char_spec (m mod 10) ltac:(lia)) as (Hdig & Hval & _).
      exists (parse_step options (digit_char (m mod 10)) l1). split.
      * eapply reads_app; [exact Hr1|].
        apply reads_one; [|apply digit_not_NUL, Hdig].
        rewrite (view_state _ _ _ _ _ _ _ _ Hv1). reflexivity.
      * rewrite (step_integer_digit options l1 _ _ _ _ _ _ _ Hv1 Hdig
                   ltac:(lia)).
        rewrite Hval.
        destruct (accumulate_digit (m / 10) (m mod 10) 17 Hq ltac:(lia)
                    ltac:(lia)) as [-> _].
        rewrite <- Z.div_mod by lia.
        rewrite length_app. cbn [List.length].
        replace (Z.of_nat (List.length (digits_of fuel (m / 10)) + 1))
          with (Z.of_nat (List.length (digits_of fuel (m / 10))) + 1) by lia.
        reflexivity.
Qed.

Lemma reads_fraction_digits (options : Z) (fuel : nat) :
  forall (m : Z) (l : Locals) n b bc j,
    0 <= m < 10 ^ 18 -> m < 10 ^ Z.of_nat fuel ->
    view l = (kAfterDec, None, n, b, bc, 0, j) ->
    0 <= j ->
    j + Z.of_nat (List.length (digits_of fuel m)) <= 18 ->
    exists l',
      reads options l (digits_of fuel m) l'
      /\ view l' = (kAfterDec, None, n, b, bc, m,
                    j + Z.of_nat (List.length (digits_of fuel m))).
Proof.
  induction fuel as [|fuel IH]; intros m l n b bc j Hm Hf Hv Hj Hlen.
  - cbn in Hf. assert (m = 0) by lia. subst m.
    exists l. split; [apply reads_nil|].
    cbn. rewrite Z.add_0_r. exact Hv.
  - assert (Hend : is_kEnd (l_state l) = false).
    { rewrite (view_state _ _ _ _ _ _ _ _ Hv). reflexivity. }
    revert Hlen. cbn [digits_of].
    destruct (Z.ltb_spec m 10) as [Hlt | Hge]; intros Hlen.
    + cbn [List.length] in *.
      destruct (digit_char_spec m ltac:(lia)) as (Hdig & Hval & _).
      exists (parse_step options (digit_char m) l). split.
      * apply reads_one; [exact Hend | apply digit_not_NUL, Hdig].
      * rewrite (step_fraction_digit options l _ _ _ _ _ _ _ Hv Hdig
                   ltac:(lia)).
        rewrite Hval.
        destruct (accumulate_digit 0 m 0 ltac:(cbn; lia) ltac:(lia)
                    ltac:(lia)) as [-> _].
        replace (10 * 0 + m) with m by lia.
        reflexivity.
    + rewrite length_app in Hlen. cbn [List.length] in Hlen.
      assert (Hq : 0 <= m / 10 < 10 ^ 17).
      { apply div10_bound; [change (17 + 1) with 18|]; lia. }
      assert (Hqf : m / 10 < 10 ^ Z.of_nat fuel).
      { apply div10_bound; [|lia].
        replace (Z.of_nat fuel + 1) with (Z.of_nat (S fuel)) by lia. lia. }
      destruct (IH (m / 10) l n b bc j) as (l1 & Hr1 & Hv1);
        [change (10 ^ 18) with (10 * 10 ^ 17); lia | exact Hqf
        | exact Hv | exact Hj | lia |].
      pose proof (Z.mod_pos_bound m 10 ltac:(lia)) as Hmod.
      destruct (digit_char_spec (m mod 10) ltac:(lia)) as (Hdig & Hval & _).
      exists (parse_step options (digit_char (m mod 10)) l1). split.
      * eapply reads_app; [exact Hr1|].
        apply reads_one; [|apply digit_not_NUL, Hdig].
        rewrite (view_state _ _ _ _ _ _ _ _ Hv1). reflexivity.
      * rewrite (step_fraction_digit options l1 _ _ _ _ _ _ _ Hv1 Hdig
                   ltac:(lia)).
        rewrite Hval.
        destruct (accumulate_digit (m / 10) (m mod 10) 17 Hq ltac:(lia)
                    ltac:(lia)) as [-> _].
        rewrite <- Z.div_mod by lia.
        rewrite length_app. cbn [List.length].
        replace (j + Z.of_nat (List.length (digits_of fuel (m / 10)) + 1))
          with (j + Z.of_nat (List.length (digits_of fuel (m / 10))) + 1)
          by lia.
        reflexivity.
Qed.

Lemma reads_fraction_zeros (options : Z) :
  forall (k : nat) (l : Locals) n b bc j,
    view l = (kAfterDec, None, n, b, bc, 0, j) ->
    0 <= j -> j + Z.of_nat k <= 18 ->
    exists l',
      reads options l (repeat "0"%char k) l'
      /\ view l' = (kAfterDec, None, n, b, bc, 0, j + Z.of_nat k).
Proof.
  induction k as [|k IH]; intros l n b bc j Hv Hj Hk.
  - exists l. split; [apply reads_nil|]. cbn. rewrite Z.add_0_r. exact Hv.
  - pose proof (step_fraction_digit options l "0" _ _ _ _ _ _ Hv eq_refl
                  ltac:(lia)) as Hs.
    change (add64 (mul64 10 0) (digit_of "0")) with 0 in Hs.
    destruct (IH _ _ _ _ _ Hs ltac:(lia) ltac:(lia)) as (l' & Hr & Hv').
    exists l'. split.
    + cbn [repeat]. apply reads_cons; [|reflexivity|exact Hr].
      rewrite (view_state _ _ _ _ _ _ _ _ Hv). reflexivity.
    + replace (j + Z.of_nat (S k)) with (j + 1 + Z.of_nat k) by lia.
      exact Hv'.
Qed.

Lemma reads_fmt_uint (options : Z) (m : Z) (l : Locals) st n a ac :
  0 <= m < 10 ^ 18 ->
  view l = (st, None, n, 0, 0, a, ac) ->
  st = kSign \/ st = kBeforeFirstDig ->
  exists l' st' bc',
    reads options l (fmt_uint m) l'
    /\ view l' = (st', None, n, m, bc', a, ac)
    /\ (st' = kLeadingZeros \/ st' = kBeforeDec)
    /\ 1 <= bc'.
Proof.
  intros Hm Hv Hst. unfold fmt_uint.
  destruct (Z.eq_dec m 0) as [-> | Hnz].
  - exists (parse_step options "0" l), kLeadingZeros, 1.
    split; [|split; [|split]].
    + apply reads_one; [|reflexivity].
      rewrite (view_state _ _ _ _ _ _ _ _ Hv).
      destruct Hst as [-> | ->]; reflexivity.
    + eapply step_first_zero; eassumption.
    + left. reflexivity.
    + lia.
  - destruct (reads_integer_digits options 20 m l st n 0 0 a ac)
      as (l' & Hr & Hv'); [lia | | exact Hv | exact Hst |].
    + assert (10 ^ 18 <= 10 ^ Z.of_nat 20) by (apply pow10_le; lia). lia.
    + exists l', kBeforeDec, (Z.of_nat (List.length (digits_of 20 m))).
      split; [exact Hr|]. split; [exact Hv'|]. split; [right; reflexivity|].
      cbn [digits_of]. destruct (m <? 10); [cbn; lia|].
      rewrite length_app. cbn [List.length]. lia.
Qed.

Lemma reads_zero_padded (options : Z) (m w : Z) (l : Locals) n b bc :
  0 <= m < 10 ^ w -> 1 <= w <= 18 ->
  view l = (kAfterDec, None, n, b, bc, 0, 0) ->
  exists l',
    reads options l (fmt_int_zero_padded m w) l'
    /\ view l' = (kAfterDec, None, n, b, bc, m, w).
Proof.
  intros Hm Hw Hv. unfold fmt_int_zero_padded, fmt_uint.
  destruct (Z.ltb_spec m 0) as [Hneg | _]; [lia|].
  rewrite Z.abs_eq by lia. cbn [app List.length Nat.add].
  pose proof (digits_of_length_le 20 m w Hm ltac:(lia)) as Hlen.
  assert (Hm18 : m < 10 ^ 18).
  { assert (10 ^ w <= 10 ^ 18) by (apply pow10_le; lia). lia. }
  set (len := Z.of_nat (List.length (digits_of 20 m))) in *.
  destruct (reads_fraction_zeros options (Z.to_nat (w - len)) l n b bc 0 Hv)
    as (l1 & Hr1 & Hv1); [lia | lia |].
  rewrite Z.add_0_l in Hv1.
  destruct (reads_fraction_digits options 20 m l1 n b bc
              (Z.of_nat (Z.to_nat (w - len))))
    as (l2 & Hr2 & Hv2); [lia | | exact Hv1 | lia | fold len; lia |].
  - assert (10 ^ 18 <= 10 ^ Z.of_nat 20) by (apply pow10_le; lia). lia.
  - exists l2. split; [eapply reads_app; eassumption|].
    rewrite Hv2. fold len.
    replace (Z.of_nat (Z.to_nat (w - len)) + len) with w by lia.
    reflexivity.
Qed.

(** ** Trimming trailing zeros *)

Lemma trim_step_spec (enabled : bool) (k n x a : Z) :
  0 <= k <= 18 -> in_int64 x -> 0 <= n -> x * 10 ^ n = a ->
  let '(n', x') := trim_step enabled k (n, x) in
  in_int64 x' /\ 0 <= n' /\ x' * 10 ^ n' = a.
Proof.
  intros Hk Hx Hn Ha. unfold trim_step.
  rewrite kPow10_spec by exact Hk.
  destruct enabled; cbn [andb]; [|auto].
  assert (Hp : 0 < 10 ^ k) by (apply pow10_pos; lia).
  unfold rem64, div64.
  destruct (quot_rem_in_int64 x (10 ^ k) Hp Hx) as (Hq & Hr & _).
  rewrite (wrap64_id _ Hr), (wrap64_id _ Hq).
  destruct (Z.eqb_spec (Z.rem x (10 ^ k)) 0) as [Hz | Hnz]; [|auto].
  split; [exact Hq|]. split; [lia|].
  rewrite Z.pow_add_r by lia.
  pose proof (Z.quot_rem' x (10 ^ k)). nia.
Qed.

Lemma TrimTrailingZeros_spec (Prec a : Z) :
  0 <= Prec <= 18 -> in_int64 a ->
  let '(n, a') := TrimTrailingZeros Prec a in
  in_int64 a' /\ 0 <= n /\ a' * 10 ^ n = a.
Proof.
  intros HP Ha. unfold TrimTrailingZeros.
  destruct (Z.eqb_spec Prec 0); [cbn; split; [exact Ha|lia]|].
  destruct (Z.eqb_spec a 0) as [-> | Hnz]; [split; [exact Ha|lia]|].
  pose proof (trim_step_spec (Prec >=? 17) 16 0 a a ltac:(lia) Ha ltac:(lia)
                ltac:(cbn; lia)) as H1.
  destruct (trim_step (Prec >=? 17) 16 (0, a)) as [n1 a1].
  destruct H1 as (Hr1 & Hn1 & He1).
  pose proof (trim_step_spec (Prec >=? 9) 8 n1 a1 a ltac:(lia) Hr1 Hn1 He1)
    as H2.
  destruct (trim_step (Prec >=? 9) 8 (n1, a1)) as [n2 a2].
  destruct H2 as (Hr2 & Hn2 & He2).
  pose proof (trim_step_spec (Prec >=? 5) 4 n2 a2 a ltac:(lia) Hr2 Hn2 He2)
    as H3.
  destruct (trim_step (Prec >=? 5) 4 (n2, a2)) as [n3 a3].
  destruct H3 as (Hr3 & Hn3 & He3).
  pose proof (trim_step_spec (Prec >=? 3) 2 n3 a3 a ltac:(lia) Hr3 Hn3 He3)
    as H4.
  destruct (trim_step (Prec >=? 3) 2 (n3, a3)) as [n4 a4].
  destruct H4 as (Hr4 & Hn4 & He4).
  exact (trim_step_spec true 1 n4 a4 a ltac:(lia) Hr4 Hn4 He4).
Qed.

(** ** Parsing a formatted decimal *)

Lemma ParseUnpacked_reads (options : Z) (text : list ascii) (l : Locals) :
  reads options initial_locals text l ->
  is_kEnd (l_state l) = false ->
  fst (ParseUnpacked (MakeStringCharSequence text) options)
  = make_result (final_checks options l).
Proof.
  intros Hr Hend. rewrite ParseUnpacked_string.
  rewrite <- (app_nil_r text) at 1.
  rewrite (string_loop_reads _ _ _ _ Hr). cbn [string_loop].
  rewrite Hend. reflexivity.
Qed.

Lemma make_result_of_view (options : Z) (l : Locals) st n b bc a ac :
  view l = (st, None, n, b, bc, a, ac) ->
  1 <= bc ->
  st = kLeadingZeros \/ st = kBeforeDec \/ (st = kAfterDec /\ 1 <= ac) ->
  exists position,
    make_result (final_checks options l)
    = {| before := b; after := a; decimal_digits := ac; is_negative := n;
         error := None; error_position := position |}.
Proof.
  intros Hv Hbc Hst.
  exists (l_position l mod 2 ^ 32).
  open_view l. unfold final_checks, make_result, no_error.
  cbn [l_error l_before_digit_count l_after_digit_count l_state andb].
  destruct (Z.eqb_spec bc 0) as [? | _]; [lia|].
  destruct Hst as [-> | [-> | [-> Hac]]];
    cbn [l_error l_before_digit_count l_after_digit_count l_state andb
           l_before l_after l_is_negative l_position];
    try reflexivity.
  destruct (Z.eqb_spec ac 0) as [? | _]; [lia|].
  rewrite andb_false_r.
  cbn [l_error l_before_digit_count l_after_digit_count l_state
         l_before l_after l_is_negative l_position].
  reflexivity.
Qed.


(** The mantissa that [Parse_pack] builds from an unpacked result without
    error, in strict mode. *)
Lemma Parse_pack_strict (Prec : Z) (policy : RoundPolicy)
    (n : bool) (B A w position : Z) :
  0 <= Prec <= 18 ->
  0 <= B < kMaxInt64 / 10 ^ Prec ->
  (w = 0 /\ A = 0) \/ (1 <= w <= Prec /\ 0 <= A < 10 ^ w) ->
  Parse_pack Prec policy kNone
    {| before := B; after := A; decimal_digits := w; is_negative := n;
       error := None; error_position := position |}
  = Some {| decimal :=
              FromUnbiased ((if n then -1 else 1)
                            * (B * 10 ^ Prec + A * 10 ^ (Prec - w)));
            parse_error := None; parse_error_position := 0 |}.
Proof.
  intros HP HB HA.
  pose proof (pow10_pos Prec ltac:(lia)) as HF.
  assert (Hw : 0 <= w <= Prec) by lia.
  pose proof (pow10_pos (Prec - w) ltac:(lia)) as HG.
  assert (HFG : 10 ^ Prec = 10 ^ w * 10 ^ (Prec - w)).
  { rewrite <- Z.pow_add_r by lia. f_equal. lia. }
  assert (HAF : 0 <= A * 10 ^ (Prec - w) < 10 ^ Prec).
  { destruct HA as [[-> ->] | [_ HA]]; [lia|]. rewrite HFG. nia. }
  assert (HBF : 0 <= B * 10 ^ Prec /\ B * 10 ^ Prec + 10 ^ Prec <= kMaxInt64).
  { pose proof (Z.mul_div_le kMaxInt64 (10 ^ Prec) HF). nia. }
  assert (HA0 : 0 <= A).
  { destruct HA as [[_ ->] | [_ HA]]; lia. }
  unfold Parse_pack.
  cbn [error before after decimal_digits is_negative error_position].
  rewrite kPow10_spec, div64_kMaxInt64 by exact HP.
  destruct (Z.geb_spec B (kMaxInt64 / 10 ^ Prec)) as [? | _]; [lia|].
  change (has kNone kAllowRounding) with false. cbn [negb andb].
  destruct (Z.gtb_spec w Prec) as [? | _]; [lia|].
  assert (HFU : forall sb sa : Z,
             in_int64 (sa * 10 ^ (Prec - w)) ->
             in_int64 (sb * 10 ^ Prec) ->
             in_int64 (sb * 10 ^ Prec + sa * 10 ^ (Prec - w)) ->
             (Prec = 0 -> sa = 0) ->
             FromUnpacked Prec policy sb sa w
             = Some (FromUnbiased (sb * 10 ^ Prec + sa * 10 ^ (Prec - w)))).
  { intros sb sa H1 H2 H3 H4. unfold FromUnpacked.
    destruct (Z.leb_spec w Prec) as [_ | ?]; [|lia].
    rewrite Pow10_spec by lia.
    unfold FromUnpacked2, kDecimalFactor. rewrite kPow10_spec by exact HP.
    unfold add64, mul64.
    destruct (Z.gtb_spec Prec 0) as [Hpos | H0].
    - rewrite (wrap64_id _ H1), (wrap64_id _ H2), (wrap64_id _ H3).
      reflexivity.
    - rewrite (wrap64_id _ H2). rewrite H4 by lia.
      rewrite Z.mul_0_l, Z.add_0_r. reflexivity. }
  assert (HP0 : Prec = 0 -> A = 0).
  { intros ->. destruct HA as [[_ ->] | [? _]]; lia. }
  unfold kMaxInt64 in HBF.
  destruct n.
  - unfold neg64.
    rewrite (wrap64_id (- B)), (wrap64_id (- A))
      by (unfold in_int64, kMinInt64, kMaxInt64; nia).
    rewrite HFU;
      [ | unfold in_int64, kMinInt64, kMaxInt64; nia ..
        | intros H0; rewrite (HP0 H0); reflexivity ].
    do 3 f_equal. lia.
  - rewrite HFU;
      [ | unfold in_int64, kMinInt64, kMaxInt64; nia .. | exact HP0 ].
    do 3 f_equal. lia.
Qed.

Lemma ParseUnpacked_formatted (n : bool) (B A w : Z) :
  0 <= B < 10 ^ 18 ->
  (w = 0 /\ A = 0) \/ (1 <= w <= 18 /\ 0 <= A < 10 ^ w) ->
  exists position,
    fst (ParseUnpacked
           (MakeStringCharSequence
              ((if n then ["-"%char] else []) ++ fmt_uint B
                 ++ (if w >? 0 then "."%char :: fmt_int_zero_padded A w
                     else [])))
           kNone)
    = {| before := B; after := A; decimal_digits := w; is_negative := n;
         error := None; error_position := position |}.
Proof.
  intros HB HA.
  assert (Hsign : exists l0 st0,
             reads kNone initial_locals (if n then ["-"%char] else []) l0
             /\ view l0 = (st0, None, n, 0, 0, 0, 0)
             /\ (st0 = kSign \/ st0 = kBeforeFirstDig)).
  { destruct n.
    - exists (parse_step kNone "-" initial_locals), kBeforeFirstDig.
      split; [apply reads_one; reflexivity|]. split; [reflexivity|]. auto.
    - exists initial_locals, kSign.
      split; [apply reads_nil|]. split; [reflexivity|]. auto. }
  destruct Hsign as (l0 & st0 & Hr0 & Hv0 & Hst0).
  destruct (reads_fmt_uint kNone B l0 st0 n 0 0 HB Hv0 Hst0)
    as (l1 & st1 & bc1 & Hr1 & Hv1 & Hst1 & Hbc1).
  assert (Hfrac : exists l2 st2,
             reads kNone l1
               (if w >? 0 then "."%char :: fmt_int_zero_padded A w else []) l2
             /\ view l2 = (st2, None, n, B, bc1, A, w)
             /\ (st2 = kLeadingZeros \/ st2 = kBeforeDec
                 \/ (st2 = kAfterDec /\ 1 <= w))).
  { destruct HA as [[-> ->] | [Hw HA]].
    - exists l1, st1. cbn. split; [apply reads_nil|]. split; [exact Hv1|].
      destruct Hst1; auto.
    - destruct (Z.gtb_spec w 0) as [_ | ?]; [|lia].
      pose proof (step_dec_point kNone l1 st1 None n B bc1 0 0 Hv1 Hst1)
        as Hv2.
      destruct (reads_zero_padded kNone A w _ n B bc1 HA ltac:(lia) Hv2)
        as (l3 & Hr3 & Hv3).
      exists l3, kAfterDec. split; [|split; [exact Hv3|]].
      + apply reads_cons; [| reflexivity | exact Hr3].
        rewrite (view_state _ _ _ _ _ _ _ _ Hv1).
        destruct Hst1 as [-> | ->]; reflexivity.
      + right. right. split; [reflexivity | lia]. }
  destruct Hfrac as (l2 & st2 & Hr2 & Hv2 & Hst2).
  pose proof (reads_app _ _ _ _ _ _ Hr0 (reads_app _ _ _ _ _ _ Hr1 Hr2)) as Hr.
  assert (Hend : is_kEnd (l_state l2) = false).
  { rewrite (view_state _ _ _ _ _ _ _ _ Hv2).
    destruct Hst2 as [-> | [-> | [-> _]]]; reflexivity. }
  rewrite (ParseUnpacked_reads _ _ _ Hr Hend).
  exact (make_result_of_view kNone l2 _ _ _ _ _ _ Hv2 Hbc1 Hst2).
Qed.

Lemma Decimal_of_string_formatted (Prec : Z) (policy : RoundPolicy)
    (n : bool) (B A w : Z) :
  0 <= Prec <= 18 ->
  0 <= B < 10 ^ 18 ->
  B < kMaxInt64 / 10 ^ Prec ->
  (w = 0 /\ A = 0) \/ (1 <= w <= Prec /\ 0 <= A < 10 ^ w) ->
  Decimal_of_string Prec policy
    ((if n then ["-"%char] else []) ++ fmt_uint B
       ++ (if w >? 0 then "."%char :: fmt_int_zero_padded A w else []))
  = Value (FromUnbiased ((if n then -1 else 1)
                         * (B * 10 ^ Prec + A * 10 ^ (Prec - w)))).
Proof.
  intros HP HB HBmax HA.
  destruct (ParseUnpacked_formatted n B A w HB ltac:(lia)) as (position & Hp).
  unfold Decimal_of_string.
  rewrite Parse_fst, Hp, Parse_pack_strict by (try assumption; lia).
  reflexivity.
Qed.

(** The guard of [Parse] on the integer part. *)
Lemma Decimal_of_string_guard (Prec : Z) (policy : RoundPolicy)
    (n : bool) (B A w : Z) :
  0 <= Prec <= 18 ->
  0 <= B < 10 ^ 18 ->
  kMaxInt64 / 10 ^ Prec <= B ->
  (w = 0 /\ A = 0) \/ (1 <= w <= Prec /\ 0 <= A < 10 ^ w) ->
  Decimal_of_string Prec policy
    ((if n then ["-"%char] else []) ++ fmt_uint B
       ++ (if w >? 0 then "."%char :: fmt_int_zero_padded A w else []))
  = ParseError 0 kOverflow.
Proof.
  intros HP HB HBmax HA.
  destruct (ParseUnpacked_formatted n B A w HB ltac:(lia)) as (position & Hp).
  unfold Decimal_of_string.
  rewrite Parse_fst, Hp. unfold Parse_pack.
  cbn [error before after decimal_digits is_negative error_position].
  rewrite kPow10_spec, div64_kMaxInt64 by exact HP.
  destruct (Z.geb_spec B (kMaxInt64 / 10 ^ Prec)) as [_ | ?]; [|lia].
  reflexivity.
Qed.

(** A positive number is written with a first digit other than 0 and as
    many digits as its size asks for. *)
Lemma digits_of_head (fuel : nat) :
  forall n : Z,
    0 < n < 10 ^ Z.of_nat fuel ->
    exists d ds,
      digits_of fuel n = d :: ds
      /\ in_chars "1" "9" d = true
      /\ Forall (fun c => is_digit c = true) ds
      /\ n < 10 ^ (Z.of_nat (List.length ds) + 1).
Proof.
  induction fuel as [|fuel IH]; intros n Hn.
  - cbn in Hn. lia.
  - cbn [digits_of]. destruct (Z.ltb_spec n 10) as [Hlt | Hge].
    + destruct (digit_char_spec n ltac:(lia)) as (_ & _ & Hnz).
      exists (digit_char n), []. split; [reflexivity|].
      split; [apply Hnz; lia|]. split; [constructor|]. cbn. lia.
    + assert (Hq : 0 < n / 10 < 10 ^ Z.of_nat fuel).
      { split; [apply Z.div_str_pos; lia|].
        apply div10_bound; [|lia].
        replace (Z.of_nat fuel + 1) with (Z.of_nat (S fuel)) by lia. lia. }
      destruct (IH (n / 10) Hq) as (d & ds & -> & Hd & Hds & Hlen).
      pose proof (Z.mod_pos_bound n 10 ltac:(lia)) as Hmod.
      destruct (digit_char_spec (n mod 10) ltac:(lia)) as (Hdig & _ & _).
      exists d, (ds ++ [digit_char (n mod 10)]).
      split; [reflexivity|]. split; [exact Hd|]. split.
      * apply Forall_app. split; [exact Hds|]. constructor; auto.
      * rewrite length_app. cbn [List.length].
        replace (Z.of_nat (List.length ds + 1) + 1)
          with ((Z.of_nat (List.length ds) + 1) + 1) by lia.
        rewrite (pow10_succ (Z.of_nat (List.length ds) + 1)) by lia.
        pose proof (Z.div_mod n 10 ltac:(lia)). lia.
Qed.

(** An integer part of 19 digits is refused whatever the precision. *)
Lemma Decimal_of_string_long (Prec : Z) (policy : RoundPolicy)
    (n : bool) (B : Z) (rest : list ascii) :
  10 ^ 18 <= B < 10 ^ 20 ->
  exists position,
    Decimal_of_string Prec policy
      ((if n then ["-"%char] else []) ++ fmt_uint B ++ rest)
    = ParseError position kOverflow.
Proof.
  intros HB. unfold fmt_uint.
  destruct (digits_of_head 20 B) as (d & ds & -> & Hd & Hds & Hlen).
  { change (Z.of_nat 20) with 20. pose proof (pow10_pos 18). lia. }
  assert (Hlong : (18 <= List.length ds)%nat).
  { destruct (Nat.le_gt_cases 18 (List.length ds)) as [? | Hlt]; [assumption|].
    assert (10 ^ (Z.of_nat (List.length ds) + 1) <= 10 ^ 18)
      by (apply pow10_le; lia).
    lia. }
  assert (Hshape : long_integer_part kNone
                     ((if n then ["-"%char] else []) ++ (d :: ds) ++ rest)).
  { exists [], (if n then ["-"%char] else []), 0%nat, d, ds, rest.
    split; [reflexivity|].
    split; [split; [constructor | left; reflexivity]|].
    split; [unfold sign_ok; destruct n; auto|].
    auto. }
  apply ParseUnpacked_Overflow_iff in Hshape.
  unfold Decimal_of_string. rewrite Parse_fst. unfold Parse_pack.
  rewrite Hshape. eexists. reflexivity.
Qed.

(** ** What the formatter writes *)

Lemma fmt_int_nonneg (x : Z) : 0 <= x -> fmt_int x = fmt_uint x.
Proof.
  intros Hx. unfold fmt_int.
  destruct (Z.ltb_spec x 0); [lia | reflexivity].
Qed.

Lemma format_to_shape (Prec v n a' w0 : Z) :
  0 <= Prec <= 18 -> in_int64 v ->
  in_int64 a' -> 0 <= n -> a' * 10 ^ n = Z.rem v (10 ^ Prec) ->
  w0 = Prec - n ->
  exists (neg : bool) (B A w : Z),
    format_to (FromUnbiased v) (Z.quot v (10 ^ Prec)) a' w0
    = (if neg then ["-"%char] else []) ++ fmt_uint B
        ++ (if w >? 0 then "."%char :: fmt_int_zero_padded A w else [])
    /\ B = Z.abs (Z.quot v (10 ^ Prec))
    /\ ((w = 0 /\ A = 0) \/ (1 <= w <= Prec /\ 0 <= A < 10 ^ w))
    /\ (if neg then -1 else 1) * (B * 10 ^ Prec + A * 10 ^ (Prec - w)) = v.
Proof.
  intros HP Hv Ha' Hn Ha ->.
  pose proof (pow10_pos Prec ltac:(lia)) as HF.
  pose proof (pow10_pos n Hn) as HN.
  destruct (quot_rem_facts v (10 ^ Prec) HF) as (Hdm & Hr & Hpos & Hneg).
  set (b := Z.quot v (10 ^ Prec)) in *.
  set (a := Z.rem v (10 ^ Prec)) in *.
  unfold format_to, Sign. cbn [value_].
  destruct (Z.gtb_spec (Prec - n) 0) as [Hw | Hw].
  - (* a fractional part is written *)
    assert (HFn : 10 ^ Prec = 10 ^ (Prec - n) * 10 ^ n).
    { rewrite <- Z.pow_add_r by lia. f_equal. lia. }
    assert (Hbound : Z.abs a' < 10 ^ (Prec - n)).
    { assert (Z.abs a' * 10 ^ n < 10 ^ (Prec - n) * 10 ^ n); [|nia].
      rewrite <- HFn. replace (Z.abs a' * 10 ^ n) with (Z.abs a); [lia|].
      rewrite <- Ha, Z.abs_mul. f_equal. lia. }
    assert (HF10 : 10 <= 10 ^ Prec).
    { change 10 with (10 ^ 1) at 1. apply pow10_le. lia. }
    destruct (Z.gtb_spec v 0) as [Hv0 | Hv0].
    + (* positive *)
      destruct (Hpos ltac:(lia)) as [Hb0 Ha0].
      assert (0 <= a') by nia.
      exists false, b, a', (Prec - n). cbn [Z.eqb app].
      rewrite fmt_int_nonneg by exact Hb0.
      destruct (Z.gtb_spec (Prec - n) 0); [|lia].
      split; [reflexivity|]. split; [lia|]. split; [right; lia|].
      replace (Prec - (Prec - n)) with n by lia. nia.
    + destruct (Z.ltb_spec v 0) as [Hv1 | Hv1].
      * (* negative *)
        destruct (Hneg ltac:(lia)) as [Hb0 Ha0].
        assert (a' <= 0) by nia.
        exists true, (- b), (- a'), (Prec - n). cbn [Z.eqb app].
        unfold neg64.
        assert (Hp18 : 10 ^ (Prec - n) <= 10 ^ 18) by (apply pow10_le; lia).
        rewrite (wrap64_id (- b)), (wrap64_id (- a'))
          by (unfold in_int64, kMinInt64, kMaxInt64 in *;
              change (10 ^ 18) with 1000000000000000000 in *; nia).
        rewrite fmt_int_nonneg by lia.
        destruct (Z.gtb_spec (Prec - n) 0); [|lia].
        split; [reflexivity|]. split; [lia|]. split; [right; lia|].
        replace (Prec - (Prec - n)) with n by lia. nia.
      * (* zero *)
        assert (Hz : v = 0) by lia.
        destruct (Hpos ltac:(lia)) as [Hb0 Ha0].
        destruct (Hneg ltac:(lia)) as [Hb1 Ha1].
        assert (a' = 0) by nia.
        exists false, b, a', (Prec - n). cbn [Z.eqb app].
        rewrite fmt_int_nonneg by exact Hb0.
        destruct (Z.gtb_spec (Prec - n) 0); [|lia].
        split; [reflexivity|]. split; [lia|]. split; [right; lia|].
        replace (Prec - (Prec - n)) with n by lia. nia.
  - (* only the integer part is written *)
    assert (Ha0 : a = 0).
    { assert (Hle : 10 ^ Prec <= 10 ^ n) by (apply pow10_le; lia).
      assert (H1 : Z.abs a' * 10 ^ n < 1 * 10 ^ n).
      { replace (Z.abs a' * 10 ^ n) with (Z.abs a); [lia|].
        rewrite <- Ha, Z.abs_mul. f_equal. lia. }
      apply Z.mul_lt_mono_pos_r in H1; [|exact HN].
      rewrite <- Ha. replace a' with 0 by lia. lia. }
    unfold fmt_int.
    destruct (Z.ltb_spec b 0) as [Hb0 | Hb0].
    + exists true, (- b), 0, 0. cbn [Z.gtb Z.compare app].
      rewrite app_nil_r.
      split; [reflexivity|]. split; [lia|]. split; [left; lia|]. lia.
    + exists false, b, 0, 0. cbn [Z.gtb Z.compare app].
      rewrite app_nil_r.
      split; [reflexivity|]. split; [lia|]. split; [left; lia|]. lia.
Qed.

(** ** Round trip through the textual format *)

(** The text of [format], whichever the mode. *)
Lemma format_shape (Prec : Z) (remove_trailing_zeros_ : bool) (v : Z) :
  0 <= Prec <= 18 -> in_int64 v ->
  exists (neg : bool) (B A w : Z),
    format Prec remove_trailing_zeros_ (FromUnbiased v)
    = (if neg then ["-"%char] else []) ++ fmt_uint B
        ++ (if w >? 0 then "."%char :: fmt_int_zero_padded A w else [])
    /\ B = Z.abs (Z.quot v (10 ^ Prec))
    /\ ((w = 0 /\ A = 0) \/ (1 <= w <= Prec /\ 0 <= A < 10 ^ w))
    /\ (if neg then -1 else 1) * (B * 10 ^ Prec + A * 10 ^ (Prec - w)) = v.
Proof.
  intros HP Hv.
  pose proof (pow10_pos Prec ltac:(lia)) as HF.
  destruct (quot_rem_in_int64 v (10 ^ Prec) HF Hv) as (Hq & Hr & _).
  unfold format, AsUnpacked, AsUnbiased, kDecimalFactor.
  cbn [value_ unpacked_before unpacked_after].
  rewrite kPow10_spec by exact HP.
  unfold div64, rem64. rewrite (wrap64_id _ Hq), (wrap64_id _ Hr).
  destruct remove_trailing_zeros_.
  - pose proof (TrimTrailingZeros_spec Prec (Z.rem v (10 ^ Prec)) HP Hr) as Ht.
    destruct (TrimTrailingZeros Prec (Z.rem v (10 ^ Prec))) as [n a'].
    destruct Ht as (Ha' & Hn & Ha).
    apply (format_to_shape Prec v n a'); auto.
  - apply (format_to_shape Prec v 0 (Z.rem v (10 ^ Prec))); auto; lia.
Qed.

Lemma format_round_trip (Prec : Z) (policy : RoundPolicy)
    (remove_trailing_zeros_ : bool) (v : Z) :
  0 <= Prec <= 18 -> in_int64 v ->
  Z.abs (Z.quot v (10 ^ Prec)) < kMaxInt64 / 10 ^ Prec ->
  Z.abs (Z.quot v (10 ^ Prec)) < 10 ^ 18 ->
  Decimal_of_string Prec policy
    (format Prec remove_trailing_zeros_ (FromUnbiased v))
  = Value (FromUnbiased v).
Proof.
  intros HP Hv Hmax H18.
  destruct (format_shape Prec remove_trailing_zeros_ v HP Hv)
    as (neg & B & A & w & -> & HB & HA & Hval).
  rewrite Decimal_of_string_formatted; try assumption; try lia.
  rewrite Hval. reflexivity.
Qed.

Lemma format_out_of_reach (Prec : Z) (policy : RoundPolicy)
    (remove_trailing_zeros_ : bool) (v : Z) :
  0 <= Prec <= 18 -> in_int64 v ->
  kMaxInt64 / 10 ^ Prec <= Z.abs (Z.quot v (10 ^ Prec))
  \/ 10 ^ 18 <= Z.abs (Z.quot v (10 ^ Prec)) ->
  exists position,
    Decimal_of_string Prec policy
      (format Prec remove_trailing_zeros_ (FromUnbiased v))
    = ParseError position kOverflow.
Proof.
  intros HP Hv Hout.
  pose proof (pow10_pos Prec ltac:(lia)) as HF.
  destruct (quot_rem_in_int64 v (10 ^ Prec) HF Hv) as (_ & _ & Hle).
  destruct (format_shape Prec remove_trailing_zeros_ v HP Hv)
    as (neg & B & A & w & -> & HB & HA & Hval).
  rewrite <- HB in *.
  destruct (Z.lt_ge_cases B (10 ^ 18)) as [Hsmall | Hbig].
  - exists 0. apply Decimal_of_string_guard; try assumption; lia.
  - apply Decimal_of_string_long.
    assert (10 ^ 20 = 100000000000000000000) by reflexivity.
    unfold in_int64, kMinInt64, kMaxInt64 in Hv. lia.
Qed.

(** C4, as the code has it: for [0 <= Prec <= 18] and every decimal [d],
    when the integer part of [d] is below both [max_i64 / 10^Prec] and
    [10^18] in absolute value, the strict parse of [ToString(d)] and of
    [ToStringTrailingZeros(d)] gives [d]; otherwise both parses answer
    [kOverflow]. *)
Theorem ToString_round_trip (Prec : Z) (policy : RoundPolicy) (d : Decimal) :
  0 <= Prec <= 18 ->
  in_int64 (AsUnbiased d) ->
  let integer_part := Z.abs (Z.quot (AsUnbiased d) (10 ^ Prec)) in
  (integer_part < kMaxInt64 / 10 ^ Prec /\ integer_part < 10 ^ 18 ->
   Decimal_of_string Prec policy (ToString Prec d) = Value d
   /\ Decimal_of_string Prec policy (ToStringTrailingZeros Prec d) = Value d)
  /\ (kMaxInt64 / 10 ^ Prec <= integer_part \/ 10 ^ 18 <= integer_part ->
      exists position position',
        Decimal_of_string Prec policy (ToString Prec d)
        = ParseError position kOverflow
        /\ Decimal_of_string Prec policy (ToStringTrailingZeros Prec d)
           = ParseError position' kOverflow).
Proof.
  destruct d as [v]. unfold AsUnbiased, ToString, ToStringTrailingZeros.
  cbn [value_]. intros HP Hv. cbv zeta. split.
  - intros [Hmax H18]. split; apply format_round_trip; assumption.
  - intros Hout.
    destruct (format_out_of_reach Prec policy true v HP Hv Hout) as [p1 H1].
    destruct (format_out_of_reach Prec policy false v HP Hv Hout) as [p2 H2].
    exists p1, p2. split; assumption.
Qed.

Lemma ToString_round_trip_witness :
  0 <= 4 <= 18
  /\ in_int64 (AsUnbiased (FromUnbiased (-31400)))
  /\ Decimal_of_string 4 HalfEven (ToString 4 (FromUnbiased (-31400)))
     = Value (FromUnbiased (-31400))
  /\ Decimal_of_string 4 HalfEven
       (ToStringTrailingZeros 4 (FromUnbiased (-31400)))
     = Value (FromUnbiased (-31400)).
Proof.
  assert (HP : 0 <= 4 <= 18) by lia.
  assert (Hv : in_int64 (AsUnbiased (FromUnbiased (-31400)))).
  { unfold in_int64, kMinInt64, kMaxInt64. simpl. lia. }
  split; [exact HP|]. split; [exact Hv|].
  apply (proj1 (ToString_round_trip 4 HalfEven (FromUnbiased (-31400)) HP Hv)).
  split; vm_compute; reflexivity.
Defined.

(** C4 as stated, at the largest mantissa with [Prec = 2]: [ToString]
    writes 92233720368547758.07, whose integer part equals
    [max_i64 / 100], and the strict parse answers [kOverflow]; at the
    mantissa [9 * 10^18] with [Prec = 18], [ToString] writes 9 and the
    parse answers [kOverflow] as well. *)
Lemma ToString_round_trip_counterexample :
  in_int64 kMaxInt64
  /\ ToString 2 (FromUnbiased kMaxInt64) = chars "92233720368547758.07"
  /\ Decimal_of_string 2 Def (ToString 2 (FromUnbiased kMaxInt64))
     = ParseError 0 kOverflow
  /\ Decimal_of_string 2 Def (ToString 2 (FromUnbiased kMaxInt64))
     <> Value (FromUnbiased kMaxInt64)
  /\ Decimal_of_string 18 Def
       (ToStringTrailingZeros 18 (FromUnbiased (9 * 10 ^ 18)))
     = ParseError 0 kOverflow.
Proof.
  split; [unfold in_int64, kMinInt64, kMaxInt64; lia|].
  split; [vm_compute; reflexivity|].
  split; [vm_compute; reflexivity|].
  split; [vm_compute; discriminate|].
  vm_compute. reflexivity.
Qed.

(** * Further properties *)

(** Bounds between closed numerals, by evaluation. *)
Ltac closed_bound :=
  vm_compute;
  first [reflexivity | discriminate
        | split; first [reflexivity | discriminate]].

(** ** Powers of ten *)

(** X1. [Pow10(exp)] is [10^exp] for [exp] from 0 to 18 and throws for
    every other exponent; the table [PowSeries] builds has exactly these 19
    entries, and building one more entry is refused as an overflow. *)
Theorem Pow10_domain :
  (forall exp : Z,
     Pow10 exp
     = if (0 <=? exp) && (exp <=? 18) then Some (10 ^ exp) else None)
  /\ PowSeries (Z.to_nat kMaxDecimalDigits) 10 = Some kPowSeries10
  /\ PowSeries (S (Z.to_nat kMaxDecimalDigits)) 10 = None.
Proof.
  split; [|split; reflexivity].
  intros exp.
  destruct (Z.leb_spec 0 exp) as [H0 | H0];
    destruct (Z.leb_spec exp 18) as [H1 | H1]; cbn [andb].
  - apply Pow10_spec. lia.
  - unfold Pow10, kMaxDecimalDigits.
    destruct (Z.gtb_spec exp 18); [|lia]. rewrite orb_true_r. reflexivity.
  - unfold Pow10. destruct (Z.ltb_spec exp 0); [reflexivity | lia].
  - unfold Pow10. destruct (Z.ltb_spec exp 0); [reflexivity | lia].
Qed.

(** ** DivRounded on exact quotients and on negative numerators *)

Lemma Abs_nonneg (x : Z) : 0 <= x -> Abs x = x.
Proof. intros Hx. unfold Abs. destruct (Z.geb_spec x 0); [reflexivity | lia]. Qed.

Lemma Abs_neg (x : Z) : kMinInt64 < x < 0 -> Abs x = - x.
Proof.
  intros Hx. unfold Abs, neg64. destruct (Z.geb_spec x 0); [lia|].
  apply wrap64_id. unfold in_int64, kMinInt64, kMaxInt64 in *. lia.
Qed.

Lemma quot_between_neg (x b k : Z) :
  0 < b -> x <= 0 -> (k - 1) * b < x <= k * b -> Z.quot x b = k.
Proof.
  intros Hb Hx Hk.
  rewrite <- (Z.opp_involutive x), Z.quot_opp_l by lia.
  rewrite (quot_between (- x) b (- k)) by lia. lia.
Qed.

Ltac unfold_policies :=
  cbn [DivRounded];
  unfold NullRoundPolicy.DivRounded, DefRoundPolicy.DivRounded,
    HalfDownRoundPolicy.DivRounded, HalfUpRoundPolicy.DivRounded,
    HalfEvenRoundPolicy.DivRounded, CeilingRoundPolicy.DivRounded,
    FloorRoundPolicy.DivRounded, RoundDownRoundPolicy.DivRounded,
    RoundUpRoundPolicy.DivRounded, NullRoundPolicy.DivRounded.

(** Every policy divides a multiple of the divisor exactly. *)
Lemma DivRounded_multiple (policy : RoundPolicy) (q b : Z) :
  0 < b -> Z.abs (q * b) + b <= kMaxInt64 ->
  DivRounded policy (q * b) b = (q, true).
Proof.
  intros Hb Hfit0.
  pose proof (Z.div_mod b 2 ltac:(lia)) as Hb2.
  pose proof (Z.mod_pos_bound b 2 ltac:(lia)) as Hb2m.
  assert (Hq2 : Z.quot b 2 = b / 2) by (apply Z.quot_div_nonneg; lia).
  set (h := b / 2) in *.
  assert (Hqa : Z.abs q <= Z.abs (q * b)) by (rewrite Z.abs_mul; nia).
  assert (Hfit : forall x, Z.abs x <= Z.abs (q * b) + b -> wrap64 x = x).
  { intros x Hx. apply wrap64_id.
    unfold in_int64, kMinInt64, kMaxInt64 in *. lia. }
  assert (Hcorr : div64 b 2 = h).
  { unfold div64. rewrite Hq2. apply Hfit. lia. }
  assert (Hdiv : div64 (q * b) b = q).
  { unfold div64. rewrite Z.quot_mul by lia. apply Hfit. lia. }
  assert (Hrem : rem64 (Z.abs (q * b)) b = 0).
  { unfold rem64. rewrite Z.abs_mul, (Z.abs_eq b) by lia.
    rewrite Z.rem_mul by lia. reflexivity. }
  assert (Hup : 0 <= q * b -> forall x, 0 <= x < b ->
                div64 (add64 (q * b) x) b = q).
  { intros Ha x Hx. unfold div64, add64. rewrite (Hfit (q * b + x)) by lia.
    rewrite (quot_between (q * b + x) b q) by lia. apply Hfit. lia. }
  assert (Hdown : q * b < 0 -> forall x, 0 <= x < b ->
                  div64 (sub64 (q * b) x) b = q).
  { intros Ha x Hx. unfold div64, sub64. rewrite (Hfit (q * b - x)) by lia.
    rewrite (quot_between_neg (q * b - x) b q) by lia. apply Hfit. lia. }
  assert (Hbabs : Abs b = b) by (apply Abs_nonneg; lia).
  assert (Hhabs : Abs h = h) by (apply Abs_nonneg; lia).
  destruct (Z.geb_spec (q * b) 0) as [Ha | Ha].
  - assert (Haabs : Abs (q * b) = Z.abs (q * b)).
    { rewrite Abs_nonneg by lia. lia. }
    assert (Hguard : (sub64 kMaxInt64 (q * b) >=? h) = true).
    { unfold sub64. rewrite wrap64_id
        by (unfold in_int64, kMinInt64, kMaxInt64 in *; lia).
      apply Z.geb_le. lia. }
    assert (Hage : (q * b >=? 0) = true) by (apply Z.geb_le; lia).
    destruct policy; unfold_policies;
      rewrite ?Hbabs, ?Haabs, ?Hrem, ?Hcorr, ?Hhabs, ?Hage, ?Hguard,
        ?Z.eqb_refl, ?Hdiv; try reflexivity.
    + rewrite (Hup Ha h) by lia. reflexivity.
    + destruct (Z.gtb_spec 0 h); [lia | reflexivity].
    + destruct (Z.geb_spec 0 h); [|reflexivity].
      rewrite (Hup Ha h) by lia. reflexivity.
  - assert (Haabs : Abs (q * b) = Z.abs (q * b)).
    { rewrite Abs_neg by (unfold kMinInt64, kMaxInt64 in *; lia). lia. }
    assert (Hguard : (neg64 (sub64 kMinInt64 (q * b)) >=? h) = true).
    { unfold neg64, sub64.
      rewrite (wrap64_id (kMinInt64 - q * b))
        by (unfold in_int64, kMinInt64, kMaxInt64 in *; lia).
      rewrite wrap64_id by (unfold in_int64, kMinInt64, kMaxInt64 in *; lia).
      apply Z.geb_le. unfold kMinInt64, kMaxInt64 in *. lia. }
    assert (Hage : (q * b >=? 0) = false).
    { destruct (Z.geb_spec (q * b) 0); [lia | reflexivity]. }
    destruct policy; unfold_policies;
      rewrite ?Hbabs, ?Haabs, ?Hrem, ?Hcorr, ?Hhabs, ?Hage, ?Hguard,
        ?Z.eqb_refl, ?Hdiv; try reflexivity.
    + rewrite (Hdown Ha h) by lia. reflexivity.
    + rewrite (Hdown Ha h) by lia. reflexivity.
    + destruct (Z.ltb_spec 0 h).
      * rewrite (Hdown Ha 0) by lia. reflexivity.
      * destruct (Z.eqb_spec 0 h); [|lia].
        unfold div64, add64. replace (q * b + h) with (q * b) by lia.
        rewrite (Hfit (q * b)) by lia. rewrite Z.quot_mul by lia.
        rewrite Hfit by lia. reflexivity.
Qed.

(** X2. When the divisor [b > 0] divides [a] and [|a| + b] is inside the
    64-bit range, [DivRounded] of every rounding policy succeeds with the
    exact quotient. *)
Theorem DivRounded_exact_division (policy : RoundPolicy) (a b : Z) :
  0 < b -> Z.rem a b = 0 -> Z.abs a + b <= kMaxInt64 ->
  DivRounded policy a b = (Z.quot a b, true).
Proof.
  intros Hb Hr Hfit.
  pose proof (Z.quot_rem' a b) as E. rewrite Hr, Z.add_0_r in E.
  remember (Z.quot a b) as q eqn:Hq.
  assert (Ea : a = q * b) by lia.
  clear Hq E Hr. subst a. apply DivRounded_multiple; assumption.
Qed.

Lemma DivRounded_exact_division_witness :
  0 < 100 /\ Z.rem (-600) 100 = 0 /\ Z.abs (-600) + 100 <= kMaxInt64
  /\ DivRounded HalfUp (-600) 100 = (Z.quot (-600) 100, true).
Proof.
  assert (H1 : 0 < 100) by lia.
  assert (H2 : Z.rem (-600) 100 = 0) by reflexivity.
  assert (H3 : Z.abs (-600) + 100 <= kMaxInt64)
    by closed_bound.
  split; [exact H1|]. split; [exact H2|]. split; [exact H3|].
  exact (DivRounded_exact_division HalfUp (-600) 100 H1 H2 H3).
Defined.

(** For a negative numerator [a] and a positive divisor [b] with
    [a - b] inside the 64-bit range, every policy other than
    [HalfDownRoundPolicy] and [HalfUpRoundPolicy] succeeds with the quotient
    that the policy table prescribes ([HalfEvenRoundPolicy] for even
    [b]). *)
Lemma DivRounded_negative (policy : RoundPolicy) (a b : Z) :
  a < 0 < b -> kMinInt64 < a - b ->
  policy <> HalfDown -> policy <> HalfUp ->
  (policy = HalfEven -> Z.even b = true) ->
  DivRounded policy a b = (rounded_quotient policy a b, true).
Proof.
  intros Hab Hmin HnD HnU Heven.
  destruct (quot_rem_facts a b ltac:(lia)) as (Hdm & Hrb & _ & Hneg).
  destruct (Hneg ltac:(lia)) as [Hq0 Hr0].
  pose proof (Z.div_mod b 2 ltac:(lia)) as Hb2.
  pose proof (Z.mod_pos_bound b 2 ltac:(lia)) as Hb2m.
  assert (Hq2 : Z.quot b 2 = b / 2) by (apply Z.quot_div_nonneg; lia).
  set (q := Z.quot a b) in *. set (r := Z.rem a b) in *.
  set (h := b / 2) in *.
  assert (Hqb : a <= b * q <= 0) by nia.
  assert (Hfit : forall x, a - b <= x <= b - a -> wrap64 x = x).
  { intros x Hx. apply wrap64_id.
    unfold in_int64, kMinInt64, kMaxInt64 in *. lia. }
  assert (Haabs : Abs a = - a).
  { apply Abs_neg. unfold kMinInt64 in *. lia. }
  assert (Hbabs : Abs b = b) by (apply Abs_nonneg; lia).
  assert (Hhabs : Abs h = h) by (apply Abs_nonneg; lia).
  assert (Hsgn : Z.sgn a * Z.sgn b = -1).
  { rewrite (Z.sgn_neg a), (Z.sgn_pos b) by lia. reflexivity. }
  assert (Hdiv : div64 a b = q).
  { unfold div64. fold q. apply Hfit. nia. }
  assert (Hrem : rem64 (- a) b = - r).
  { unfold rem64. rewrite Z.rem_opp_l by lia. fold r. apply Hfit. lia. }
  assert (Hcorr : div64 b 2 = h).
  { unfold div64. rewrite Hq2. apply Hfit. lia. }
  assert (Hguard : (neg64 (sub64 kMinInt64 a) >=? h) = true).
  { unfold neg64, sub64.
    rewrite (wrap64_id (kMinInt64 - a))
      by (unfold in_int64, kMinInt64, kMaxInt64 in *; lia).
    rewrite wrap64_id by (unfold in_int64, kMinInt64, kMaxInt64 in *; lia).
    apply Z.geb_le. lia. }
  assert (Hage : (a >=? 0) = false).
  { destruct (Z.geb_spec a 0); [lia | reflexivity]. }
  assert (Hminus : forall x k, 0 <= x <= b ->
                     (k - 1) * b < a - x <= k * b ->
                     div64 (sub64 a x) b = k).
  { intros x k Hx Hk. unfold div64, sub64.
    rewrite (Hfit (a - x)) by lia.
    rewrite (quot_between_neg (a - x) b k) by lia. apply Hfit. nia. }
  assert (Hexact : div64 (add64 a (- r)) b = q).
  { unfold div64, add64. rewrite (Hfit (a + - r)) by lia.
    rewrite (quot_between_neg (a + - r) b q) by lia. apply Hfit. nia. }
  assert (Hround : div64 (sub64 (add64 a (- r)) b) b = q - 1).
  { unfold div64, add64, sub64. rewrite (Hfit (a + - r)) by lia.
    rewrite (Hfit (a + - r - b)) by lia.
    rewrite (quot_between_neg (a + - r - b) b (q - 1)) by lia.
    apply Hfit. nia. }
  unfold rounded_quotient. fold q r. rewrite Hsgn.
  destruct policy; try congruence; unfold_policies;
    rewrite ?Haabs, ?Hbabs, ?Hrem, ?Hcorr, ?Hhabs, ?Hage, ?Hguard.
  - (* Null *)
    rewrite Hdiv. destruct (r =? 0); reflexivity.
  - (* Def *)
    destruct (Z.eqb_spec r 0) as [Hz | Hnz].
    + rewrite (Hminus h q) by lia. reflexivity.
    + rewrite (Z.abs_neq r), (Z.abs_eq b) by lia.
      destruct (Z.geb_spec (2 * - r) b).
      * rewrite (Hminus h (q - 1)) by lia. reflexivity.
      * rewrite (Hminus h q) by lia. reflexivity.
  - (* HalfEven *)
    specialize (Heven eq_refl).
    assert (Hbe : b = 2 * h).
    { rewrite Zeven_mod in Heven. apply Z.eqb_eq in Heven. lia. }
    destruct (Z.eqb_spec (- r) 0) as [Hz | Hnz];
      destruct (Z.eqb_spec r 0) as [Hz' | Hnz']; try lia;
      [rewrite Hdiv; reflexivity|].
    rewrite (Z.abs_neq r), (Z.abs_eq b) by lia.
    destruct (Z.gtb_spec (- r) h); destruct (Z.gtb_spec (2 * - r) b); try lia.
    + rewrite Hround. reflexivity.
    + destruct (Z.ltb_spec (- r) h); destruct (Z.ltb_spec (2 * - r) b);
        try lia.
      * rewrite Hexact. reflexivity.
      * rewrite Hdiv, Hround.
        assert (Hqabs : Abs q = - q).
        { unfold Abs, neg64. destruct (Z.geb_spec q 0).
          - replace q with 0 by lia. reflexivity.
          - apply Hfit. nia. }
        rewrite Hqabs.
        assert (Hq2r : rem64 (- q) 2 = Z.rem (- q) 2).
        { unfold rem64. apply Hfit.
          pose proof (Z.rem_bound_pos (- q) 2 ltac:(lia) ltac:(lia)). nia. }
        rewrite Hq2r, Z.rem_mod_nonneg by lia.
        rewrite <- (Z.even_opp q), Zeven_mod.
        destruct (- q mod 2 =? 0); reflexivity.
  - (* Ceiling *)
    destruct (Z.eqb_spec (- r) 0) as [Hz | Hnz];
      destruct (Z.eqb_spec r 0) as [Hz' | Hnz']; try lia;
      rewrite Hdiv; reflexivity.
  - (* Floor *)
    destruct (Z.eqb_spec (- r) 0) as [Hz | Hnz];
      destruct (Z.eqb_spec r 0) as [Hz' | Hnz']; try lia;
      [rewrite Hdiv; reflexivity|].
    rewrite Hround. reflexivity.
  - (* RoundDown *)
    rewrite Hdiv. destruct (r =? 0); reflexivity.
  - (* RoundUp *)
    destruct (Z.eqb_spec (- r) 0) as [Hz | Hnz];
      destruct (Z.eqb_spec r 0) as [Hz' | Hnz']; try lia;
      [rewrite Hdiv; reflexivity|].
    rewrite (Hminus b (q - 1)) by lia. reflexivity.
Qed.

(** X3. For a positive divisor [b] and a numerator [a] with [|a| + b]
    inside the 64-bit range, [DivRounded] succeeds with the quotient that
    the policy table prescribes: under every policy when [a >= 0], and under
    every policy other than [HalfDownRoundPolicy] and [HalfUpRoundPolicy]
    when [a < 0] ([HalfEvenRoundPolicy] for even [b]). *)
Theorem DivRounded_positive_divisor (policy : RoundPolicy) (a b : Z) :
  0 < b -> Z.abs a + b <= kMaxInt64 ->
  (policy = HalfEven -> Z.even b = true) ->
  (a < 0 -> policy <> HalfDown /\ policy <> HalfUp) ->
  DivRounded policy a b = (rounded_quotient policy a b, true).
Proof.
  intros Hb Hfit Heven Hneg.
  destruct (Z.le_gt_cases 0 a) as [Ha | Ha].
  - apply DivRounded_nonnegative; try assumption. lia.
  - destruct (Hneg Ha) as [HnD HnU].
    apply DivRounded_negative; try assumption; [lia|].
    unfold kMinInt64, kMaxInt64 in *. lia.
Qed.

Lemma DivRounded_positive_divisor_witness :
  0 < 2 /\ Z.abs (-7) + 2 <= kMaxInt64
  /\ DivRounded Floor (-7) 2 = (rounded_quotient Floor (-7) 2, true).
Proof.
  assert (H1 : 0 < 2) by lia.
  assert (H2 : Z.abs (-7) + 2 <= kMaxInt64) by closed_bound.
  split; [exact H1|]. split; [exact H2|].
  apply (DivRounded_positive_divisor Floor (-7) 2 H1 H2).
  - intros E; discriminate E.
  - intros _. split; intros E; discriminate E.
Defined.

(** ** DefRoundPolicy for every sign of the operands *)

Lemma half_up_core (x m : Z) :
  0 <= x -> 0 < m ->
  Z.quot (x + m / 2) m
  = Z.quot x m + (if 2 * Z.rem x m >=? m then 1 else 0).
Proof.
  intros Hx Hm.
  destruct (quot_rem_facts x m Hm) as (Hdm & Hrb & Hpos & _).
  destruct (Hpos Hx) as [Hq0 Hr0].
  pose proof (Z.div_mod m 2 ltac:(lia)) as Hm2.
  pose proof (Z.mod_pos_bound m 2 ltac:(lia)) as Hm2m.
  destruct (Z.geb_spec (2 * Z.rem x m) m).
  - apply quot_between; lia.
  - apply quot_between; lia.
Qed.

Lemma rounded_quotient_Def_abs (a b : Z) :
  b <> 0 ->
  rounded_quotient Def a b
  = Z.sgn a * Z.sgn b
    * (Z.quot (Z.abs a) (Z.abs b)
       + (if 2 * Z.rem (Z.abs a) (Z.abs b) >=? Z.abs b then 1 else 0)).
Proof.
  intros Hb. unfold rounded_quotient.
  pose proof (Z.rem_abs a b Hb) as Hr. pose proof (Z.quot_abs a b Hb) as Hq.
  pose proof (Z.rem_bound_abs a b Hb) as Hrb.
  rewrite Hr, Hq.
  assert (Hqs : Z.quot a b = Z.sgn a * Z.sgn b * Z.abs (Z.quot a b)).
  { destruct (Z.eq_dec (Z.quot a b) 0) as [E | E]; [rewrite E; lia|].
    pose proof (Z.quot_rem' a b) as Hdm.
    pose proof (Z.rem_sign_mul a b Hb) as Hsr.
    pose proof (Z.quot_rem' a b).
    destruct (Z.abs_spec (Z.quot a b)) as [[? ->] | [? ->]];
      destruct (Z.sgn_spec a) as [[? ->] | [[? ->] | [? ->]]];
      destruct (Z.sgn_spec b) as [[? ->] | [[? ->] | [? ->]]]; nia. }
  destruct (Z.eqb_spec (Z.rem a b) 0) as [Hz | Hnz].
  - rewrite Hz. cbn [Z.abs]. destruct (Z.geb_spec (2 * 0) (Z.abs b)); [lia|].
    lia.
  - destruct (Z.geb_spec (2 * Z.abs (Z.rem a b)) (Z.abs b)); lia.
Qed.


(** X4. [DefRoundPolicy::DivRounded(output, a, b)] for operands of any sign
    ([b] not 0, neither operand [min_i64]): it fails, with output 0, exactly
    when the corrected numerator [a + |b / 2|] (for [a >= 0]) or
    [a - |b / 2|] (for [a < 0]) leaves the 64-bit range, and otherwise
    succeeds with the quotient rounded to nearest, ties away from zero. *)
Theorem DefRoundPolicy_DivRounded_spec (a b : Z) :
  kMinInt64 < a <= kMaxInt64 -> kMinInt64 < b <= kMaxInt64 -> b <> 0 ->
  DivRounded Def a b
  = if (kMinInt64 <=? Def_corrected a b) && (Def_corrected a b <=? kMaxInt64)
    then (rounded_quotient Def a b, true)
    else (0, false).
Proof.
  intros Ha Hb Hb0.
  rewrite (rounded_quotient_Def_abs a b Hb0).
  pose proof (half_up_core (Z.abs a) (Z.abs b) ltac:(lia) ltac:(lia)) as Hcore.
  rewrite <- Hcore. clear Hcore.
  pose proof (Z.quot_abs b 2 ltac:(lia)) as Hqa. change (Z.abs 2) with 2 in Hqa.
  rewrite Z.quot_div_nonneg in Hqa by lia.
  pose proof (Z.div_mod (Z.abs b) 2 ltac:(lia)) as Hb2.
  pose proof (Z.mod_pos_bound (Z.abs b) 2 ltac:(lia)) as Hb2m.
  set (h := Z.abs b / 2) in *.
  assert (Hcorr : Abs (div64 b 2) = h).
  { unfold div64. rewrite wrap64_id
      by (unfold in_int64, kMinInt64, kMaxInt64 in *; lia).
    destruct (Z.le_gt_cases 0 (Z.quot b 2)).
    - rewrite Abs_nonneg by lia. lia.
    - rewrite Abs_neg by (unfold kMinInt64, kMaxInt64 in *; lia). lia. }
  unfold Def_corrected. rewrite <- Hqa.
  cbn [DivRounded]. unfold DefRoundPolicy.DivRounded. rewrite Hcorr.
  assert (Hquot : forall x, in_int64 x -> in_int64 (Z.quot x (Z.abs b))).
  { intros x Hin.
    destruct (quot_rem_in_int64 x (Z.abs b) ltac:(lia) Hin) as (Hq & _).
    exact Hq. }
  destruct (Z.geb_spec a 0) as [Ha0 | Ha0].
  - (* a >= 0 *)
    unfold sub64. rewrite wrap64_id
      by (unfold in_int64, kMinInt64, kMaxInt64 in *; lia).
    destruct (Z.leb_spec kMinInt64 (a + h)) as [_ | Hlo];
      [|unfold kMinInt64 in *; lia].
    cbn [andb].
    destruct (Z.geb_spec (kMaxInt64 - a) h) as [Hg | Hg];
      destruct (Z.leb_spec (a + h) kMaxInt64) as [Hle | Hle]; try lia;
      [|reflexivity].
    f_equal. unfold div64, add64.
    assert (Hin : in_int64 (a + h))
      by (unfold in_int64, kMinInt64, kMaxInt64 in *; lia).
    rewrite (wrap64_id _ Hin).
    pose proof (Hquot (a + h) Hin) as Hq.
    pose proof (Z.quot_pos (a + h) (Z.abs b) ltac:(lia) ltac:(lia)) as Hq0.
    rewrite (Z.abs_eq a) by lia.
    destruct (Z.lt_trichotomy b 0) as [Hbn | [Hbz | Hbp]]; [|lia|].
    + rewrite (Z.abs_neq b) in * by lia.
      replace b with (- - b) at 1 by lia. rewrite Z.quot_opp_r by lia.
      rewrite wrap64_id
        by (unfold in_int64, kMinInt64, kMaxInt64 in *; lia).
      rewrite (Z.sgn_neg b) by lia.
      destruct (Z.eq_dec a 0) as [-> | Hne].
      * change (Z.sgn 0) with 0. rewrite Z.add_0_l.
        rewrite Z.quot_small by lia. reflexivity.
      * rewrite (Z.sgn_pos a) by lia. lia.
    + rewrite (Z.abs_eq b) in * by lia.
      rewrite (wrap64_id _ Hq). rewrite (Z.sgn_pos b) by lia.
      destruct (Z.eq_dec a 0) as [-> | Hne].
      * change (Z.sgn 0) with 0. rewrite Z.add_0_l.
        rewrite Z.quot_small by lia. reflexivity.
      * rewrite (Z.sgn_pos a) by lia. lia.
  - (* a < 0 *)
    unfold neg64, sub64.
    rewrite (wrap64_id (kMinInt64 - a))
      by (unfold in_int64, kMinInt64, kMaxInt64 in *; lia).
    rewrite (wrap64_id (- (kMinInt64 - a)))
      by (unfold in_int64, kMinInt64, kMaxInt64 in *; lia).
    destruct (Z.leb_spec (a - h) kMaxInt64) as [_ | Hhi];
      [|unfold kMaxInt64 in *; lia].
    rewrite andb_true_r.
    destruct (Z.geb_spec (- (kMinInt64 - a)) h) as [Hg | Hg];
      destruct (Z.leb_spec kMinInt64 (a - h)) as [Hle | Hle]; try lia;
      [|reflexivity].
    f_equal. unfold div64.
    assert (Hin : in_int64 (a - h))
      by (unfold in_int64, kMinInt64, kMaxInt64 in *; lia).
    rewrite (wrap64_id _ Hin).
    rewrite (Z.abs_neq a), (Z.sgn_neg a) by lia.
    replace (- a + h) with (- (a - h)) by lia.
    pose proof (Z.quot_pos (- (a - h)) (Z.abs b) ltac:(lia) ltac:(lia)) as Hq0.
    pose proof (Z.quot_le_upper_bound (- (a - h)) (Z.abs b) (- (a - h))
                  ltac:(lia) ltac:(nia)) as Hqu.
    destruct (Z.lt_trichotomy b 0) as [Hbn | [Hbz | Hbp]]; [|lia|].
    + rewrite (Z.abs_neq b) in * by lia. rewrite (Z.sgn_neg b) by lia.
      rewrite <- (Z.quot_opp_opp (a - h) b) by lia.
      destruct (quot_rem_facts (- (a - h)) (- b) ltac:(lia))
        as (Hdm & _ & Hpos & _).
      destruct (Hpos ltac:(lia)) as [_ Hr0].
      rewrite wrap64_id
        by (unfold in_int64, kMinInt64, kMaxInt64 in *; nia).
      lia.
    + rewrite (Z.abs_eq b) in * by lia. rewrite (Z.sgn_pos b) by lia.
      rewrite Z.quot_opp_l in * by lia.
      rewrite wrap64_id
        by (unfold in_int64, kMinInt64, kMaxInt64 in *; lia).
      lia.
Qed.

Lemma DefRoundPolicy_DivRounded_spec_witness :
  kMinInt64 < -7 <= kMaxInt64 /\ kMinInt64 < -2 <= kMaxInt64 /\ -2 <> 0
  /\ DivRounded Def (-7) (-2)
     = if (kMinInt64 <=? Def_corrected (-7) (-2))
          && (Def_corrected (-7) (-2) <=? kMaxInt64)
       then (rounded_quotient Def (-7) (-2), true)
       else (0, false).
Proof.
  assert (H1 : kMinInt64 < -7 <= kMaxInt64)
    by closed_bound.
  assert (H2 : kMinInt64 < -2 <= kMaxInt64)
    by closed_bound.
  assert (H3 : -2 <> 0) by lia.
  split; [exact H1|]. split; [exact H2|]. split; [exact H3|].
  exact (DefRoundPolicy_DivRounded_spec (-7) (-2) H1 H2 H3).
Defined.

(** ** Conversions between integers, precisions and decimals *)

(** X5. [Decimal(n).ToInteger()] is [n] under every rounding policy,
    provided [(|n| + 1) * 10^Prec] is inside the 64-bit range. *)
Theorem ToInteger_of_integer (Prec : Z) (policy : RoundPolicy) (n : Z) :
  0 <= Prec <= 18 ->
  (Z.abs n + 1) * 10 ^ Prec <= kMaxInt64 ->
  ToInteger Prec policy (FromIntegerImpl Prec n) = n.
Proof.
  intros HP Hfit. pose proof (pow10_pos Prec ltac:(lia)) as Hp.
  unfold ToInteger, FromIntegerImpl, kDecimalFactor. cbn [value_].
  rewrite kPow10_spec by exact HP.
  assert (Habs : Z.abs (n * 10 ^ Prec) = Z.abs n * 10 ^ Prec).
  { rewrite Z.abs_mul, (Z.abs_eq (10 ^ Prec)) by lia. reflexivity. }
  unfold mul64. rewrite wrap64_id
    by (unfold in_int64, kMinInt64, kMaxInt64 in *; lia).
  rewrite DivRounded_multiple by lia. reflexivity.
Qed.


Lemma ToInteger_of_integer_witness :
  0 <= 4 <= 18 /\ (Z.abs (-42) + 1) * 10 ^ 4 <= kMaxInt64
  /\ ToInteger 4 HalfEven (FromIntegerImpl 4 (-42)) = -42.
Proof.
  assert (H1 : 0 <= 4 <= 18) by lia.
  assert (H2 : (Z.abs (-42) + 1) * 10 ^ 4 <= kMaxInt64)
    by closed_bound.
  split; [exact H1|]. split; [exact H2|].
  exact (ToInteger_of_integer 4 HalfEven (-42) H1 H2).
Defined.

(** X6. [decimal_cast] to a higher precision [Prec2] multiplies the
    mantissa by [10^(Prec2 - Prec)], and casting the result back to [Prec]
    returns the original decimal under every rounding policy, provided
    [(|mantissa| + 1) * 10^(Prec2 - Prec)] is inside the 64-bit range. *)
Theorem decimal_cast_round_trip (Prec Prec2 : Z) (policy policy2 : RoundPolicy)
    (d : Decimal) :
  0 <= Prec <= Prec2 -> Prec2 <= 18 ->
  (Z.abs (value_ d) + 1) * 10 ^ (Prec2 - Prec) <= kMaxInt64 ->
  exists wide,
    decimal_cast Prec2 policy2 Prec d = Some wide
    /\ value_ wide = value_ d * 10 ^ (Prec2 - Prec)
    /\ decimal_cast Prec policy Prec2 wide = Some d.
Proof.
  intros HP HP2 Hfit. destruct d as [v]. cbn [value_] in *.
  set (k := Prec2 - Prec) in *.
  pose proof (pow10_pos k ltac:(lia)) as Hp.
  assert (Habs : Z.abs (v * 10 ^ k) = Z.abs v * 10 ^ k).
  { rewrite Z.abs_mul, (Z.abs_eq (10 ^ k)) by lia. reflexivity. }
  assert (Hin : in_int64 (v * 10 ^ k))
    by (unfold in_int64, kMinInt64, kMaxInt64 in *; lia).
  exists (FromUnbiased (v * 10 ^ k)). split; [|split; [reflexivity|]].
  - unfold decimal_cast, FromBiased, AsUnbiased. cbn [value_]. fold k.
    destruct (Z.geb_spec k 0); [|lia].
    rewrite Pow10_spec by lia. unfold mul64. rewrite (wrap64_id _ Hin).
    reflexivity.
  - unfold decimal_cast, FromBiased, AsUnbiased. cbn [value_].
    replace (Prec - Prec2) with (- k) by lia.
    destruct (Z.geb_spec (- k) 0) as [Hk | Hk].
    + assert (Hk0 : k = 0) by lia. rewrite Hk0 in *. cbn [Z.opp].
      rewrite Pow10_spec by lia. change (10 ^ 0) with 1.
      unfold mul64. rewrite !Z.mul_1_r in *. rewrite (wrap64_id _ Hin).
      reflexivity.
    + rewrite Z.opp_involutive, Pow10_spec by lia.
      rewrite DivRounded_multiple by lia. reflexivity.
Qed.

Lemma decimal_cast_round_trip_witness :
  0 <= 2 <= 6 /\ 6 <= 18
  /\ (Z.abs (value_ (FromUnbiased (-1234))) + 1) * 10 ^ (6 - 2) <= kMaxInt64
  /\ exists wide,
      decimal_cast 6 Floor 2 (FromUnbiased (-1234)) = Some wide
      /\ value_ wide = value_ (FromUnbiased (-1234)) * 10 ^ (6 - 2)
      /\ decimal_cast 2 Ceiling 6 wide = Some (FromUnbiased (-1234)).
Proof.
  assert (H1 : 0 <= 2 <= 6) by lia.
  assert (H2 : 6 <= 18) by lia.
  assert (H3 : (Z.abs (value_ (FromUnbiased (-1234))) + 1) * 10 ^ (6 - 2)
               <= kMaxInt64)
    by closed_bound.
  split; [exact H1|]. split; [exact H2|]. split; [exact H3|].
  exact (decimal_cast_round_trip 2 6 Ceiling Floor (FromUnbiased (-1234))
           H1 H2 H3).
Defined.



(** ** MultDiv, multiplication and division *)

Lemma quot_rem_abs (x d : Z) :
  d <> 0 ->
  x = d * Z.quot x d + Z.rem x d
  /\ Z.abs x = Z.abs d * Z.abs (Z.quot x d) + Z.abs (Z.rem x d)
  /\ Z.abs (Z.rem x d) < Z.abs d.
Proof.
  intros Hd. split; [apply Z.quot_rem'|].
  pose proof (Z.quot_rem' (Z.abs x) (Z.abs d)) as H.
  rewrite Z.quot_abs, Z.rem_abs in H by lia.
  pose proof (Z.rem_bound_abs x d Hd). lia.
Qed.

Lemma rounded_quotient_shift (policy : RoundPolicy) (k x d : Z) :
  0 <= k -> 0 <= x -> 0 < d -> policy <> HalfEven ->
  rounded_quotient policy (d * k + x) d = k + rounded_quotient policy x d.
Proof.
  intros Hk Hx Hd Hpol.
  destruct (quot_rem_facts x d Hd) as (Hdm & Hrb & Hpos & _).
  destruct (Hpos Hx) as [Hq0 Hr0].
  assert (Hq : Z.quot (d * k + x) d = k + Z.quot x d).
  { apply quot_between; nia. }
  assert (Hr : Z.rem (d * k + x) d = Z.rem x d).
  { pose proof (Z.quot_rem' (d * k + x) d) as E. rewrite Hq in E. lia. }
  unfold rounded_quotient. rewrite Hq, Hr.
  destruct (Z.eqb_spec (Z.rem x d) 0) as [Hz | Hnz]; [reflexivity|].
  assert (Hs1 : Z.sgn (d * k + x) = 1) by (apply Z.sgn_pos; nia).
  assert (Hs2 : Z.sgn x = 1) by (apply Z.sgn_pos; nia).
  rewrite Hs1, Hs2.
  destruct policy; try congruence; try reflexivity;
    repeat match goal with |- context [if ?c then _ else _] =>
      destruct c end; lia.
Qed.



Section MultDivProperties.

Variable RoundLongDouble : RoundPolicy -> Z -> Z -> Z -> Z.

Lemma MultDiv_divisible (policy : RoundPolicy) (a b d r : Z) :
  kMinInt64 < a <= kMaxInt64 -> kMinInt64 < b <= kMaxInt64 -> d <> 0 ->
  Z.rem a d = 0 \/ Z.rem b d = 0 ->
  r * d = a * b -> in_int64 r ->
  MultDiv RoundLongDouble policy a b d = r.
Proof.
  intros Ha Hb Hd Hdiv Hr Hin.
  destruct (quot_rem_abs a d Hd) as (Ea & Aa & Ra).
  destruct (quot_rem_abs b d Hd) as (Eb & Ab & Rb).
  remember (Z.quot a d) as aI eqn:HeaI.
  remember (Z.rem a d) as aD eqn:HeaD.
  remember (Z.quot b d) as bI eqn:HebI.
  remember (Z.rem b d) as bD eqn:HebD.
  assert (Hd1 : 1 <= Z.abs d) by lia.
  assert (HaI' : Z.abs aI <= Z.abs a).
  { rewrite Aa. pose proof (Z.abs_nonneg aI). pose proof (Z.abs_nonneg aD).
    assert (Z.abs aI <= Z.abs d * Z.abs aI)
      by nia. lia. }
  assert (HbI' : Z.abs bI <= Z.abs b).
  { rewrite Ab. pose proof (Z.abs_nonneg bI). pose proof (Z.abs_nonneg bD).
    assert (Z.abs bI <= Z.abs d * Z.abs bI)
      by nia. lia. }
  assert (HaD' : Z.abs aD <= Z.abs a).
  { rewrite Aa. pose proof (Z.abs_nonneg aI).
    assert (0 <= Z.abs d * Z.abs aI) by (apply Z.mul_nonneg_nonneg; lia).
    lia. }
  assert (HbD' : Z.abs bD <= Z.abs b).
  { rewrite Ab. pose proof (Z.abs_nonneg bI).
    assert (0 <= Z.abs d * Z.abs bI) by (apply Z.mul_nonneg_nonneg; lia).
    lia. }
  assert (HaI : in_int64 aI)
    by (unfold in_int64, kMinInt64, kMaxInt64 in *; lia).
  assert (HbI : in_int64 bI)
    by (unfold in_int64, kMinInt64, kMaxInt64 in *; lia).
  assert (HaD : in_int64 aD)
    by (unfold in_int64, kMinInt64, kMaxInt64 in *; lia).
  assert (HbD : in_int64 bD)
    by (unfold in_int64, kMinInt64, kMaxInt64 in *; lia).
  assert (Hres : r = a * bI + aI * bD).
  { apply (Z.mul_reg_r _ _ d Hd). rewrite Hr.
    destruct Hdiv as [Hz | Hz]; rewrite Hz, Z.add_0_r in *.
    - rewrite Ea, Eb. ring.
    - rewrite Eb. ring. }
  assert (Hfit : in_int64 (a * bI) /\ in_int64 (aI * bD)).
  { destruct Hdiv as [Hz | Hz].
    - rewrite Hz, Z.add_0_r in Ea.
      assert (Hr' : r = aI * b).
      { rewrite Hres, Ea, Eb. ring. }
      assert (H1 : Z.abs (a * bI) <= Z.abs r).
      { rewrite Hr', Ea.
        replace (d * aI * bI) with (aI * (d * bI)) by ring.
        rewrite !Z.abs_mul. apply Z.mul_le_mono_nonneg_l; [lia|].
        rewrite Ab. lia. }
      assert (H2 : Z.abs (aI * bD) <= Z.abs r).
      { rewrite Hr'. rewrite !Z.abs_mul.
        apply Z.mul_le_mono_nonneg_l; lia. }
      unfold in_int64, kMinInt64, kMaxInt64 in *. lia.
    - rewrite Hz, Z.mul_0_r, Z.add_0_r in Hres. rewrite <- Hres.
      split; [exact Hin|]. rewrite Hz, Z.mul_0_r.
      unfold in_int64, kMinInt64, kMaxInt64. lia. }
  destruct Hfit as [Hf1 Hf2].
  unfold MultDiv.
  unfold div64, rem64. rewrite <- HeaI, <- HeaD, <- HebI, <- HebD.
  rewrite (wrap64_id aI HaI), (wrap64_id aD HaD), (wrap64_id bI HbI),
    (wrap64_id bD HbD).
  assert (Hz : (aD =? 0) || (bD =? 0) = true).
  { destruct Hdiv as [Hz | Hz]; rewrite Hz; cbn;
      [reflexivity | apply orb_true_r]. }
  rewrite Hz. unfold add64, mul64.
  rewrite (wrap64_id _ Hf1), (wrap64_id _ Hf2).
  rewrite <- Hres. apply wrap64_id, Hin.
Qed.

Lemma MultDiv_nonnegative (policy : RoundPolicy) (a b d : Z) :
  0 <= a -> 0 <= b -> 0 < d ->
  a <= kMaxInt64 -> b <= kMaxInt64 ->
  Z.rem a d * Z.rem b d + d <= kMaxInt64 ->
  a * b / d < kMaxInt64 ->
  policy <> HalfEven ->
  MultDiv RoundLongDouble policy a b d = rounded_quotient policy (a * b) d.
Proof.
  intros Ha Hb Hd Hamax Hbmax HP Hres Hpol.
  destruct (quot_rem_facts a d Hd) as (Ea & Ra & Pa & _).
  destruct (quot_rem_facts b d Hd) as (Eb & Rb & Pb & _).
  destruct (Pa Ha) as [HaI0 HaD0]. destruct (Pb Hb) as [HbI0 HbD0].
  remember (Z.quot a d) as aI eqn:HeaI.
  remember (Z.rem a d) as aD eqn:HeaD.
  remember (Z.quot b d) as bI eqn:HebI.
  remember (Z.rem b d) as bD eqn:HebD.
  set (K := a * bI + aI * bD).
  assert (Hab : a * b = d * K + aD * bD).
  { unfold K. rewrite Ea at 1 2. rewrite Eb at 1. ring. }
  assert (HPD : 0 <= aD * bD) by nia.
  assert (HK0 : 0 <= K) by (unfold K; nia).
  assert (Hq : a * b / d = K + aD * bD / d).
  { rewrite Hab, Z.mul_comm, Z.div_add_l by lia. reflexivity. }
  pose proof (Z.div_pos (aD * bD) d HPD Hd) as Hq0.
  assert (HKmax : K < kMaxInt64) by lia.
  destruct (Z.eq_dec aD 0) as [Hz1 | Hn1];
    [|destruct (Z.eq_dec bD 0) as [Hz2 | Hn2]].
  - rewrite (MultDiv_divisible policy a b d K).
    + rewrite Hab, Hz1, Z.mul_0_l.
      rewrite (rounded_quotient_shift policy K 0 d) by (try lia; exact Hpol).
      unfold rounded_quotient. rewrite Z.rem_0_l by lia. cbn. lia.
    + unfold kMinInt64. lia.
    + unfold kMinInt64. lia.
    + lia.
    + left. congruence.
    + rewrite Hab, Hz1. ring.
    + unfold in_int64, kMinInt64. lia.
  - rewrite (MultDiv_divisible policy a b d K).
    + rewrite Hab, Hz2, Z.mul_0_r.
      rewrite (rounded_quotient_shift policy K 0 d) by (try lia; exact Hpol).
      unfold rounded_quotient. rewrite Z.rem_0_l by lia. cbn. lia.
    + unfold kMinInt64. lia.
    + unfold kMinInt64. lia.
    + lia.
    + right. congruence.
    + rewrite Hab, Hz2. ring.
    + unfold in_int64, kMinInt64. lia.
  - assert (Hfit : forall x, 0 <= x <= kMaxInt64 -> wrap64 x = x).
    { intros x Hx. apply wrap64_id. unfold in_int64, kMinInt64. lia. }
    assert (Hterm1 : 0 <= a * bI <= K) by (unfold K; nia).
    assert (Hterm2 : 0 <= aI * bD <= K) by (unfold K; nia).
    assert (Hrq : rounded_quotient policy (aD * bD) d <= aD * bD / d + 1
                  /\ 0 <= rounded_quotient policy (aD * bD) d).
    { unfold rounded_quotient.
      rewrite Z.quot_div_nonneg by lia.
      rewrite (Z.sgn_pos (aD * bD)), (Z.sgn_pos d) by nia.
      change (1 * 1 <? 0) with false. change (1 * 1 >? 0) with true.
      destruct policy;
        repeat match goal with |- context [if ?c then _ else _] =>
          destruct c end; lia. }
    unfold MultDiv. unfold div64, rem64.
    rewrite <- HeaI, <- HeaD, <- HebI, <- HebD.
    rewrite (Hfit aI), (Hfit aD), (Hfit bI), (Hfit bD) by nia.
    destruct (Z.eqb_spec aD 0) as [|_]; [contradiction|].
    destruct (Z.eqb_spec bD 0) as [|_]; [contradiction|]. cbn [orb].
    assert (Hov : IsMultOverflow aD bD = false).
    { destruct (IsMultOverflow aD bD) eqn:E; [|reflexivity].
      apply IsMultOverflow_characterization in E;
        [|unfold in_int64, kMinInt64; nia
         |unfold in_int64, kMinInt64; nia].
      unfold in_int64, kMinInt64 in E. lia. }
    rewrite Hov. cbn [negb].
    unfold mul64. rewrite (Hfit (aD * bD)) by lia.
    rewrite DivRounded_nonnegative by (try lia; intros; congruence).
    unfold add64. rewrite (Hfit (a * bI)), (Hfit (aI * bD)) by lia.
    fold K. rewrite (Hfit K) by lia.
    rewrite Hab, rounded_quotient_shift by (try lia; exact Hpol).
    apply Hfit. lia.
Qed.


(** X8. When [divisor] divides [value1] or [value2] and the exact quotient
    [value1 * value2 / divisor] is inside the 64-bit range, [MultDiv]
    returns that quotient, whatever the rounding policy and although
    [value1 * value2] itself may be outside the range. *)
Theorem MultDiv_exact_when_divisible (policy : RoundPolicy) (a b d : Z) :
  kMinInt64 < a <= kMaxInt64 -> kMinInt64 < b <= kMaxInt64 -> d <> 0 ->
  Z.rem a d = 0 \/ Z.rem b d = 0 ->
  in_int64 (Z.quot (a * b) d) ->
  MultDiv RoundLongDouble policy a b d = Z.quot (a * b) d
  /\ MultDiv RoundLongDouble policy a b d * d = a * b.
Proof.
  intros Ha Hb Hd Hdiv Hin.
  assert (Hr : Z.quot (a * b) d * d = a * b).
  { pose proof (Z.quot_rem' (a * b) d) as E.
    assert (Hz : Z.rem (a * b) d = 0).
    { destruct Hdiv as [Hz | Hz].
      - pose proof (Z.quot_rem' a d) as Ea. rewrite Hz, Z.add_0_r in Ea.
        rewrite Ea. replace (d * Z.quot a d * b) with (Z.quot a d * b * d)
          by ring.
        apply Z.rem_mul, Hd.
      - pose proof (Z.quot_rem' b d) as Eb. rewrite Hz, Z.add_0_r in Eb.
        rewrite Eb. replace (a * (d * Z.quot b d)) with (a * Z.quot b d * d)
          by ring.
        apply Z.rem_mul, Hd. }
    lia. }
  rewrite (MultDiv_divisible policy a b d _ Ha Hb Hd Hdiv Hr Hin).
  split; [reflexivity | exact Hr].
Qed.

(** X9. Multiplying a decimal by the decimal of an integer [n], on either
    side, gives the same result as the integer multiplication
    [operator*(T)], that is the mantissa times [n], whenever that product
    and [|n| * 10^Prec] are inside the 64-bit range. *)
Theorem operator_mul_integer (Prec : Z) (policy : RoundPolicy)
    (d : Decimal) (n : Z) :
  0 <= Prec <= 18 ->
  kMinInt64 < value_ d <= kMaxInt64 ->
  Z.abs n * 10 ^ Prec <= kMaxInt64 ->
  in_int64 (value_ d * n) ->
  operator_mul RoundLongDouble Prec policy d (FromIntegerImpl Prec n)
  = operator_mul_int d n
  /\ operator_mul RoundLongDouble Prec policy (FromIntegerImpl Prec n) d
     = operator_mul_int d n.
Proof.
  intros HP Hv Hn Hvn. destruct d as [v]. cbn [value_] in *.
  pose proof (pow10_pos Prec ltac:(lia)) as Hp.
  assert (HnF : kMinInt64 < n * 10 ^ Prec <= kMaxInt64).
  { assert (Z.abs (n * 10 ^ Prec) = Z.abs n * 10 ^ Prec)
      by (rewrite Z.abs_mul, (Z.abs_eq (10 ^ Prec)) by lia; reflexivity).
    unfold kMinInt64, kMaxInt64 in *. lia. }
  unfold operator_mul, operator_mul_int, FromIntegerImpl, kDecimalFactor.
  cbn [value_]. rewrite kPow10_spec by exact HP.
  unfold mul64.
  rewrite (wrap64_id (n * 10 ^ Prec))
    by (unfold in_int64, kMinInt64, kMaxInt64 in *; lia).
  rewrite (wrap64_id (v * n)) by exact Hvn.
  split; f_equal; apply MultDiv_divisible; try lia; try exact Hvn.
  - right. apply Z.rem_mul. lia.
  - left. apply Z.rem_mul. lia.
Qed.


(** X10. Dividing a decimal by the decimal 1 returns it unchanged, and
    dividing a non-zero decimal by itself gives the decimal 1, under every
    rounding policy. *)
Theorem operator_div_identities (Prec : Z) (policy : RoundPolicy)
    (d : Decimal) :
  0 <= Prec <= 18 ->
  kMinInt64 < value_ d <= kMaxInt64 ->
  operator_div RoundLongDouble Prec policy d (FromIntegerImpl Prec 1) = d
  /\ (value_ d <> 0 ->
      operator_div RoundLongDouble Prec policy d d = FromIntegerImpl Prec 1).
Proof.
  intros HP Hv. destruct d as [v]. cbn [value_] in *.
  pose proof (pow10_pos Prec ltac:(lia)) as Hp.
  pose proof (pow10_le Prec 18 ltac:(lia)) as Hle.
  assert (HF : kMinInt64 < 10 ^ Prec <= kMaxInt64).
  { change (10 ^ 18) with 1000000000000000000 in Hle.
    unfold kMinInt64, kMaxInt64. lia. }
  unfold operator_div, FromIntegerImpl, kDecimalFactor.
  cbn [value_]. rewrite kPow10_spec by exact HP.
  unfold mul64. rewrite Z.mul_1_l.
  rewrite (wrap64_id (10 ^ Prec))
    by (unfold in_int64, kMinInt64, kMaxInt64 in *; lia).
  split; [|intros Hv0]; f_equal; apply MultDiv_divisible; try lia.
  - right. apply Z.rem_same. lia.
  - unfold in_int64. lia.
  - left. apply Z.rem_same. lia.
  - unfold in_int64. lia.
Qed.


(** X11. For non-negative decimals [operator*] returns the exact product
    rounded as the policy table prescribes (every policy except
    [HalfEvenRoundPolicy]), provided the product of the two fractional
    mantissas plus [10^Prec] and the result stay inside the 64-bit range. *)
Theorem operator_mul_rounded (Prec : Z) (policy : RoundPolicy)
    (lhs rhs : Decimal) :
  0 <= Prec <= 18 ->
  0 <= value_ lhs <= kMaxInt64 -> 0 <= value_ rhs <= kMaxInt64 ->
  Z.rem (value_ lhs) (10 ^ Prec) * Z.rem (value_ rhs) (10 ^ Prec)
    + 10 ^ Prec <= kMaxInt64 ->
  value_ lhs * value_ rhs / 10 ^ Prec < kMaxInt64 ->
  policy <> HalfEven ->
  value_ (operator_mul RoundLongDouble Prec policy lhs rhs)
  = rounded_quotient policy (value_ lhs * value_ rhs) (10 ^ Prec).
Proof.
  intros HP Hl Hr Hfrac Hres Hpol.
  pose proof (pow10_pos Prec ltac:(lia)) as Hp.
  unfold operator_mul. cbn [value_]. rewrite kPow10_spec by exact HP.
  apply MultDiv_nonnegative; try assumption; lia.
Qed.

(** X12. For a non-negative dividend and a positive divisor [operator/]
    returns the exact quotient rounded as the policy table prescribes
    (every policy except [HalfEvenRoundPolicy]), provided the product of
    the remainders of the dividend's mantissa and of [10^Prec] modulo the
    divisor's mantissa, plus that mantissa, and the result stay inside the
    64-bit range. *)
Theorem operator_div_rounded (Prec : Z) (policy : RoundPolicy)
    (lhs rhs : Decimal) :
  0 <= Prec <= 18 ->
  0 <= value_ lhs <= kMaxInt64 -> 0 < value_ rhs <= kMaxInt64 ->
  Z.rem (value_ lhs) (value_ rhs) * Z.rem (10 ^ Prec) (value_ rhs)
    + value_ rhs <= kMaxInt64 ->
  value_ lhs * 10 ^ Prec / value_ rhs < kMaxInt64 ->
  policy <> HalfEven ->
  value_ (operator_div RoundLongDouble Prec policy lhs rhs)
  = rounded_quotient policy (value_ lhs * 10 ^ Prec) (value_ rhs).
Proof.
  intros HP Hl Hr Hfrac Hres Hpol.
  pose proof (pow10_pos Prec ltac:(lia)) as Hp.
  pose proof (pow10_le Prec 18 ltac:(lia)) as Hle.
  change (10 ^ 18) with 1000000000000000000 in Hle.
  unfold operator_div. cbn [value_]. rewrite kPow10_spec by exact HP.
  apply MultDiv_nonnegative; try assumption; try lia.
  unfold kMaxInt64. lia.
Qed.


End MultDivProperties.

Lemma MultDiv_exact_when_divisible_witness :
  kMinInt64 < 5 * 10 ^ 18 <= kMaxInt64 /\ kMinInt64 < -14 <= kMaxInt64
  /\ 10 <> 0
  /\ (Z.rem (5 * 10 ^ 18) 10 = 0 \/ Z.rem (-14) 10 = 0)
  /\ in_int64 (Z.quot (5 * 10 ^ 18 * -14) 10)
  /\ MultDiv (fun _ _ _ _ => 0) Def (5 * 10 ^ 18) (-14) 10
     = Z.quot (5 * 10 ^ 18 * -14) 10
  /\ MultDiv (fun _ _ _ _ => 0) Def (5 * 10 ^ 18) (-14) 10 * 10
     = 5 * 10 ^ 18 * -14.
Proof.
  assert (H1 : kMinInt64 < 5 * 10 ^ 18 <= kMaxInt64)
    by closed_bound.
  assert (H2 : kMinInt64 < -14 <= kMaxInt64)
    by closed_bound.
  assert (H3 : 10 <> 0) by lia.
  assert (H4 : Z.rem (5 * 10 ^ 18) 10 = 0 \/ Z.rem (-14) 10 = 0)
    by (left; reflexivity).
  assert (H5 : in_int64 (Z.quot (5 * 10 ^ 18 * -14) 10))
    by closed_bound.
  split; [exact H1|]. split; [exact H2|]. split; [exact H3|].
  split; [exact H4|]. split; [exact H5|].
  exact (MultDiv_exact_when_divisible (fun _ _ _ _ => 0) Def
           (5 * 10 ^ 18) (-14) 10 H1 H2 H3 H4 H5).
Defined.

Lemma operator_mul_integer_witness :
  0 <= 2 <= 18
  /\ kMinInt64 < value_ (FromUnbiased (-150)) <= kMaxInt64
  /\ Z.abs 3 * 10 ^ 2 <= kMaxInt64
  /\ in_int64 (value_ (FromUnbiased (-150)) * 3)
  /\ operator_mul (fun _ _ _ _ => 0) 2 Def (FromUnbiased (-150))
       (FromIntegerImpl 2 3)
     = operator_mul_int (FromUnbiased (-150)) 3
  /\ operator_mul (fun _ _ _ _ => 0) 2 Def (FromIntegerImpl 2 3)
       (FromUnbiased (-150))
     = operator_mul_int (FromUnbiased (-150)) 3.
Proof.
  assert (H1 : 0 <= 2 <= 18) by lia.
  assert (H2 : kMinInt64 < value_ (FromUnbiased (-150)) <= kMaxInt64)
    by closed_bound.
  assert (H3 : Z.abs 3 * 10 ^ 2 <= kMaxInt64)
    by closed_bound.
  assert (H4 : in_int64 (value_ (FromUnbiased (-150)) * 3))
    by closed_bound.
  split; [exact H1|]. split; [exact H2|]. split; [exact H3|].
  split; [exact H4|].
  exact (operator_mul_integer (fun _ _ _ _ => 0) 2 Def (FromUnbiased (-150))
           3 H1 H2 H3 H4).
Defined.

Lemma operator_div_identities_witness :
  0 <= 2 <= 18
  /\ kMinInt64 < value_ (FromUnbiased (-150)) <= kMaxInt64
  /\ operator_div (fun _ _ _ _ => 0) 2 Def (FromUnbiased (-150))
       (FromIntegerImpl 2 1)
     = FromUnbiased (-150)
  /\ (value_ (FromUnbiased (-150)) <> 0 ->
      operator_div (fun _ _ _ _ => 0) 2 Def (FromUnbiased (-150))
        (FromUnbiased (-150))
      = FromIntegerImpl 2 1).
Proof.
  assert (H1 : 0 <= 2 <= 18) by lia.
  assert (H2 : kMinInt64 < value_ (FromUnbiased (-150)) <= kMaxInt64)
    by closed_bound.
  split; [exact H1|]. split; [exact H2|].
  exact (operator_div_identities (fun _ _ _ _ => 0) 2 Def
           (FromUnbiased (-150)) H1 H2).
Defined.

Lemma operator_mul_rounded_witness :
  0 <= 1 <= 18
  /\ 0 <= value_ (FromUnbiased 15) <= kMaxInt64
  /\ 0 <= value_ (FromUnbiased 5) <= kMaxInt64
  /\ Z.rem (value_ (FromUnbiased 15)) (10 ^ 1)
       * Z.rem (value_ (FromUnbiased 5)) (10 ^ 1) + 10 ^ 1 <= kMaxInt64
  /\ value_ (FromUnbiased 15) * value_ (FromUnbiased 5) / 10 ^ 1 < kMaxInt64
  /\ value_ (operator_mul (fun _ _ _ _ => 0) 1 HalfUp (FromUnbiased 15)
               (FromUnbiased 5))
     = rounded_quotient HalfUp
         (value_ (FromUnbiased 15) * value_ (FromUnbiased 5)) (10 ^ 1).
Proof.
  assert (H1 : 0 <= 1 <= 18) by lia.
  assert (H2 : 0 <= value_ (FromUnbiased 15) <= kMaxInt64)
    by closed_bound.
  assert (H3 : 0 <= value_ (FromUnbiased 5) <= kMaxInt64)
    by closed_bound.
  assert (H4 : Z.rem (value_ (FromUnbiased 15)) (10 ^ 1)
               * Z.rem (value_ (FromUnbiased 5)) (10 ^ 1) + 10 ^ 1
               <= kMaxInt64)
    by closed_bound.
  assert (H5 : value_ (FromUnbiased 15) * value_ (FromUnbiased 5) / 10 ^ 1
               < kMaxInt64)
    by closed_bound.
  split; [exact H1|]. split; [exact H2|]. split; [exact H3|].
  split; [exact H4|]. split; [exact H5|].
  apply (operator_mul_rounded (fun _ _ _ _ => 0) 1 HalfUp (FromUnbiased 15)
           (FromUnbiased 5) H1 H2 H3 H4 H5).
  intros E; discriminate E.
Defined.

Lemma operator_div_rounded_witness :
  0 <= 2 <= 18
  /\ 0 <= value_ (FromUnbiased 100) <= kMaxInt64
  /\ 0 < value_ (FromUnbiased 300) <= kMaxInt64
  /\ Z.rem (value_ (FromUnbiased 100)) (value_ (FromUnbiased 300))
       * Z.rem (10 ^ 2) (value_ (FromUnbiased 300))
       + value_ (FromUnbiased 300) <= kMaxInt64
  /\ value_ (FromUnbiased 100) * 10 ^ 2 / value_ (FromUnbiased 300)
     < kMaxInt64
  /\ value_ (operator_div (fun _ _ _ _ => 0) 2 Def (FromUnbiased 100)
               (FromUnbiased 300))
     = rounded_quotient Def (value_ (FromUnbiased 100) * 10 ^ 2)
         (value_ (FromUnbiased 300)).
Proof.
  assert (H1 : 0 <= 2 <= 18) by lia.
  assert (H2 : 0 <= value_ (FromUnbiased 100) <= kMaxInt64)
    by closed_bound.
  assert (H3 : 0 < value_ (FromUnbiased 300) <= kMaxInt64)
    by closed_bound.
  assert (H4 : Z.rem (value_ (FromUnbiased 100)) (value_ (FromUnbiased 300))
               * Z.rem (10 ^ 2) (value_ (FromUnbiased 300))
               + value_ (FromUnbiased 300) <= kMaxInt64)
    by closed_bound.
  assert (H5 : value_ (FromUnbiased 100) * 10 ^ 2 / value_ (FromUnbiased 300)
               < kMaxInt64)
    by closed_bound.
  split; [exact H1|]. split; [exact H2|]. split; [exact H3|].
  split; [exact H4|]. split; [exact H5|].
  apply (operator_div_rounded (fun _ _ _ _ => 0) 2 Def (FromUnbiased 100)
           (FromUnbiased 300) H1 H2 H3 H4 H5).
  intros E; discriminate E.
Defined.

(** ** IsMultOverflow on operands other than [min_i64] *)

(** X14. For operands other than [min_i64], [IsMultOverflow] has no false
    negative: when it returns [false] the product is inside the 64-bit
    range; and when it returns [true] the product is outside the range or
    is exactly [min_i64]. *)
Theorem IsMultOverflow_sound (a b : Z) :
  in_int64 a -> in_int64 b -> a <> kMinInt64 -> b <> kMinInt64 ->
  (IsMultOverflow a b = false -> in_int64 (a * b))
  /\ (IsMultOverflow a b = true ->
      ~ in_int64 (a * b) \/ a * b = kMinInt64).
Proof.
  intros Ha Hb Ha' Hb'.
  pose proof (IsMultOverflow_characterization a b Ha Hb) as [H1 H2].
  split.
  - intros Hf.
    destruct (Z_le_dec kMinInt64 (a * b)) as [Hlo | Hlo];
      [destruct (Z_le_dec (a * b) kMaxInt64) as [Hhi | Hhi]|].
    + split; assumption.
    + rewrite H2 in Hf; [discriminate Hf|]. left.
      split; [unfold in_int64; lia|].
      split; [intros [E _] | intros [_ E]]; contradiction.
    + rewrite H2 in Hf; [discriminate Hf|]. left.
      split; [unfold in_int64; lia|].
      split; [intros [E _] | intros [_ E]]; contradiction.
  - intros Ht. destruct (H1 Ht) as [(Hn & _) | (He & _)]; auto.
Qed.

Lemma IsMultOverflow_sound_witness :
  in_int64 3037000500 /\ in_int64 (-3037000500)
  /\ 3037000500 <> kMinInt64 /\ -3037000500 <> kMinInt64
  /\ (IsMultOverflow 3037000500 (-3037000500) = false ->
      in_int64 (3037000500 * -3037000500))
  /\ (IsMultOverflow 3037000500 (-3037000500) = true ->
      ~ in_int64 (3037000500 * -3037000500)
      \/ 3037000500 * -3037000500 = kMinInt64).
Proof.
  assert (H1 : in_int64 3037000500) by closed_bound.
  assert (H2 : in_int64 (-3037000500)) by closed_bound.
  assert (H3 : 3037000500 <> kMinInt64) by (intros E; discriminate E).
  assert (H4 : -3037000500 <> kMinInt64) by (intros E; discriminate E).
  split; [exact H1|]. split; [exact H2|]. split; [exact H3|].
  split; [exact H4|].
  exact (IsMultOverflow_sound 3037000500 (-3037000500) H1 H2 H3 H4).
Defined.

(** ** Unpacking and the formatter *)

(** X15. [AsUnpacked] splits a decimal into an integer part and a
    fractional part that [FromUnpacked] puts together again to the same
    decimal; the fractional part is smaller than [10^Prec] in magnitude and
    neither part has the sign opposite to the decimal's. *)
Theorem AsUnpacked_round_trip (Prec : Z) (d : Decimal) :
  0 <= Prec <= 18 -> in_int64 (value_ d) ->
  FromUnpacked2 Prec (unpacked_before (AsUnpacked Prec d))
    (unpacked_after (AsUnpacked Prec d)) = d
  /\ Z.abs (unpacked_after (AsUnpacked Prec d)) < 10 ^ Prec
  /\ 0 <= unpacked_before (AsUnpacked Prec d) * value_ d
  /\ 0 <= unpacked_after (AsUnpacked Prec d) * value_ d.
Proof.
  intros HP Hv. destruct d as [v]. cbn [value_] in *.
  pose proof (pow10_pos Prec ltac:(lia)) as HF.
  destruct (quot_rem_facts v (10 ^ Prec) HF) as (Hdm & Hr & Hpos & Hneg).
  destruct (quot_rem_in_int64 v (10 ^ Prec) HF Hv) as (Hq & Hri & _).
  unfold AsUnpacked, AsUnbiased, FromUnpacked2, kDecimalFactor.
  cbn [value_ unpacked_before unpacked_after].
  rewrite kPow10_spec by exact HP.
  unfold div64, rem64. rewrite (wrap64_id _ Hq), (wrap64_id _ Hri).
  split; [|split; [exact Hr|]].
  - destruct (Z.gtb_spec Prec 0) as [Hp | Hp]; f_equal; unfold add64, mul64.
    + assert (Hm : in_int64 (Z.quot v (10 ^ Prec) * 10 ^ Prec)).
      { destruct (Z.le_ge_cases 0 v) as [H0 | H0].
        - destruct (Hpos H0).
          unfold in_int64, kMinInt64, kMaxInt64 in *. nia.
        - destruct (Hneg ltac:(lia)).
          unfold in_int64, kMinInt64, kMaxInt64 in *. nia. }
      rewrite (wrap64_id _ Hm).
      replace (Z.quot v (10 ^ Prec) * 10 ^ Prec + Z.rem v (10 ^ Prec))
        with v by lia.
      apply wrap64_id, Hv.
    + replace Prec with 0 by lia. change (10 ^ 0) with 1.
      rewrite Z.quot_1_r, Z.mul_1_r. apply wrap64_id, Hv.
  - destruct (Z.le_ge_cases 0 v) as [H0 | H0].
    + destruct (Hpos H0). split; nia.
    + destruct (Hneg ltac:(lia)). split; nia.
Qed.

Lemma AsUnpacked_round_trip_witness :
  0 <= 4 <= 18 /\ in_int64 (value_ (FromUnbiased (-120034)))
  /\ FromUnpacked2 4
       (unpacked_before (AsUnpacked 4 (FromUnbiased (-120034))))
       (unpacked_after (AsUnpacked 4 (FromUnbiased (-120034))))
     = FromUnbiased (-120034)
  /\ Z.abs (unpacked_after (AsUnpacked 4 (FromUnbiased (-120034)))) < 10 ^ 4
  /\ 0 <= unpacked_before (AsUnpacked 4 (FromUnbiased (-120034)))
          * value_ (FromUnbiased (-120034))
  /\ 0 <= unpacked_after (AsUnpacked 4 (FromUnbiased (-120034)))
          * value_ (FromUnbiased (-120034)).
Proof.
  assert (H1 : 0 <= 4 <= 18) by lia.
  assert (H2 : in_int64 (value_ (FromUnbiased (-120034)))) by closed_bound.
  split; [exact H1|]. split; [exact H2|].
  exact (AsUnpacked_round_trip 4 (FromUnbiased (-120034)) H1 H2).
Defined.

Lemma rem_small_abs (x m : Z) : Z.abs x < m -> Z.rem x m = x.
Proof.
  intros H. destruct (Z.le_ge_cases 0 x).
  - apply Z.rem_small. lia.
  - rewrite <- (Z.opp_involutive x) at 1. rewrite Z.rem_opp_l by lia.
    rewrite Z.rem_small by lia. lia.
Qed.

Lemma trim_step_complete (enabled : bool) (k n x a : Z) :
  1 <= k <= 16 -> in_int64 x -> x <> 0 -> 0 <= n -> x * 10 ^ n = a ->
  Z.rem x (10 ^ (2 * k)) <> 0 ->
  (enabled = false -> Z.abs x < 10 ^ k) ->
  let '(n', x') := trim_step enabled k (n, x) in
  in_int64 x' /\ x' <> 0 /\ 0 <= n' /\ x' * 10 ^ n' = a
  /\ Z.rem x' (10 ^ k) <> 0 /\ Z.abs x' <= Z.abs x.
Proof.
  intros Hk Hx Hx0 Hn Ha Hrem Hdis.
  pose proof (pow10_pos k ltac:(lia)) as Hp.
  destruct (quot_rem_in_int64 x (10 ^ k) Hp Hx) as (Hq & Hr & Hqa).
  unfold trim_step. rewrite kPow10_spec by lia.
  unfold rem64, div64. rewrite (wrap64_id _ Hq), (wrap64_id _ Hr).
  destruct enabled; cbn [andb].
  - destruct (Z.eqb_spec (Z.rem x (10 ^ k)) 0) as [Hz | Hnz].
    + pose proof (Z.quot_rem' x (10 ^ k)) as E. rewrite Hz, Z.add_0_r in E.
      split; [exact Hq|].
      split; [intros Hq0; rewrite Hq0, Z.mul_0_r in E; lia|]. split; [lia|].
      split.
      { rewrite Z.pow_add_r by lia. rewrite <- Ha. rewrite E at 2. ring. }
      split; [|exact Hqa].
      intros Hz2. apply Hrem.
      pose proof (Z.quot_rem' (Z.quot x (10 ^ k)) (10 ^ k)) as E2.
      rewrite Hz2, Z.add_0_r in E2.
      replace (2 * k) with (k + k) by lia. rewrite Z.pow_add_r by lia.
      rewrite E, E2.
      replace (10 ^ k * (10 ^ k * Z.quot (Z.quot x (10 ^ k)) (10 ^ k)))
        with (Z.quot (Z.quot x (10 ^ k)) (10 ^ k) * (10 ^ k * 10 ^ k)) by ring.
      apply Z.rem_mul. lia.
    + split; [exact Hx|]. split; [exact Hx0|]. split; [exact Hn|].
      split; [exact Ha|]. split; [exact Hnz | lia].
  - rewrite (rem_small_abs x (10 ^ k) (Hdis eq_refl)).
    split; [exact Hx|]. split; [exact Hx0|]. split; [exact Hn|].
    split; [exact Ha|]. split; [exact Hx0 | lia].
Qed.

Lemma TrimTrailingZeros_trims (Prec after : Z) :
  0 <= Prec <= 18 -> Z.abs after < 10 ^ Prec ->
  let '(n, after') := TrimTrailingZeros Prec after in
  after' * 10 ^ n = after
  /\ 0 <= n <= Prec
  /\ (after <> 0 -> Z.rem after' 10 <> 0 /\ n < Prec)
  /\ (after = 0 -> n = Prec).
Proof.
  intros HP Hb.
  pose proof (pow10_le Prec 18 ltac:(lia)) as H18.
  unfold TrimTrailingZeros.
  destruct (Z.eqb_spec Prec 0) as [-> | HP0].
  { change (10 ^ 0) with 1 in *. repeat split; try lia. }
  destruct (Z.eqb_spec after 0) as [-> | Ha0].
  { repeat split; try lia. }
  assert (Hin : in_int64 after).
  { unfold in_int64, kMinInt64, kMaxInt64.
    change (10 ^ 18) with 1000000000000000000 in H18. lia. }
  assert (Hdis : forall (t k x : Z),
             t = k + 1 -> 0 <= k -> Z.abs x <= Z.abs after ->
             (Prec >=? t) = false -> Z.abs x < 10 ^ k).
  { intros t k x -> Hk Hx Hge.
    destruct (Z.geb_spec Prec (k + 1)); [discriminate Hge|].
    pose proof (pow10_le Prec k ltac:(lia)). lia. }
  assert (Hr0 : Z.rem after (10 ^ (2 * 16)) <> 0).
  { rewrite rem_small_abs; [exact Ha0|].
    pose proof (pow10_le 18 (2 * 16) ltac:(lia)). lia. }
  pose proof (trim_step_complete (Prec >=? 17) 16 0 after after
                ltac:(lia) Hin Ha0 ltac:(lia) ltac:(cbn; lia) Hr0
                (Hdis 17 16 after eq_refl ltac:(lia) ltac:(lia))) as H1.
  destruct (trim_step (Prec >=? 17) 16 (0, after)) as [n1 x1].
  destruct H1 as (Hi1 & Hz1 & Hn1 & He1 & Hr1 & Hb1).
  pose proof (trim_step_complete (Prec >=? 9) 8 n1 x1 after
                ltac:(lia) Hi1 Hz1 Hn1 He1 Hr1
                (Hdis 9 8 x1 eq_refl ltac:(lia) Hb1)) as H2.
  destruct (trim_step (Prec >=? 9) 8 (n1, x1)) as [n2 x2].
  destruct H2 as (Hi2 & Hz2 & Hn2 & He2 & Hr2 & Hb2).
  pose proof (trim_step_complete (Prec >=? 5) 4 n2 x2 after
                ltac:(lia) Hi2 Hz2 Hn2 He2 Hr2
                (Hdis 5 4 x2 eq_refl ltac:(lia) ltac:(lia))) as H3.
  destruct (trim_step (Prec >=? 5) 4 (n2, x2)) as [n3 x3].
  destruct H3 as (Hi3 & Hz3 & Hn3 & He3 & Hr3 & Hb3).
  pose proof (trim_step_complete (Prec >=? 3) 2 n3 x3 after
                ltac:(lia) Hi3 Hz3 Hn3 He3 Hr3
                (Hdis 3 2 x3 eq_refl ltac:(lia) ltac:(lia))) as H4.
  destruct (trim_step (Prec >=? 3) 2 (n3, x3)) as [n4 x4].
  destruct H4 as (Hi4 & Hz4 & Hn4 & He4 & Hr4 & Hb4).
  pose proof (trim_step_complete true 1 n4 x4 after
                ltac:(lia) Hi4 Hz4 Hn4 He4 Hr4
                ltac:(intros E; discriminate E)) as H5.
  destruct (trim_step true 1 (n4, x4)) as [n5 x5].
  destruct H5 as (Hi5 & Hz5 & Hn5 & He5 & Hr5 & Hb5).
  assert (Hlt : 10 ^ n5 < 10 ^ Prec).
  { pose proof (pow10_pos n5 Hn5) as Hp.
    assert (10 ^ n5 <= Z.abs after); [|lia].
    rewrite <- He5, Z.abs_mul, (Z.abs_eq (10 ^ n5)) by lia.
    assert (1 <= Z.abs x5) by lia. nia. }
  apply Z.pow_lt_mono_r_iff in Hlt; [|lia|lia].
  split; [exact He5|]. split; [lia|].
  split; [intros _; split; [exact Hr5 | lia] | contradiction].
Qed.

(** X16. [TrimTrailingZeros<Prec>(after)] for [|after| < 10^Prec]: a zero
    fraction is trimmed completely ([Prec] zeros); otherwise the number of
    trimmed zeros [n] is below [Prec], the new value times [10^n] is the old
    one, and the new value does not end in 0, so that all trailing zeros are
    removed. *)
Theorem TrimTrailingZeros_complete (Prec after : Z) :
  0 <= Prec <= 18 -> Z.abs after < 10 ^ Prec ->
  fst (TrimTrailingZeros Prec after) = Prec
  /\ after = 0
  \/ 0 <= fst (TrimTrailingZeros Prec after) < Prec
     /\ snd (TrimTrailingZeros Prec after)
          * 10 ^ fst (TrimTrailingZeros Prec after) = after
     /\ Z.rem (snd (TrimTrailingZeros Prec after)) 10 <> 0.
Proof.
  intros HP Hb. pose proof (TrimTrailingZeros_trims Prec after HP Hb) as H.
  destruct (TrimTrailingZeros Prec after) as [n a']. cbn [fst snd].
  destruct H as (He & Hn & Hnz & Hz).
  destruct (Z.eq_dec after 0) as [E | E].
  - left. split; [apply Hz, E | exact E].
  - right. destruct (Hnz E) as [Hr Hlt]. repeat split; try assumption; lia.
Qed.

Lemma TrimTrailingZeros_complete_witness :
  0 <= 18 <= 18 /\ Z.abs (-1203 * 10 ^ 13) < 10 ^ 18
  /\ (fst (TrimTrailingZeros 18 (-1203 * 10 ^ 13)) = 18
      /\ -1203 * 10 ^ 13 = 0
      \/ 0 <= fst (TrimTrailingZeros 18 (-1203 * 10 ^ 13)) < 18
         /\ snd (TrimTrailingZeros 18 (-1203 * 10 ^ 13))
              * 10 ^ fst (TrimTrailingZeros 18 (-1203 * 10 ^ 13))
            = -1203 * 10 ^ 13
         /\ Z.rem (snd (TrimTrailingZeros 18 (-1203 * 10 ^ 13))) 10 <> 0).
Proof.
  assert (H1 : 0 <= 18 <= 18) by lia.
  assert (H2 : Z.abs (-1203 * 10 ^ 13) < 10 ^ 18) by closed_bound.
  split; [exact H1|]. split; [exact H2|].
  exact (TrimTrailingZeros_complete 18 (-1203 * 10 ^ 13) H1 H2).
Defined.

Lemma eval_from_app (init : Z) (xs ys : list ascii) :
  eval_from init (xs ++ ys) = eval_from (eval_from init xs) ys.
Proof. unfold eval_from. apply fold_left_app. Qed.

Lemma digits_of_spec (fuel : nat) :
  forall n : Z,
    0 <= n < 10 ^ Z.of_nat fuel ->
    Forall (fun c => is_digit c = true) (digits_of fuel n)
    /\ eval_from 0 (digits_of fuel n) = n
    /\ last (digits_of fuel n) "0"%char = digit_char (n mod 10).
Proof.
  induction fuel as [|fuel IH]; intros n Hn.
  - change (10 ^ Z.of_nat 0) with 1 in Hn. replace n with 0 by lia.
    cbn. repeat split. constructor.
  - cbn [digits_of]. destruct (Z.ltb_spec n 10) as [Hlt | Hge].
    + destruct (digit_char_spec n ltac:(lia)) as (Hd & Hv & _).
      split; [constructor; [exact Hd | constructor]|].
      split; [unfold eval_from; cbn [fold_left]; rewrite Hv; lia|].
      cbn. rewrite Z.mod_small by lia. reflexivity.
    + pose proof (Z.div_mod n 10 ltac:(lia)) as Hdm.
      pose proof (Z.mod_pos_bound n 10 ltac:(lia)) as Hm.
      assert (Hq : 0 <= n / 10 < 10 ^ Z.of_nat fuel).
      { apply div10_bound; [|lia].
        replace (Z.of_nat fuel + 1) with (Z.of_nat (S fuel)) by lia.
        exact Hn. }
      destruct (IH _ Hq) as (Hds & Hev & _).
      destruct (digit_char_spec (n mod 10) ltac:(lia)) as (Hd & Hv & _).
      split; [apply Forall_app; split;
              [exact Hds | constructor; [exact Hd | constructor]]|].
      split.
      * rewrite eval_from_app, Hev. unfold eval_from. cbn [fold_left].
        rewrite Hv. lia.
      * apply last_last.
Qed.

Lemma eval_from_zeros (k : nat) : eval_from 0 (repeat "0"%char k) = 0.
Proof.
  induction k as [|k IH]; [reflexivity|].
  cbn [repeat]. unfold eval_from in *. cbn [fold_left].
  change (10 * 0 + digit_of "0") with 0. exact IH.
Qed.

Lemma last_app_nonempty {A : Type} (xs ys : list A) (d : A) :
  ys <> [] -> last (xs ++ ys) d = last ys d.
Proof.
  intros Hy. induction xs as [|x xs IH]; [reflexivity|].
  cbn [app]. rewrite <- IH. destruct (xs ++ ys) eqn:E; [|reflexivity].
  destruct xs; [cbn in E; contradiction | discriminate E].
Qed.

(** The zero-padded fraction that [format] writes. *)
Lemma fmt_int_zero_padded_spec (A w : Z) :
  0 <= A < 10 ^ w -> 1 <= w <= 18 ->
  List.length (fmt_int_zero_padded A w) = Z.to_nat w
  /\ Forall (fun c => is_digit c = true) (fmt_int_zero_padded A w)
  /\ eval_from 0 (fmt_int_zero_padded A w) = A
  /\ last (fmt_int_zero_padded A w) "0"%char = digit_char (A mod 10).
Proof.
  intros HA Hw. unfold fmt_int_zero_padded, fmt_uint.
  destruct (Z.ltb_spec A 0); [lia|]. rewrite Z.abs_eq by lia.
  cbn [app List.length].
  assert (H20 : A < 10 ^ Z.of_nat 20).
  { pose proof (pow10_le w (Z.of_nat 20) ltac:(lia)). lia. }
  destruct (digits_of_spec 20 A ltac:(lia)) as (Hds & Hev & Hl).
  pose proof (digits_of_length_le 20 A w HA ltac:(lia)) as Hlen.
  assert (Hne : digits_of 20 A <> []).
  { change (digits_of 20 A)
      with (if A <? 10 then [digit_char A]
            else digits_of 19 (A / 10) ++ [digit_char (A mod 10)]).
    destruct (A <? 10); intros E; [discriminate E|].
    apply app_eq_nil in E. destruct E as [_ E]. discriminate E. }
  split; [rewrite length_app, repeat_length; lia|].
  split.
  { apply Forall_app. split; [|exact Hds].
    apply Forall_forall. intros x Hx. apply repeat_spec in Hx. subst x.
    reflexivity. }
  split.
  - rewrite eval_from_app, eval_from_zeros. exact Hev.
  - rewrite last_app_nonempty by exact Hne. exact Hl.
Qed.

Lemma format_to_fraction (Prec v n a' : Z) :
  0 <= Prec <= 18 -> in_int64 v ->
  in_int64 a' -> 0 <= n -> a' * 10 ^ n = Z.rem v (10 ^ Prec) ->
  0 < Prec - n ->
  format_to (FromUnbiased v) (Z.quot v (10 ^ Prec)) a' (Prec - n)
  = (if v <? 0 then ["-"%char] else [])
      ++ fmt_uint (Z.abs (Z.quot v (10 ^ Prec)))
      ++ "."%char :: fmt_int_zero_padded (Z.abs a') (Prec - n)
  /\ Z.abs a' < 10 ^ (Prec - n).
Proof.
  intros HP Hv Ha' Hn Ha Hw.
  pose proof (pow10_pos Prec ltac:(lia)) as HF.
  pose proof (pow10_pos n Hn) as HN.
  destruct (quot_rem_facts v (10 ^ Prec) HF) as (Hdm & Hr & Hpos & Hneg).
  set (b := Z.quot v (10 ^ Prec)) in *.
  set (a := Z.rem v (10 ^ Prec)) in *.
  assert (HFn : 10 ^ Prec = 10 ^ (Prec - n) * 10 ^ n).
  { rewrite <- Z.pow_add_r by lia. f_equal. lia. }
  assert (Hbound : Z.abs a' < 10 ^ (Prec - n)).
  { assert (Z.abs a' * 10 ^ n < 10 ^ (Prec - n) * 10 ^ n); [|nia].
    rewrite <- HFn. replace (Z.abs a' * 10 ^ n) with (Z.abs a); [lia|].
    rewrite <- Ha, Z.abs_mul. f_equal. lia. }
  assert (HF10 : 10 <= 10 ^ Prec).
  { change 10 with (10 ^ 1) at 1. apply pow10_le. lia. }
  split; [|exact Hbound].
  unfold format_to, Sign. cbn [value_].
  destruct (Z.gtb_spec (Prec - n) 0) as [_ | ?]; [|lia].
  destruct (Z.gtb_spec v 0) as [Hv0 | Hv0].
  - destruct (Hpos ltac:(lia)) as [Hb0 Ha0].
    assert (0 <= a') by nia.
    destruct (Z.ltb_spec v 0); [lia|]. cbn [Z.eqb app].
    rewrite fmt_int_nonneg by exact Hb0.
    rewrite !Z.abs_eq by lia. reflexivity.
  - destruct (Z.ltb_spec v 0) as [Hv1 | Hv1].
    + destruct (Hneg ltac:(lia)) as [Hb0 Ha0].
      assert (a' <= 0) by nia.
      cbn [Z.eqb app]. unfold neg64.
      assert (Hp18 : 10 ^ (Prec - n) <= 10 ^ 18) by (apply pow10_le; lia).
      rewrite (wrap64_id (- b)), (wrap64_id (- a'))
        by (unfold in_int64, kMinInt64, kMaxInt64 in *;
            change (10 ^ 18) with 1000000000000000000 in *; nia).
      rewrite fmt_int_nonneg by lia.
      rewrite !Z.abs_neq by lia. reflexivity.
    + assert (Hz : v = 0) by lia.
      destruct (Hpos ltac:(lia)) as [Hb0 Ha0].
      assert (0 <= a') by nia.
      cbn [Z.eqb app].
      rewrite fmt_int_nonneg by exact Hb0.
      rewrite !Z.abs_eq by lia. reflexivity.
Qed.

Lemma digit_char_not_zero (d : Z) : 1 <= d <= 9 -> digit_char d <> "0"%char.
Proof.
  intros Hd E. destruct (digit_char_spec d ltac:(lia)) as (_ & _ & H).
  specialize (H ltac:(lia)). rewrite E in H. discriminate H.
Qed.

(** X17. For [Prec > 0], [ToStringTrailingZeros] writes a minus sign for a
    negative decimal, the integer part, a point and exactly [Prec] digits,
    whose value is the fractional part of the mantissa. *)
Theorem ToStringTrailingZeros_shape (Prec : Z) (d : Decimal) :
  0 < Prec <= 18 -> in_int64 (value_ d) ->
  exists fraction : list ascii,
    ToStringTrailingZeros Prec d
    = (if value_ d <? 0 then ["-"%char] else [])
        ++ fmt_uint (Z.abs (Z.quot (value_ d) (10 ^ Prec)))
        ++ "."%char :: fraction
    /\ List.length fraction = Z.to_nat Prec
    /\ Forall (fun c => is_digit c = true) fraction
    /\ eval_from 0 fraction = Z.abs (Z.rem (value_ d) (10 ^ Prec)).
Proof.
  intros HP Hv. destruct d as [v]. cbn [value_] in *.
  pose proof (pow10_pos Prec ltac:(lia)) as HF.
  destruct (quot_rem_in_int64 v (10 ^ Prec) HF Hv) as (Hq & Hr & _).
  destruct (quot_rem_facts v (10 ^ Prec) HF) as (_ & Hrb & _).
  unfold ToStringTrailingZeros, format, AsUnpacked, AsUnbiased,
    kDecimalFactor.
  cbn [value_ unpacked_before unpacked_after].
  rewrite kPow10_spec by lia.
  unfold div64, rem64. rewrite (wrap64_id _ Hq), (wrap64_id _ Hr).
  destruct (format_to_fraction Prec v 0 (Z.rem v (10 ^ Prec))
              ltac:(lia) Hv Hr ltac:(lia) ltac:(cbn; lia) ltac:(lia))
    as [Hf _].
  rewrite Z.sub_0_r in Hf.
  destruct (fmt_int_zero_padded_spec (Z.abs (Z.rem v (10 ^ Prec))) Prec
              ltac:(lia) ltac:(lia)) as (Hlen & Hds & Hev & _).
  exists (fmt_int_zero_padded (Z.abs (Z.rem v (10 ^ Prec))) Prec).
  split; [exact Hf|]. split; [exact Hlen|]. split; [exact Hds | exact Hev].
Qed.

Lemma ToStringTrailingZeros_shape_witness :
  0 < 4 <= 18 /\ in_int64 (value_ (FromUnbiased (-5000)))
  /\ exists fraction : list ascii,
      ToStringTrailingZeros 4 (FromUnbiased (-5000))
      = (if value_ (FromUnbiased (-5000)) <? 0 then ["-"%char] else [])
          ++ fmt_uint (Z.abs (Z.quot (value_ (FromUnbiased (-5000))) (10 ^ 4)))
          ++ "."%char :: fraction
      /\ List.length fraction = Z.to_nat 4
      /\ Forall (fun c => is_digit c = true) fraction
      /\ eval_from 0 fraction
         = Z.abs (Z.rem (value_ (FromUnbiased (-5000))) (10 ^ 4)).
Proof.
  assert (H1 : 0 < 4 <= 18) by lia.
  assert (H2 : in_int64 (value_ (FromUnbiased (-5000)))) by closed_bound.
  split; [exact H1|]. split; [exact H2|].
  exact (ToStringTrailingZeros_shape 4 (FromUnbiased (-5000)) H1 H2).
Defined.

(** X18. [ToString] writes only the integer part when the fraction is zero;
    otherwise it writes a minus sign for a negative decimal, the integer
    part, a point and between 1 and [Prec] digits, the last of which is not
    ['0'], whose value scaled to [Prec] digits is the fractional part of the
    mantissa. *)
Theorem ToString_shape (Prec : Z) (d : Decimal) :
  0 <= Prec <= 18 -> in_int64 (value_ d) ->
  (Z.rem (value_ d) (10 ^ Prec) = 0 ->
   ToString Prec d = fmt_int (Z.quot (value_ d) (10 ^ Prec)))
  /\ (Z.rem (value_ d) (10 ^ Prec) <> 0 ->
      exists fraction : list ascii,
        ToString Prec d
        = (if value_ d <? 0 then ["-"%char] else [])
            ++ fmt_uint (Z.abs (Z.quot (value_ d) (10 ^ Prec)))
            ++ "."%char :: fraction
        /\ (0 < List.length fraction <= Z.to_nat Prec)%nat
        /\ Forall (fun c => is_digit c = true) fraction
        /\ last fraction "0"%char <> "0"%char
        /\ eval_from 0 fraction
             * 10 ^ (Prec - Z.of_nat (List.length fraction))
           = Z.abs (Z.rem (value_ d) (10 ^ Prec))).
Proof.
  intros HP Hv. destruct d as [v]. cbn [value_] in *.
  pose proof (pow10_pos Prec ltac:(lia)) as HF.
  destruct (quot_rem_in_int64 v (10 ^ Prec) HF Hv) as (Hq & Hr & _).
  destruct (quot_rem_facts v (10 ^ Prec) HF) as (_ & Hrb & _).
  unfold ToString, format, AsUnpacked, AsUnbiased, kDecimalFactor.
  cbn [value_ unpacked_before unpacked_after].
  rewrite kPow10_spec by lia.
  unfold div64, rem64. rewrite (wrap64_id _ Hq), (wrap64_id _ Hr).
  pose proof (TrimTrailingZeros_trims Prec (Z.rem v (10 ^ Prec)) HP Hrb)
    as Ht.
  pose proof (TrimTrailingZeros_spec Prec (Z.rem v (10 ^ Prec)) HP Hr)
    as Hin.
  destruct (TrimTrailingZeros Prec (Z.rem v (10 ^ Prec))) as [n a'].
  destruct Ht as (He & Hn & Hnz & Hz). destruct Hin as (Hin & _).
  split.
  - intros E. rewrite (Hz E). unfold format_to.
    replace (Prec - Prec) with 0 by lia. reflexivity.
  - intros E. destruct (Hnz E) as [Hr10 Hlt].
    destruct (format_to_fraction Prec v n a' HP Hv Hin ltac:(lia) He
                ltac:(lia)) as [Hf Hb].
    assert (Ha0 : a' <> 0) by (intros ->; cbn in Hr10; lia).
    destruct (fmt_int_zero_padded_spec (Z.abs a') (Prec - n)
                ltac:(lia) ltac:(lia)) as (Hlen & Hds & Hev & Hl).
    exists (fmt_int_zero_padded (Z.abs a') (Prec - n)).
    split; [exact Hf|]. split; [lia|]. split; [exact Hds|].
    split.
    + rewrite Hl. apply digit_char_not_zero.
      pose proof (Z.mod_pos_bound (Z.abs a') 10 ltac:(lia)).
      assert (Z.abs a' mod 10 <> 0); [|lia].
      rewrite <- Z.rem_mod_nonneg by lia.
      pose proof (Z.rem_abs a' 10 ltac:(lia)) as Hra.
      change (Z.abs 10) with 10 in Hra. lia.
    + rewrite Hev, Hlen. replace (Prec - Z.of_nat (Z.to_nat (Prec - n)))
        with n by lia.
      rewrite <- He, Z.abs_mul, (Z.abs_eq (10 ^ n)); [reflexivity|].
      pose proof (pow10_pos n ltac:(lia)). lia.
Qed.

Lemma ToString_shape_witness :
  0 <= 4 <= 18 /\ in_int64 (value_ (FromUnbiased (-5000)))
  /\ (Z.rem (value_ (FromUnbiased (-5000))) (10 ^ 4) = 0 ->
      ToString 4 (FromUnbiased (-5000))
      = fmt_int (Z.quot (value_ (FromUnbiased (-5000))) (10 ^ 4)))
  /\ (Z.rem (value_ (FromUnbiased (-5000))) (10 ^ 4) <> 0 ->
      exists fraction : list ascii,
        ToString 4 (FromUnbiased (-5000))
        = (if value_ (FromUnbiased (-5000)) <? 0 then ["-"%char] else [])
            ++ fmt_uint
                 (Z.abs (Z.quot (value_ (FromUnbiased (-5000))) (10 ^ 4)))
            ++ "."%char :: fraction
        /\ (0 < List.length fraction <= Z.to_nat 4)%nat
        /\ Forall (fun c => is_digit c = true) fraction
        /\ last fraction "0"%char <> "0"%char
        /\ eval_from 0 fraction
             * 10 ^ (4 - Z.of_nat (List.length fraction))
           = Z.abs (Z.rem (value_ (FromUnbiased (-5000))) (10 ^ 4))).
Proof.
  assert (H1 : 0 <= 4 <= 18) by lia.
  assert (H2 : in_int64 (value_ (FromUnbiased (-5000)))) by closed_bound.
  split; [exact H1|]. split; [exact H2|].
  exact (ToString_shape 4 (FromUnbiased (-5000)) H1 H2).
Defined.

(** ** The strict parser and the other modes *)

Lemma has_kNone (flag : Z) : has kNone flag = false.
Proof. reflexivity. Qed.

Lemma error_sticky (options : Z) (c : ascii) (l : Locals) :
  l_error (parse_step options c l) = None -> l_error l = None.
Proof.
  destruct l as [b a n p s e bc ac]. proj_cbn.
  destruct e as [e|]; [|reflexivity].
  intros E; exfalso; revert E.
  destruct s; run_step; cbn [andb negb]; rewrite ?andb_false_r;
    split_ifs; proj_cbn; discriminate.
Qed.

Lemma strict_step_any (options : Z) (c : ascii) (l : Locals) :
  l_error (parse_step kNone c l) = None ->
  parse_step options c l = parse_step kNone c l.
Proof.
  intros E. pose proof (error_sticky _ _ _ E) as E0. revert E.
  destruct l as [b a n p s e bc ac]. cbn [l_error] in E0. subst e.
  destruct s; run_step; rewrite ?has_kNone; cbn [andb negb];
    rewrite ?andb_true_r.
  all: split_ifs; proj_cbn; intros E; try discriminate E;
    try reflexivity;
    match goal with
    | H : _ && false = true |- _ => rewrite andb_false_r in H; discriminate H
    end.
Qed.

Lemma string_loop_error_None (options : Z) :
  forall (text seen : list ascii) (l : Locals),
    l_error (fst (string_loop options l seen text)) = None ->
    l_error l = None.
Proof.
  induction text as [|c rest IH]; intros seen l E; cbn [string_loop] in E.
  - exact E.
  - destruct (is_kEnd (l_state l)); [exact E|].
    destruct (char_eqb c NUL); [exact E|].
    apply IH in E. apply error_sticky in E. exact E.
Qed.

Lemma string_loop_strict_any (options : Z) :
  forall (text seen : list ascii) (l : Locals),
    l_error (fst (string_loop kNone l seen text)) = None ->
    string_loop options l seen text = string_loop kNone l seen text.
Proof.
  induction text as [|c rest IH]; intros seen l E; cbn [string_loop] in *.
  - reflexivity.
  - destruct (is_kEnd (l_state l)); [reflexivity|].
    destruct (char_eqb c NUL); [reflexivity|].
    pose proof (string_loop_error_None _ _ _ _ E) as E1.
    rewrite (strict_step_any options c l E1). apply IH, E.
Qed.

Lemma string_junk_loop_error_None :
  forall (text seen : list ascii) (l : Locals),
    l_error (fst (string_junk_loop l seen text)) = None ->
    l_error l = None.
Proof.
  induction text as [|c rest IH]; intros seen l E;
    cbn [string_junk_loop] in E.
  - exact E.
  - destruct (char_eqb c NUL); [exact E|].
    destruct (negb (IsSpace c)); [discriminate E|].
    apply IH in E. exact E.
Qed.

Lemma final_checks_error_None (options : Z) (l : Locals) :
  l_error (final_checks options l) = None -> l_error l = None.
Proof.
  unfold final_checks, no_error. destruct l as [b a n p s e bc ac].
  proj_cbn. destruct e as [e|]; cbn [andb]; [intros E; exact E|].
  reflexivity.
Qed.

Lemma final_checks_strict_any (options : Z) (l : Locals) :
  l_error (final_checks kNone l) = None ->
  final_checks options l = final_checks kNone l.
Proof.
  unfold final_checks, no_error. destruct l as [b a n p s e bc ac].
  proj_cbn. rewrite has_kNone. cbn [negb].
  destruct e as [e|]; cbn [andb]; [reflexivity|].
  destruct ((bc =? 0) && (ac =? 0)); proj_cbn; cbn [andb]; [reflexivity|].
  rewrite andb_true_r.
  destruct (match s with kAfterDec => true | _ => false end);
    cbn [andb]; [|reflexivity].
  destruct (ac =? 0); proj_cbn; [intros E; discriminate E|].
  rewrite andb_false_r. reflexivity.
Qed.

(** What a successful strict [ParseUnpacked] says about its main loop. *)
Lemma strict_success (s : list ascii) :
  error (fst (ParseUnpacked (MakeStringCharSequence s) kNone)) = None ->
  let l := fst (string_loop kNone initial_locals [] s) in
  is_kEnd (l_state l) = false
  /\ l_error (final_checks kNone l) = None
  /\ fst (ParseUnpacked (MakeStringCharSequence s) kNone)
     = make_result (final_checks kNone l).
Proof.
  rewrite ParseUnpacked_string.
  destruct (string_loop kNone initial_locals [] s) as [l q]. cbn [fst].
  destruct (is_kEnd (l_state l)).
  - intros E. exfalso. unfold make_result in E. cbn [error] in E.
    apply final_checks_error_None in E.
    rewrite !has_kNone in E. cbn [negb] in E. rewrite andb_true_r in E.
    destruct (no_error l) eqn:Hn.
    + apply string_junk_loop_error_None in E. discriminate E.
    + unfold no_error in Hn. rewrite E in Hn. discriminate Hn.
  - intros E. unfold make_result in E. cbn [error] in E. auto.
Qed.

Lemma ParseUnpacked_strict_any (options : Z) (s : list ascii) :
  error (fst (ParseUnpacked (MakeStringCharSequence s) kNone)) = None ->
  fst (ParseUnpacked (MakeStringCharSequence s) options)
  = fst (ParseUnpacked (MakeStringCharSequence s) kNone).
Proof.
  intros E. destruct (strict_success s E) as (Hst & Hfin & Heq).
  rewrite Heq. rewrite ParseUnpacked_string.
  pose proof (final_checks_error_None _ _ Hfin) as Hl.
  rewrite (string_loop_strict_any options s [] initial_locals Hl).
  destruct (string_loop kNone initial_locals [] s) as [l q].
  cbn [fst] in *. rewrite Hst.
  rewrite (final_checks_strict_any options l Hfin). reflexivity.
Qed.

Lemma Value_inv (Prec : Z) (policy : RoundPolicy) (options : Z)
    (parsed : ParseUnpackedResult) (d : Decimal) :
  of_ParseResult (Parse_pack Prec policy options parsed) = Value d ->
  error parsed = None
  /\ (before parsed >=? div64 kMaxInt64 (kPow10 Prec)) = false
  /\ negb (has options kAllowRounding) && (decimal_digits parsed >? Prec)
     = false
  /\ FromUnpacked Prec policy
       (if is_negative parsed then neg64 (before parsed) else before parsed)
       (if is_negative parsed then neg64 (after parsed) else after parsed)
       (decimal_digits parsed) = Some d.
Proof.
  unfold Parse_pack.
  destruct (error parsed) as [e|]; [intros E; discriminate E|].
  destruct (before parsed >=? div64 kMaxInt64 (kPow10 Prec));
    [intros E; discriminate E|].
  destruct (negb (has options kAllowRounding) && (decimal_digits parsed >? Prec));
    [intros E; discriminate E|].
  destruct (is_negative parsed);
    match goal with
    | |- context [FromUnpacked ?P ?p ?b ?a ?n] =>
        destruct (FromUnpacked P p b a n) as [d'|]
    end; cbn; intros E; inversion E; auto.
Qed.

(** X19. The parse options only relax the parser: a string that the strict
    constructor [Decimal(std::string_view)] accepts is parsed to the same
    decimal under every set of options, in particular by
    [FromStringPermissive]. *)
Theorem strict_accepts_under_any_options (Prec : Z) (policy : RoundPolicy)
    (s : list ascii) (d : Decimal) :
  Decimal_of_string Prec policy s = Value d ->
  (forall options,
      of_ParseResult
        (fst (Parse Prec policy (MakeStringCharSequence s) options))
      = Value d)
  /\ FromStringPermissive Prec policy s = Value d.
Proof.
  intros Hv.
  assert (Hall : forall options,
             of_ParseResult
               (fst (Parse Prec policy (MakeStringCharSequence s) options))
             = Value d).
  { intros options. unfold Decimal_of_string in Hv.
    rewrite Parse_fst in *.
    destruct (Value_inv _ _ _ _ _ Hv) as (He & Hb & Hr & Hd).
    rewrite (ParseUnpacked_strict_any options s He).
    rewrite has_kNone in Hr. cbn [negb andb] in Hr.
    unfold Parse_pack. rewrite He, Hb, Hr, andb_false_r.
    destruct (is_negative _); rewrite Hd; reflexivity. }
  split; [exact Hall|]. apply Hall.
Qed.


Lemma strict_accepts_under_any_options_witness :
  Decimal_of_string 2 Def (chars "-12.5") = Value (FromUnbiased (-1250))
  /\ (forall options,
         of_ParseResult
           (fst (Parse 2 Def (MakeStringCharSequence (chars "-12.5")) options))
         = Value (FromUnbiased (-1250)))
  /\ FromStringPermissive 2 Def (chars "-12.5") = Value (FromUnbiased (-1250)).
Proof.
  assert (H : Decimal_of_string 2 Def (chars "-12.5")
              = Value (FromUnbiased (-1250))) by (vm_compute; reflexivity).
  split; [exact H|].
  exact (strict_accepts_under_any_options 2 Def (chars "-12.5")
           (FromUnbiased (-1250)) H).
Defined.

(** ** The syntax the strict constructor accepts *)



Lemma nonzero_is_digit (c : ascii) : in_chars "1" "9" c = true -> is_digit c = true.
Proof. intros H. apply nonzero_digit_tests in H. tauto. Qed.

Lemma app_one_not_nil {A : Type} (xs : list A) (x : A) : xs ++ [x] <> [].
Proof. destruct xs; discriminate. Qed.

Lemma strict_progress_step (pre : list ascii) (c : ascii) (l : Locals) :
  strict_progress pre l ->
  strict_progress (pre ++ [c]) (parse_step kNone c l).
Proof.
  intros Hp E. pose proof (error_sticky _ _ _ E) as E0.
  specialize (Hp E0). revert E Hp.
  destruct l as [b a n p s e bc ac]. cbn [l_error] in E0. subst e.
  destruct s; proj_cbn; run_step; rewrite ?has_kNone; cbn [andb negb].
  - (* kSign *)
    intros E (-> & -> & ->). revert E. cbn [app].
    destruct (char_eqb c "-") eqn:Hm.
    { apply char_eqb_eq in Hm. subst c. proj_cbn. auto. }
    destruct (char_eqb c "+") eqn:Hpl.
    { apply char_eqb_eq in Hpl. subst c. proj_cbn. auto. }
    destruct (char_eqb c "0") eqn:Hz.
    { apply char_eqb_eq in Hz. subst c. proj_cbn. intros _.
      split; [reflexivity|]. exists [], ["0"%char].
      repeat split; try (left; reflexivity); try discriminate.
      constructor; [reflexivity | constructor]. }
    destruct (in_chars "1" "9" c) eqn:Hd.
    { proj_cbn. intros _. split; [reflexivity|]. exists [], [c].
      repeat split; try (left; reflexivity); try discriminate.
      constructor; [apply nonzero_is_digit, Hd | constructor]. }
    destruct (char_eqb c dec_point); [proj_cbn; intros E; discriminate E|].
    destruct (IsSpace c); proj_cbn; intros E; discriminate E.
  - (* kBeforeFirstDig *)
    intros E (Hs & -> & ->). revert E.
    assert (Hsign : sign_ok pre) by (unfold sign_ok; tauto).
    assert (Hne : [c] <> []) by discriminate.
    destruct (char_eqb c "0") eqn:Hz.
    { apply char_eqb_eq in Hz. subst c. proj_cbn. intros _.
      split; [reflexivity|]. exists pre, ["0"%char].
      repeat split; try assumption.
      constructor; [reflexivity | constructor]. }
    destruct (in_chars "1" "9" c) eqn:Hd.
    { proj_cbn. intros _. split; [reflexivity|]. exists pre, [c].
      repeat split; try assumption.
      constructor; [apply nonzero_is_digit, Hd | constructor]. }
    destruct (char_eqb c dec_point); proj_cbn; intros E; discriminate E.
  - (* kLeadingZeros *)
    intros E (-> & sign & digits & -> & Hsign & Hne & Hds). revert E.
    destruct (char_eqb c "0") eqn:Hz.
    { apply char_eqb_eq in Hz. subst c. proj_cbn. intros _.
      split; [reflexivity|]. exists sign, (digits ++ ["0"%char]).
      rewrite app_assoc. repeat split; try assumption.
      - apply app_one_not_nil.
      - apply Forall_app. split; [exact Hds|].
        constructor; [reflexivity | constructor]. }
    destruct (in_chars "1" "9" c) eqn:Hd.
    { proj_cbn. intros _. split; [reflexivity|]. exists sign, (digits ++ [c]).
      rewrite app_assoc. repeat split; try assumption.
      - apply app_one_not_nil.
      - apply Forall_app. split; [exact Hds|].
        constructor; [apply nonzero_is_digit, Hd | constructor]. }
    destruct (char_eqb c dec_point) eqn:Hdot; proj_cbn; intros _; [|exact I].
    apply char_eqb_eq in Hdot. subst c.
    exists sign, digits, []. rewrite <- app_assoc.
    repeat split; try assumption. constructor.
  - (* kBeforeDec *)
    intros E (-> & sign & digits & -> & Hsign & Hne & Hds). revert E.
    destruct (in_chars "0" "9" c) eqn:Hd.
    { destruct (bc <? 18); proj_cbn; [|intros E; discriminate E].
      intros _. split; [reflexivity|]. exists sign, (digits ++ [c]).
      rewrite app_assoc. repeat split; try assumption.
      - apply app_one_not_nil.
      - apply Forall_app. split; [exact Hds|].
        constructor; [exact Hd | constructor]. }
    destruct (char_eqb c dec_point) eqn:Hdot; proj_cbn; intros _; [|exact I].
    apply char_eqb_eq in Hdot. subst c.
    exists sign, digits, []. rewrite <- app_assoc.
    repeat split; try assumption. constructor.
  - (* kAfterDec *)
    intros E (sign & digits & more & -> & Hsign & Hne & Hds & Hms & Hac).
    revert E.
    destruct (in_chars "0" "9" c) eqn:Hd.
    { destruct (ac <? 18); proj_cbn.
      - intros _. exists sign, digits, (more ++ [c]).
        rewrite <- !app_assoc. cbn [app]. repeat split; try assumption.
        + apply Forall_app. split; [exact Hms|].
          constructor; [exact Hd | constructor].
        + intros Hx. destruct (app_one_not_nil _ _ Hx).
      - destruct (code c >=? code "5"); proj_cbn; intros E; discriminate E. }
    destruct (ac =? 0); proj_cbn; intros E; [discriminate E | exact I].
  - (* kIgnoringAfterDec *)
    intros _ [].
  - (* kEnd *)
    intros _ _. exact I.
Qed.

Lemma strict_progress_string_loop :
  forall (text seen : list ascii) (l : Locals),
    strict_progress (rev seen) l ->
    is_kEnd (l_state (fst (string_loop kNone l seen text))) = false ->
    strict_progress (rev seen ++ until_NUL text)
      (fst (string_loop kNone l seen text)).
Proof.
  induction text as [|c rest IH]; intros seen l Hp Hk;
    cbn [string_loop until_NUL] in *.
  - rewrite app_nil_r. exact Hp.
  - destruct (is_kEnd (l_state l)) eqn:Hl; [cbn [fst] in Hk; congruence|].
    destruct (char_eqb c NUL).
    { rewrite app_nil_r. exact Hp. }
    replace (rev seen ++ c :: until_NUL rest)
      with (rev (c :: seen) ++ until_NUL rest)
      by (cbn [rev]; rewrite <- app_assoc; reflexivity).
    apply IH; [|exact Hk]. cbn [rev]. apply strict_progress_step, Hp.
Qed.

Lemma strict_progress_initial : strict_progress [] initial_locals.
Proof. intros _. cbn. auto. Qed.

Lemma strict_success_matches (s : list ascii) :
  error (fst (ParseUnpacked (MakeStringCharSequence s) kNone)) = None ->
  matches_strict (until_NUL s).
Proof.
  intros E. destruct (strict_success s E) as (Hst & Hfin & _).
  pose proof (strict_progress_string_loop s [] initial_locals
                strict_progress_initial Hst) as Hp.
  cbn [rev app] in Hp.
  pose proof (final_checks_error_None _ _ Hfin) as Hl.
  specialize (Hp Hl). revert Hfin Hp.
  destruct (fst (string_loop kNone initial_locals [] s))
    as [b a n p st e bc ac].
  cbn [l_error l_state] in *. subst e.
  unfold final_checks, no_error. proj_cbn. rewrite has_kNone.
  cbn [andb negb].
  destruct st; proj_cbn.
  - intros E1 (_ & -> & ->). cbn in E1. discriminate E1.
  - intros E1 (_ & -> & ->). cbn in E1. discriminate E1.
  - intros _ (_ & sign & digits & -> & Hsign & Hne & Hds).
    exists sign, digits, []. rewrite app_nil_r.
    repeat split; try assumption. left. reflexivity.
  - intros _ (_ & sign & digits & -> & Hsign & Hne & Hds).
    exists sign, digits, []. rewrite app_nil_r.
    repeat split; try assumption. left. reflexivity.
  - intros E1 (sign & digits & more & -> & Hsign & Hne & Hds & Hms & Hac).
    exists sign, digits, (dec_point :: more).
    repeat split; try assumption. right. exists more.
    repeat split; try assumption. intros Hm. rewrite (Hac Hm) in E1.
    cbn [Z.eqb] in E1. rewrite !andb_true_r in E1.
    destruct (bc =? 0); cbn in E1; discriminate E1.
  - intros _ [].
  - discriminate Hst.
Qed.

Lemma digit_cases (c : ascii) :
  is_digit c = true ->
  (char_eqb c "0" = true /\ in_chars "1" "9" c = false)
  \/ (char_eqb c "0" = false /\ in_chars "1" "9" c = true).
Proof.
  intros Hd. destruct (char_eqb c "0") eqn:Hz.
  - left. split; [reflexivity|]. revert Hz. clear. intros Hz. char_tests.
  - right. split; [reflexivity|]. revert Hd Hz. clear. intros Hd Hz.
    char_tests.
Qed.

Lemma first_digit_step (c : ascii) (l : Locals) st n :
  view l = (st, None, n, 0, 0, 0, 0) ->
  st = kSign \/ st = kBeforeFirstDig ->
  is_digit c = true ->
  in_integer_part (parse_step kNone c l).
Proof.
  intros Hv Hst Hd. unfold in_integer_part, range_error.
  destruct (digit_cases c Hd) as [[Hz _] | [_ Hnz]].
  - apply char_eqb_eq in Hz. subst c.
    pose proof (step_first_zero kNone l st n 0 0 0 0 Hv Hst) as Hv'.
    remember (parse_step kNone "0" l) as l'. clear Heql'.
    open_view l'. cbn. repeat split; auto; lia.
  - pose proof (step_first_digit kNone l c st n 0 0 0 0 Hv Hst Hnz) as Hv'.
    remember (parse_step kNone c l) as l'. clear Heql'.
    open_view l'. cbn. repeat split; auto; lia.
Qed.

Lemma integer_digit_step (c : ascii) (l : Locals) :
  in_integer_part l -> is_digit c = true ->
  in_integer_part (parse_step kNone c l).
Proof.
  unfold in_integer_part. destruct l as [b a n p s e bc ac]. proj_cbn.
  intros (Hst & He & Hbc & Hac) Hd.
  destruct Hst as [-> | ->]; destruct e as [e|]; run_step.
  1, 2: destruct (digit_cases c Hd) as [[Hz _] | [Hz Hnz]];
      rewrite Hz, ?Hnz; proj_cbn; repeat split; auto.
  all: unfold is_digit in Hd; rewrite Hd;
    split_ifs; proj_cbn; repeat split; auto; try lia;
      unfold range_error; auto.
Qed.

Lemma dec_point_tests :
  char_eqb dec_point "0" = false /\ in_chars "1" "9" dec_point = false
  /\ in_chars "0" "9" dec_point = false
  /\ char_eqb dec_point dec_point = true.
Proof. repeat split; reflexivity. Qed.

Lemma dec_point_step (l : Locals) :
  in_integer_part l -> in_fraction false (parse_step kNone dec_point l).
Proof.
  unfold in_integer_part, in_fraction. destruct l as [b a n p s e bc ac].
  proj_cbn. intros (Hst & He & Hbc & Hac).
  destruct dec_point_tests as (T1 & T2 & T3 & T4).
  destruct Hst as [-> | ->]; destruct e as [e|]; run_step;
    rewrite ?T1, ?T2, ?T3, ?T4; proj_cbn; repeat split; auto;
    intros E; discriminate E.
Qed.

Lemma fraction_digit_step (started : bool) (c : ascii) (l : Locals) :
  in_fraction started l -> is_digit c = true ->
  in_fraction true (parse_step kNone c l).
Proof.
  unfold in_fraction. destruct l as [b a n p s e bc ac]. proj_cbn.
  intros (Hst & He & Hbc & Hac & Hs) Hd. unfold is_digit in Hd.
  destruct Hst as [-> | ->]; destruct e as [e|]; run_step;
    rewrite Hd, ?has_kNone; cbn [andb negb].
  1, 2: destruct (Z.ltb_spec ac 18);
    split_ifs; proj_cbn; repeat split; auto; try lia;
    unfold range_error; auto; intros _ E; discriminate E.
  all: repeat split; auto; intros _ E; discriminate E.
Qed.

Lemma in_integer_part_not_kEnd (l : Locals) :
  in_integer_part l -> is_kEnd (l_state l) = false.
Proof. intros ([E | E] & _); rewrite E; reflexivity. Qed.

Lemma in_fraction_not_kEnd (started : bool) (l : Locals) :
  in_fraction started l -> is_kEnd (l_state l) = false.
Proof. intros ([E | E] & _); rewrite E; reflexivity. Qed.

Lemma reads_integer_part :
  forall (digits : list ascii) (l : Locals),
    Forall (fun c => is_digit c = true) digits ->
    in_integer_part l ->
    exists l', reads kNone l digits l' /\ in_integer_part l'.
Proof.
  induction digits as [|c rest IH]; intros l Hds Hl.
  - exists l. split; [constructor | exact Hl].
  - inversion Hds as [|? ? Hc Hrest]; subst.
    destruct (IH (parse_step kNone c l) Hrest
                (integer_digit_step c l Hl Hc)) as (l' & Hr & Hl').
    exists l'. split; [|exact Hl'].
    constructor; [apply in_integer_part_not_kEnd, Hl
                 | apply digit_not_NUL, Hc | exact Hr].
Qed.

Lemma reads_fraction_part :
  forall (digits : list ascii) (l : Locals),
    Forall (fun c => is_digit c = true) digits ->
    in_fraction true l ->
    exists l', reads kNone l digits l' /\ in_fraction true l'.
Proof.
  induction digits as [|c rest IH]; intros l Hds Hl.
  - exists l. split; [constructor | exact Hl].
  - inversion Hds as [|? ? Hc Hrest]; subst.
    destruct (IH (parse_step kNone c l) Hrest
                (fraction_digit_step true c l Hl Hc)) as (l' & Hr & Hl').
    exists l'. split; [|exact Hl'].
    constructor; [apply (in_fraction_not_kEnd true), Hl
                 | apply digit_not_NUL, Hc | exact Hr].
Qed.

Lemma final_checks_well_formed (l : Locals) :
  in_integer_part l \/ in_fraction true l ->
  l_error (final_checks kNone l) = l_error l.
Proof.
  unfold in_integer_part, in_fraction, final_checks, no_error.
  destruct l as [b a n p s e bc ac]. proj_cbn. rewrite has_kNone.
  cbn [negb]. intros H.
  destruct e as [e|]; cbn [andb]; [reflexivity|].
  assert (Hbc : (bc =? 0) = false).
  { apply Z.eqb_neq. destruct H as [H | H]; lia. }
  rewrite Hbc. cbn [andb]. proj_cbn.
  destruct H as [([-> | ->] & _) | ([-> | ->] & _ & _ & _ & Hs)];
    cbn [andb]; try reflexivity.
  assert (Hac : (ac =? 0) = false).
  { apply Z.eqb_neq. specialize (Hs eq_refl eq_refl). lia. }
  rewrite Hac. reflexivity.
Qed.

Lemma matches_strict_range_error (text : list ascii) :
  matches_strict text ->
  range_error (error (fst (ParseUnpacked (MakeStringCharSequence text) kNone))).
Proof.
  intros (sign & digits & fraction & -> & Hsign & Hne & Hds & Hfr).
  destruct (reads_sign kNone sign initial_locals _ _ _ _ _
              initial_view Hsign) as (l1 & st & n' & Hr1 & Hv1 & Hst1).
  destruct digits as [|c ds]; [contradiction|].
  inversion Hds as [|? ? Hc Hrest]; subst.
  pose proof (first_digit_step c l1 st n' Hv1 Hst1 Hc) as Hi.
  destruct (reads_integer_part ds _ Hrest Hi) as (l2 & Hr2 & Hl2).
  assert (Hk1 : is_kEnd (l_state l1) = false).
  { rewrite (view_state _ _ _ _ _ _ _ _ Hv1).
    destruct Hst1 as [-> | ->]; reflexivity. }
  assert (Hrd : reads kNone initial_locals (sign ++ c :: ds) l2).
  { apply (reads_app _ _ _ _ _ _ Hr1).
    constructor; [exact Hk1 | apply digit_not_NUL, Hc | exact Hr2]. }
  destruct Hfr as [-> | (more & -> & Hmne & Hms)].
  - rewrite app_nil_r.
    rewrite (ParseUnpacked_reads kNone _ l2 Hrd
               (in_integer_part_not_kEnd _ Hl2)).
    unfold make_result. cbn [error].
    rewrite final_checks_well_formed by (left; exact Hl2).
    destruct Hl2 as (_ & He & _). exact He.
  - destruct more as [|m ms]; [contradiction|].
    inversion Hms as [|? ? Hm Hmrest]; subst.
    pose proof (dec_point_step l2 Hl2) as Hf0.
    pose proof (fraction_digit_step false m _ Hf0 Hm) as Hf1.
    destruct (reads_fraction_part ms _ Hmrest Hf1) as (l3 & Hr3 & Hl3).
    assert (Hall : reads kNone initial_locals
                     (sign ++ (c :: ds) ++ dec_point :: m :: ms) l3).
    { rewrite app_assoc. apply (reads_app _ _ _ _ _ _ Hrd).
      constructor; [apply in_integer_part_not_kEnd, Hl2 | reflexivity|].
      constructor; [apply (in_fraction_not_kEnd false), Hf0
                   | apply digit_not_NUL, Hm | exact Hr3]. }
    rewrite (ParseUnpacked_reads kNone _ l3 Hall
               (in_fraction_not_kEnd _ _ Hl3)).
    unfold make_result. cbn [error].
    rewrite final_checks_well_formed by (right; exact Hl3).
    destruct Hl3 as (_ & He & _). exact He.
Qed.

(** X20. [Decimal(std::string_view)] and the regular expression
    [[+-]?\d+(\.\d+)?] of its documentation: every string the constructor
    accepts matches the expression (up to its first ['\0']), and on a string
    that matches it the constructor can only fail with [kOverflow] or
    [kRounding], never with a syntax error. *)
Theorem Decimal_of_string_syntax (Prec : Z) (policy : RoundPolicy)
    (text : list ascii) :
  (forall d, Decimal_of_string Prec policy text = Value d ->
             matches_strict (until_NUL text))
  /\ (matches_strict text ->
      forall position reason,
        Decimal_of_string Prec policy text = ParseError position reason ->
        reason = kOverflow \/ reason = kRounding).
Proof.
  split.
  - intros d Hv. unfold Decimal_of_string in Hv. rewrite Parse_fst in Hv.
    destruct (Value_inv _ _ _ _ _ Hv) as (He & _).
    apply strict_success_matches, He.
  - intros Hm position reason Hv.
    pose proof (matches_strict_range_error text Hm) as Hr.
    unfold Decimal_of_string in Hv. rewrite Parse_fst in Hv.
    unfold Parse_pack in Hv.
    destruct (error (fst (ParseUnpacked (MakeStringCharSequence text) kNone)))
      as [e|].
    + cbn in Hv. inversion Hv; subst.
      destruct Hr as [Hr | [Hr | Hr]]; inversion Hr; auto.
    + destruct (before _ >=? _); [cbn in Hv; inversion Hv; auto|].
      destruct (negb (has kNone kAllowRounding) && _);
        [cbn in Hv; inversion Hv; auto|].
      destruct (is_negative _);
        match type of Hv with
        | context [FromUnpacked ?P ?p ?b ?a ?n] =>
            destruct (FromUnpacked P p b a n)
        end; cbn in Hv; discriminate Hv.
Qed.

Lemma Decimal_of_string_syntax_witness :
  Decimal_of_string 2 Def (chars "-12.5") = Value (FromUnbiased (-1250))
  /\ matches_strict (until_NUL (chars "-12.5")).
Proof.
  assert (H : Decimal_of_string 2 Def (chars "-12.5")
              = Value (FromUnbiased (-1250))) by (vm_compute; reflexivity).
  split; [exact H|].
  exact (proj1 (Decimal_of_string_syntax 2 Def (chars "-12.5"))
           (FromUnbiased (-1250)) H).
Defined.

(** ** Characters after the number *)

Lemma string_loop_to_reads (options : Z) :
  forall (text seen : list ascii) (l : Locals),
    Forall (fun c => char_eqb c NUL = false) text ->
    is_kEnd (l_state (fst (string_loop options l seen text))) = false ->
    reads options l text (fst (string_loop options l seen text)).
Proof.
  induction text as [|c rest IH]; intros seen l Hn Hk; cbn [string_loop] in *.
  - constructor.
  - inversion Hn as [|? ? Hc Hrest]; subst.
    destruct (is_kEnd (l_state l)) eqn:Hl; [cbn [fst] in Hk; congruence|].
    rewrite Hc in *. constructor; [exact Hl | exact Hc|].
    apply IH; assumption.
Qed.

Lemma string_loop_kEnd (options : Z) (l : Locals) (seen text : list ascii) :
  is_kEnd (l_state l) = true ->
  string_loop options l seen text
  = (l, {| consumed_ := seen; current_ := text |}).
Proof. intros Hk. destruct text; cbn [string_loop]; rewrite ?Hk; reflexivity. Qed.

Lemma parse_step_position (options : Z) (c : ascii) (l : Locals) :
  l_error l = None ->
  l_position (parse_step options c l) = l_position l + 1.
Proof.
  destruct l as [b a n p s e bc ac]. proj_cbn. intros ->.
  destruct s; run_step; cbn [andb negb]; rewrite ?andb_true_r;
    split_ifs; reflexivity.
Qed.

Lemma reads_position (options : Z) (l l' : Locals) (text : list ascii) :
  reads options l text l' -> l_error l' = None ->
  l_error l = None
  /\ l_position l' = l_position l + Z.of_nat (List.length text).
Proof.
  induction 1 as [l | l l' c text Hk Hc Hr IH]; intros E.
  - split; [exact E|]. cbn [List.length]. lia.
  - destruct (IH E) as [E1 Hp]. pose proof (error_sticky _ _ _ E1) as E0.
    split; [exact E0|].
    rewrite Hp, parse_step_position by exact E0.
    cbn [List.length]. lia.
Qed.

Lemma end_step (pre : list ascii) (c : ascii) (l : Locals) :
  strict_progress pre l ->
  l_error (final_checks kNone l) = None ->
  is_kEnd (l_state l) = false ->
  ends_number c ->
  parse_step kNone c l = set_state kEnd (set_position (l_position l + 1) l)
  /\ final_checks kNone l = l.
Proof.
  intros Hp Hf Hk [Hd Hdot].
  pose proof (final_checks_error_None _ _ Hf) as E0.
  specialize (Hp E0). revert Hp Hf Hk.
  assert (Hz : char_eqb c "0" = false).
  { destruct (char_eqb c "0") eqn:Hz; [|reflexivity].
    apply char_eqb_eq in Hz. subst c. discriminate Hd. }
  assert (Hnz : in_chars "1" "9" c = false).
  { destruct (in_chars "1" "9" c) eqn:Hnz; [|reflexivity].
    apply nonzero_is_digit in Hnz. congruence. }
  unfold is_digit in Hd.
  destruct l as [b a n p s e bc ac]. cbn [l_error] in E0. subst e.
  unfold final_checks, no_error. proj_cbn. rewrite has_kNone.
  cbn [andb negb].
  destruct s; proj_cbn.
  - intros (_ & -> & ->) E. discriminate E.
  - intros (_ & -> & ->) E. discriminate E.
  - intros _ Hf _. run_step. rewrite Hz, Hnz, Hdot.
    destruct ((bc =? 0) && (ac =? 0)); [discriminate Hf|].
    split; reflexivity.
  - intros _ Hf _. run_step. rewrite Hd, Hdot.
    destruct ((bc =? 0) && (ac =? 0)); [discriminate Hf|].
    split; reflexivity.
  - intros _ Hf _. run_step. rewrite Hd, ?has_kNone. cbn [andb negb].
    destruct ((bc =? 0) && (ac =? 0)); [discriminate Hf|].
    cbn [l_error l_state l_after_digit_count andb] in Hf. proj_cbn.
    cbn [andb].
    destruct (ac =? 0); [cbn in Hf; discriminate Hf|]. split; reflexivity.
  - intros [].
  - intros _ _ E. discriminate E.
Qed.




(** [ParseUnpacked] on a text whose main loop reads [t] and then meets a
    character that ends the number. *)
Lemma ParseUnpacked_stops (options : Z) (t rest : list ascii) (c : ascii)
    (l : Locals) :
  reads options initial_locals t l ->
  is_kEnd (l_state l) = false ->
  char_eqb c NUL = false ->
  is_kEnd (l_state (parse_step options c l)) = true ->
  ParseUnpacked (MakeStringCharSequence (t ++ c :: rest)) options
  = let l1 := parse_step options c l in
    let q := {| consumed_ := rev t; current_ := c :: rest |} in
    let '(l2, q2) :=
      if no_error l1 && negb (has options kAllowTrailingJunk) then
        string_junk_loop
          (set_position
             (l_position
                (if negb (has options kAllowSpaces)
                 then set_error kSpace l1 else l1) - 1)
             (if negb (has options kAllowSpaces)
              then set_error kSpace l1 else l1))
          (rev t) (c :: rest)
      else (l1, q) in
    (make_result (final_checks options l2), q2).
Proof.
  intros Hr Hk Hc Hend.
  unfold ParseUnpacked, MakeStringCharSequence.
  rewrite main_loop_string by (cbn; lia).
  rewrite (string_loop_reads options _ _ _ Hr [] (c :: rest)).
  rewrite app_nil_r. cbn [string_loop]. rewrite Hk, Hc.
  rewrite (string_loop_kEnd options _ _ _ Hend).
  unfold scan_trailing. rewrite Hend.
  cbn [Unget StringCharSequence_CharSequence StringCharSequence_Unget
         consumed_ current_].
  cbv zeta.
  destruct (no_error (parse_step options c l)
            && negb (has options kAllowTrailingJunk)); [|reflexivity].
  rewrite junk_loop_string by (cbn; lia). reflexivity.
Qed.



(** ** A sign in front of the number *)

Lemma eqm64_refl (x : Z) : eqm64 x x.
Proof. exists 0. lia. Qed.

Lemma eqm64_trans (x y z : Z) : eqm64 x y -> eqm64 y z -> eqm64 x z.
Proof. intros [k ->] [j ->]. exists (k + j). ring. Qed.

Lemma eqm64_add (x x' y y' : Z) :
  eqm64 x x' -> eqm64 y y' -> eqm64 (x + y) (x' + y').
Proof. intros [k ->] [j ->]. exists (k + j). ring. Qed.

Lemma eqm64_mul (x x' y y' : Z) :
  eqm64 x x' -> eqm64 y y' -> eqm64 (x * y) (x' * y').
Proof.
  intros [k ->] [j ->]. exists (x' * j + k * y' + k * j * 2 ^ 64). ring.
Qed.

Lemma eqm64_opp (x x' : Z) : eqm64 x x' -> eqm64 (- x) (- x').
Proof. intros [k ->]. exists (- k). ring. Qed.

Lemma eqm64_wrap64 (x : Z) : eqm64 (wrap64 x) x.
Proof.
  exists (- ((x + 2 ^ 63) / 2 ^ 64)). unfold wrap64.
  pose proof (Z.div_mod (x + 2 ^ 63) (2 ^ 64) ltac:(lia)). lia.
Qed.

Lemma wrap64_eqm64 (x y : Z) : eqm64 x y -> wrap64 x = wrap64 y.
Proof.
  intros [k ->]. unfold wrap64.
  replace (y + k * 2 ^ 64 + 2 ^ 63) with (y + 2 ^ 63 + k * 2 ^ 64) by ring.
  rewrite Z.mod_add by lia. reflexivity.
Qed.

Lemma eqm64_sym (x y : Z) : eqm64 x y -> eqm64 y x.
Proof. intros [k ->]. exists (- k). ring. Qed.

(** [eqm64 e e'] where [e'] is [e] without its wrap-arounds. *)
Ltac strip_wraps :=
  repeat first
    [ apply eqm64_refl
    | eapply eqm64_trans; [apply eqm64_wrap64|]
    | apply eqm64_add
    | apply eqm64_mul
    | apply eqm64_opp ].

Lemma FromUnpacked2_neg (Prec : Z) (b a f : Z) :
  FromUnpacked2 Prec (neg64 b) (mul64 (neg64 a) f)
  = operator_neg (FromUnpacked2 Prec b (mul64 a f)).
Proof.
  unfold FromUnpacked2, operator_neg.
  destruct (Prec >? 0); cbn [value_]; f_equal;
    unfold add64, mul64, neg64; apply wrap64_eqm64.
  - apply (eqm64_trans _ (- b * kDecimalFactor Prec + - a * f)).
    + strip_wraps.
    + apply eqm64_sym.
      replace (- b * kDecimalFactor Prec + - a * f)
        with (- (b * kDecimalFactor Prec + a * f)) by ring.
      strip_wraps.
  - apply (eqm64_trans _ (- b * kDecimalFactor Prec)).
    + strip_wraps.
    + apply eqm64_sym.
      replace (- b * kDecimalFactor Prec)
        with (- (b * kDecimalFactor Prec)) by ring.
      strip_wraps.
Qed.

(** One turn of the main loop, without the blow-up of unfolding the
    setters one inside the other. *)
Ltac step_cbn :=
  cbn [parse_step parse_switch no_error kMaxDecimalDigits
         set_position set_state set_error set_before set_after
         set_is_negative set_before_digit_count set_after_digit_count
         l_state l_error l_is_negative l_before l_before_digit_count
         l_after l_after_digit_count l_position andb negb].

Lemma after_sign_step (negative : bool) (options : Z) (c : ascii)
    (l : Locals) :
  l_state l <> kSign ->
  parse_step options c (after_sign negative l)
  = after_sign negative (parse_step options c l)
  /\ l_state (parse_step options c l) <> kSign
  /\ l_is_negative (parse_step options c l) = l_is_negative l.
Proof.
  unfold after_sign. destruct l as [b a n p s e bc ac]. cbn [l_state].
  intros Hs.
  destruct s; [contradiction | ..]; destruct e as [e|]; step_cbn;
    rewrite ?andb_true_r, ?andb_false_r;
    split_ifs; step_cbn;
    (split; [reflexivity | split; [discriminate | reflexivity]]).
Qed.

Lemma after_sign_string_loop (negative : bool) (options : Z) :
  forall (text seen seen' : list ascii) (l : Locals),
    l_state l <> kSign ->
    fst (string_loop options (after_sign negative l) seen' text)
    = after_sign negative (fst (string_loop options l seen text))
    /\ l_is_negative (fst (string_loop options l seen text))
       = l_is_negative l.
Proof.
  induction text as [|c rest IH]; intros seen seen' l Hs;
    cbn [string_loop].
  - split; reflexivity.
  - change (l_state (after_sign negative l)) with (l_state l).
    destruct (is_kEnd (l_state l)); [split; reflexivity|].
    destruct (char_eqb c NUL); [split; reflexivity|].
    destruct (after_sign_step negative options c l Hs) as (E & Hs' & Hn).
    rewrite E.
    destruct (IH (c :: seen) (c :: seen') _ Hs') as [E1 E2].
    rewrite E1, E2, Hn. split; reflexivity.
Qed.

Lemma final_checks_after_sign (negative : bool) (options : Z) (l : Locals) :
  final_checks options (after_sign negative l)
  = after_sign negative (final_checks options l).
Proof.
  destruct l as [b a n p s e bc ac].
  unfold final_checks, after_sign, no_error, set_is_negative, set_position,
    set_error.
  proj_cbn.
  destruct e as [e|]; cbn [andb]; [reflexivity|].
  destruct ((bc =? 0) && (ac =? 0)); proj_cbn; cbn [andb]; [reflexivity|].
  split_ifs; reflexivity.
Qed.

Lemma sign_then_digit (options : Z) (c : ascii) :
  is_digit c = true ->
  parse_step options c (parse_step options "-" initial_locals)
  = after_sign true (parse_step options c initial_locals)
  /\ parse_step options c (parse_step options "+" initial_locals)
     = after_sign false (parse_step options c initial_locals)
  /\ l_state (parse_step options c initial_locals) <> kSign
  /\ l_is_negative (parse_step options c initial_locals) = false.
Proof.
  intros Hd. unfold after_sign, initial_locals.
  assert (Hm : char_eqb c "-" = false) by (revert Hd; clear; intros; char_tests).
  assert (Hp : char_eqb c "+" = false) by (revert Hd; clear; intros; char_tests).
  change (parse_step options "-"
            {| l_before := 0; l_after := 0; l_is_negative := false;
               l_position := -1; l_state := kSign; l_error := None;
               l_before_digit_count := 0; l_after_digit_count := 0 |})
    with {| l_before := 0; l_after := 0; l_is_negative := true;
            l_position := -1 + 1; l_state := kBeforeFirstDig;
            l_error := None;
            l_before_digit_count := 0; l_after_digit_count := 0 |}.
  change (parse_step options "+"
            {| l_before := 0; l_after := 0; l_is_negative := false;
               l_position := -1; l_state := kSign; l_error := None;
               l_before_digit_count := 0; l_after_digit_count := 0 |})
    with {| l_before := 0; l_after := 0; l_is_negative := false;
            l_position := -1 + 1; l_state := kBeforeFirstDig;
            l_error := None;
            l_before_digit_count := 0; l_after_digit_count := 0 |}.
  run_step. rewrite Hm, Hp.
  destruct (digit_cases c Hd) as [[Hz _] | [Hz Hnz]]; rewrite Hz, ?Hnz;
    proj_cbn; repeat split; discriminate.
Qed.

(** X22. If the strict constructor accepts a string that starts with a
    digit, it accepts the string with ['-'] in front and yields the negated
    decimal ([operator-()]), and it accepts the string with ['+'] in front
    and yields the same decimal. *)
Theorem sign_prefix (Prec : Z) (policy : RoundPolicy)
    (c : ascii) (rest : list ascii) (d : Decimal) :
  is_digit c = true ->
  Decimal_of_string Prec policy (c :: rest) = Value d ->
  Decimal_of_string Prec policy ("-"%char :: c :: rest)
  = Value (operator_neg d)
  /\ Decimal_of_string Prec policy ("+"%char :: c :: rest) = Value d.
Proof.
  intros Hd Hv.
  unfold Decimal_of_string in Hv. rewrite Parse_fst in Hv.
  destruct (Value_inv _ _ _ _ _ Hv) as (He & Hb & Hro & Hfu).
  destruct (strict_success _ He) as (Hst & Hfin & Heq).
  destruct (sign_then_digit kNone c Hd) as (Em & Ep & Hs1 & Hn1).
  pose proof (digit_not_NUL c Hd) as Hc.
  cbn [string_loop initial_locals l_state is_kEnd] in Hst, Hfin, Heq.
  fold initial_locals in Hst, Hfin, Heq. rewrite Hc in Hst, Hfin, Heq.
  set (l1 := parse_step kNone c initial_locals) in *.
  set (l := fst (string_loop kNone l1 [c] rest)) in *.
  assert (Hneg : l_is_negative l = false).
  { unfold l.
    destruct (after_sign_string_loop true kNone rest [c] [c] l1 Hs1)
      as [_ E].
    rewrite E. exact Hn1. }
  rewrite Heq in Hb, Hro, Hfu. unfold make_result in Hb, Hro, Hfu.
  cbn [before after decimal_digits is_negative] in Hb, Hro, Hfu.
  assert (Hneg' : l_is_negative (final_checks kNone l) = false).
  { rewrite <- Hneg. unfold final_checks. split_ifs; reflexivity. }
  rewrite Hneg' in Hfu.
  assert (Hrun : forall (negative : bool) (s : ascii),
             parse_step kNone c (parse_step kNone s initial_locals)
             = after_sign negative l1 ->
             char_eqb s NUL = false ->
             fst (ParseUnpacked (MakeStringCharSequence (s :: c :: rest)) kNone)
             = make_result (after_sign negative (final_checks kNone l))).
  { intros negative s Es Hs. rewrite ParseUnpacked_string.
    cbn [string_loop initial_locals l_state is_kEnd].
    fold initial_locals. rewrite Hs.
    assert (Hk : is_kEnd (l_state (parse_step kNone s initial_locals))
                 = false).
    { destruct (is_kEnd (l_state (parse_step kNone s initial_locals))) eqn:K;
        [|reflexivity].
      assert (K' : is_kEnd (l_state (after_sign negative l1)) = true).
      { rewrite <- Es.
        destruct (parse_step kNone s initial_locals)
          as [b0 a0 n0 p0 s0 e0 bc0 ac0].
        cbn [l_state] in K. destruct s0; try discriminate K.
        destruct e0; reflexivity. }
      change (l_state (after_sign negative l1)) with (l_state l1) in K'.
      pose proof (string_loop_kEnd kNone l1 [c] rest K') as Hx.
      unfold l in Hst. rewrite Hx in Hst. cbn [fst] in Hst. congruence. }
    rewrite Hk, Hc, Es.
    destruct (after_sign_string_loop negative kNone rest [c] [c; s] l1 Hs1)
      as [E _].
    destruct (string_loop kNone (after_sign negative l1) [c; s] rest)
      as [lm qm].
    cbn [fst] in E. subst lm. fold l.
    change (l_state (after_sign negative l)) with (l_state l).
    rewrite Hst. rewrite final_checks_after_sign. reflexivity. }
  assert (Hdirect : (decimal_digits
                       (make_result (final_checks kNone l)) <=? Prec) = true).
  { rewrite has_kNone in Hro. cbn [negb andb] in Hro.
    unfold make_result. cbn [decimal_digits].
    destruct (Z.gtb_spec (l_after_digit_count (final_checks kNone l)) Prec);
      [discriminate Hro|]. apply Z.leb_le. lia. }
  unfold make_result in Hdirect. cbn [decimal_digits] in Hdirect.
  split.
  - unfold Decimal_of_string. rewrite Parse_fst.
    rewrite (Hrun true "-"%char Em eq_refl).
    unfold Parse_pack, make_result, after_sign.
    cbn [error before after decimal_digits is_negative l_error l_before
           l_after l_after_digit_count l_is_negative set_is_negative
           set_position].
    rewrite Hfin, Hb, Hro.
    revert Hfu. unfold FromUnpacked. rewrite Hdirect.
    destruct (Pow10 (Prec - l_after_digit_count (final_checks kNone l)))
      as [factor|]; [|intros E; discriminate E].
    intros E. inversion E. rewrite FromUnpacked2_neg. reflexivity.
  - unfold Decimal_of_string. rewrite Parse_fst.
    rewrite (Hrun false "+"%char Ep eq_refl).
    unfold Parse_pack, make_result, after_sign.
    cbn [error before after decimal_digits is_negative l_error l_before
           l_after l_after_digit_count l_is_negative set_is_negative
           set_position].
    rewrite Hfin, Hb, Hro, Hfu. reflexivity.
Qed.

Lemma sign_prefix_witness :
  is_digit "1" = true
  /\ Decimal_of_string 2 Def ("1"%char :: chars "2.5")
     = Value (FromUnbiased 1250)
  /\ Decimal_of_string 2 Def ("-"%char :: "1"%char :: chars "2.5")
     = Value (operator_neg (FromUnbiased 1250))
  /\ Decimal_of_string 2 Def ("+"%char :: "1"%char :: chars "2.5")
     = Value (FromUnbiased 1250).
Proof.
  assert (H1 : is_digit "1" = true) by reflexivity.
  assert (H2 : Decimal_of_string 2 Def ("1"%char :: chars "2.5")
               = Value (FromUnbiased 1250)) by (vm_compute; reflexivity).
  split; [exact H1|]. split; [exact H2|].
  exact (sign_prefix 2 Def "1" (chars "2.5") (FromUnbiased 1250) H1 H2).
Defined.

(** ** Spaces around the number *)

Lemma view_step (options : Z) (c : ascii) (l1 l2 : Locals) :
  view l1 = view l2 ->
  view (parse_step options c l1) = view (parse_step options c l2).
Proof.
  destruct l1 as [b1 a1 n1 p1 s1 e1 bc1 ac1].
  destruct l2 as [b2 a2 n2 p2 s2 e2 bc2 ac2].
  unfold view at 1 2. proj_cbn. intros E. inversion E; subst. clear E.
  destruct s2; destruct e2 as [e2|]; run_step; cbn [andb negb];
    rewrite ?andb_true_r, ?andb_false_r; split_ifs; reflexivity.
Qed.

Lemma reads_view (options : Z) (l1 l1' : Locals) (text : list ascii) :
  reads options l1 text l1' ->
  forall l2, view l1 = view l2 ->
             exists l2', reads options l2 text l2' /\ view l1' = view l2'.
Proof.
  induction 1 as [l | l l' c text Hk Hc Hr IH]; intros l2 Hv.
  - exists l2. split; [constructor | exact Hv].
  - destruct (IH _ (view_step options c _ _ Hv)) as (l2' & Hr2 & Hv2).
    exists l2'. split; [|exact Hv2].
    constructor; [|exact Hc | exact Hr2].
    rewrite <- Hk. unfold view in Hv. inversion Hv. reflexivity.
Qed.

Lemma reads_strict_any (options : Z) (l l' : Locals) (text : list ascii) :
  reads kNone l text l' -> l_error l' = None -> reads options l text l'.
Proof.
  induction 1 as [l | l l' c text Hk Hc Hr IH]; intros E.
  - constructor.
  - destruct (reads_position _ _ _ _ Hr E) as [E1 _].
    constructor; [exact Hk | exact Hc|].
    rewrite (strict_step_any options c l E1). apply IH, E.
Qed.

Lemma final_checks_None (options : Z) (l : Locals) :
  l_error (final_checks options l) = None -> final_checks options l = l.
Proof.
  unfold final_checks, no_error. destruct l as [b a n p s e bc ac]. proj_cbn.
  destruct e as [e|]; cbn [andb]; [reflexivity|].
  destruct ((bc =? 0) && (ac =? 0)); proj_cbn; cbn [andb];
    [intros E; discriminate E|].
  destruct (match s with kAfterDec => true | _ => false end
            && negb (has options kAllowBoundaryDot) && (ac =? 0));
    [intros E; discriminate E | reflexivity].
Qed.

Lemma final_checks_view (options : Z) (l1 l2 : Locals) :
  view l1 = view l2 ->
  view (final_checks options l1) = view (final_checks options l2).
Proof.
  destruct l1 as [b1 a1 n1 p1 s1 e1 bc1 ac1].
  destruct l2 as [b2 a2 n2 p2 s2 e2 bc2 ac2].
  unfold view at 1 2. proj_cbn. intros E. inversion E; subst. clear E.
  unfold final_checks, no_error. proj_cbn.
  destruct e2 as [e2|]; cbn [andb]; [reflexivity|].
  destruct ((bc2 =? 0) && (ac2 =? 0)); proj_cbn; cbn [andb];
    [reflexivity|].
  split_ifs; reflexivity.
Qed.

Lemma string_junk_loop_spaces :
  forall (text seen : list ascii) (l : Locals),
    Forall (fun c => IsSpace c = true) text ->
    view (fst (string_junk_loop l seen text)) = view l.
Proof.
  induction text as [|c rest IH]; intros seen l Hs;
    cbn [string_junk_loop].
  - reflexivity.
  - inversion Hs as [|? ? Hc Hrest]; subst.
    rewrite (space_not_NUL c Hc), Hc. cbn [negb].
    rewrite IH by exact Hrest. reflexivity.
Qed.

Lemma view_state_error (l1 l2 : Locals) :
  view l1 = view l2 ->
  l_state l1 = l_state l2 /\ l_error l1 = l_error l2.
Proof. unfold view. intros E. inversion E. split; reflexivity. Qed.

Lemma view_number_of (l1 l2 : Locals) :
  view l1 = view l2 -> number_of l1 = number_of l2.
Proof. unfold view, number_of. intros E. inversion E. reflexivity. Qed.

Lemma Parse_pack_number_of (Prec : Z) (policy : RoundPolicy) (options : Z)
    (l1 l2 : Locals) :
  number_of l1 = number_of l2 -> l_error l1 = None ->
  Parse_pack Prec policy options (make_result l1)
  = Parse_pack Prec policy options (make_result l2).
Proof.
  destruct l1 as [b1 a1 n1 p1 s1 e1 bc1 ac1].
  destruct l2 as [b2 a2 n2 p2 s2 e2 bc2 ac2].
  unfold number_of. proj_cbn. intros E ->. inversion E; subst. reflexivity.
Qed.

Lemma final_checks_at_kEnd (options : Z) (l : Locals) (p : Z) :
  l_error (final_checks kNone l) = None ->
  final_checks options (set_state kEnd (set_position p l))
  = set_state kEnd (set_position p l).
Proof.
  unfold final_checks, no_error. destruct l as [b a n p0 s e bc ac].
  cbn. destruct e as [e|]; cbn [andb]; [reflexivity|].
  destruct ((bc =? 0) && (ac =? 0)); cbn; [intros E; discriminate E|].
  reflexivity.
Qed.

Lemma space_ends_number (c : ascii) : IsSpace c = true -> ends_number c.
Proof.
  intros Hs. split.
  - destruct (is_digit c) eqn:Hd; [|reflexivity].
    revert Hs. clear - Hd. char_tests.
  - destruct (char_eqb c dec_point) eqn:Hd; [|reflexivity].
    apply char_eqb_eq in Hd. subst c. discriminate Hs.
Qed.

(** X23. [FromStringPermissive] ignores spaces around a number: for a
    string [t] without ['\0'] that the strict constructor accepts, [t] with
    any space characters before and after it is parsed to the same
    decimal. *)
Theorem permissive_ignores_spaces (Prec : Z) (policy : RoundPolicy)
    (leading t trailing : list ascii) (d : Decimal) :
  Decimal_of_string Prec policy t = Value d ->
  Forall (fun c => char_eqb c NUL = false) t ->
  Forall (fun c => IsSpace c = true) leading ->
  Forall (fun c => IsSpace c = true) trailing ->
  FromStringPermissive Prec policy (leading ++ t ++ trailing) = Value d.
Proof.
  intros Hv Hn Hlead Htrail.
  unfold Decimal_of_string in Hv. rewrite Parse_fst in Hv.
  destruct (Value_inv _ _ _ _ _ Hv) as (He & Hb & Hro & Hfu).
  destruct (strict_success t He) as (Hst & Hfin & Heq).
  pose proof (strict_progress_string_loop t [] initial_locals
                strict_progress_initial Hst) as Hp.
  pose proof (string_loop_to_reads kNone t [] initial_locals Hn Hst) as Hr.
  set (l := fst (string_loop kNone initial_locals [] t)) in *.
  pose proof (final_checks_error_None _ _ Hfin) as El.
  pose proof (final_checks_None _ _ Hfin) as Hfc.
  rewrite Heq, Hfc in Hb, Hro, Hfu. unfold make_result in Hb, Hro, Hfu.
  cbn [before after decimal_digits is_negative] in Hb, Hro, Hfu.
  rewrite has_kNone in Hro. cbn [negb andb] in Hro.
  (* what [Parse] makes of the locals [l] under the permissive options *)
  assert (Hpack : Parse_pack Prec policy kPermissive (make_result l)
                  = Some {| decimal := d; parse_error := None;
                            parse_error_position := 0 |}).
  { unfold Parse_pack, make_result.
    cbn [error before after decimal_digits is_negative].
    rewrite El, Hb, Hro, andb_false_r.
    destruct (l_is_negative l); rewrite Hfu; reflexivity. }
  (* the run over the leading spaces and the number *)
  pose proof (reads_strict_any kPermissive _ _ _ Hr El) as HrP.
  destruct (reads_spaces kPermissive leading initial_locals _ _ _ _ _
              initial_view eq_refl Hlead) as (la & Hra & Hva).
  rewrite <- initial_view in Hva.
  destruct (reads_view _ _ _ _ HrP la (eq_sym Hva)) as (lb & Hrb & Hvb).
  pose proof (reads_app _ _ _ _ _ _ Hra Hrb) as Hrun.
  assert (Hkb : is_kEnd (l_state lb) = false).
  { rewrite <- Hst. destruct (view_state_error _ _ Hvb) as [Hs _].
    rewrite Hs. reflexivity. }
  unfold FromStringPermissive. fold kPermissive. rewrite Parse_fst.
  destruct trailing as [|s0 more].
  - rewrite app_nil_r.
    rewrite (ParseUnpacked_reads kPermissive _ lb Hrun Hkb).
    pose proof (final_checks_view kPermissive _ _ Hvb) as Hvf.
    rewrite (final_checks_strict_any kPermissive l Hfin), Hfc in Hvf.
    rewrite <- (Parse_pack_number_of Prec policy kPermissive l _
                  (view_number_of _ _ Hvf) El).
    rewrite Hpack. reflexivity.
  - inversion Htrail as [|? ? Hs0 Hmore]; subst.
    destruct (end_step _ s0 l Hp Hfin Hst (space_ends_number s0 Hs0))
      as [Hstep _].
    assert (Estep : l_error (parse_step kNone s0 l) = None)
      by (rewrite Hstep; exact El).
    pose proof (view_step kPermissive s0 _ _ Hvb) as Hvc.
    rewrite (strict_step_any kPermissive s0 l Estep), Hstep in Hvc.
    set (lc := parse_step kPermissive s0 lb) in *.
    assert (Hend : is_kEnd (l_state lc) = true).
    { destruct (view_state_error _ _ Hvc) as [Hs _]. rewrite <- Hs.
      reflexivity. }
    assert (Hne : no_error lc = true).
    { unfold no_error. destruct (view_state_error _ _ Hvc) as [_ Hx].
      rewrite <- Hx. cbn. rewrite El. reflexivity. }
    rewrite app_assoc.
    rewrite (ParseUnpacked_stops kPermissive _ more s0 lb Hrun Hkb
               (space_not_NUL s0 Hs0) Hend).
    cbv zeta. fold lc. rewrite Hne.
    change (has kPermissive kAllowTrailingJunk) with false.
    change (has kPermissive kAllowSpaces) with true.
    cbn [andb negb].
    pose proof (string_junk_loop_spaces (s0 :: more)
                  (rev (leading ++ t))
                  (set_position (l_position lc - 1) lc) Htrail) as Hvj.
    destruct (string_junk_loop (set_position (l_position lc - 1) lc)
                (rev (leading ++ t)) (s0 :: more)) as [lj qj].
    cbn [fst] in *.
    assert (Hvj' : view lj
                   = view (set_state kEnd (set_position (l_position l + 1) l))).
    { rewrite Hvj. symmetry. exact Hvc. }
    pose proof (final_checks_view kPermissive _ _ Hvj') as Hvf.
    rewrite (final_checks_at_kEnd kPermissive l _ Hfin) in Hvf.
    pose proof (view_number_of _ _ Hvf) as Hnum.
    change (number_of (set_state kEnd (set_position (l_position l + 1) l)))
      with (number_of l) in Hnum.
    rewrite <- (Parse_pack_number_of Prec policy kPermissive l _
                  (eq_sym Hnum) El).
    rewrite Hpack. reflexivity.
Qed.

Lemma permissive_ignores_spaces_witness :
  Decimal_of_string 2 Def (chars "-12.5") = Value (FromUnbiased (-1250))
  /\ Forall (fun c => char_eqb c NUL = false) (chars "-12.5")
  /\ Forall (fun c => IsSpace c = true) [" "%char; "009"%char]
  /\ Forall (fun c => IsSpace c = true) [" "%char; "010"%char]
  /\ FromStringPermissive 2 Def
       ([" "%char; "009"%char] ++ chars "-12.5" ++ [" "%char; "010"%char])
     = Value (FromUnbiased (-1250)).
Proof.
  assert (H1 : Decimal_of_string 2 Def (chars "-12.5")
               = Value (FromUnbiased (-1250))) by (vm_compute; reflexivity).
  assert (H2 : Forall (fun c => char_eqb c NUL = false) (chars "-12.5"))
    by (repeat constructor).
  assert (H3 : Forall (fun c => IsSpace c = true) [" "%char; "009"%char])
    by (repeat constructor).
  assert (H4 : Forall (fun c => IsSpace c = true) [" "%char; "010"%char])
    by (repeat constructor).
  split; [exact H1|]. split; [exact H2|]. split; [exact H3|].
  split; [exact H4|].
  exact (permissive_ignores_spaces 2 Def [" "%char; "009"%char]
           (chars "-12.5") [" "%char; "010"%char] (FromUnbiased (-1250))
           H1 H2 H3 H4).
Defined.

(** ** Streams *)

Lemma main_loop_stream (options : Z) (base : list ascii) (skip : bool) :
  forall (text seen : list ascii) (fuel : nat) (l : Locals),
    (List.length text < fuel)%nat -> no_kEof text ->
    let r := main_loop fuel options l
               (stream_of base skip {| consumed_ := seen; current_ := text |}) in
    fst r = fst (string_loop options l seen text)
    /\ (is_kEnd (l_state (fst r)) = true ->
        snd r = stream_of base skip (snd (string_loop options l seen text))).
Proof.
  induction text as [|c rest IH]; intros seen fuel l Hf Hn;
    (destruct fuel as [|fuel]; [cbn in Hf; lia|]);
    cbn [main_loop string_loop].
  - destruct (is_kEnd (l_state l)) eqn:Hk.
    + split; [reflexivity|]. intros _. reflexivity.
    + cbn. split; [reflexivity|]. intros E. congruence.
  - destruct (is_kEnd (l_state l)) eqn:Hk.
    + split; [reflexivity|]. intros _. reflexivity.
    + inversion Hn as [|? ? Hc Hrest]; subst.
      cbn [Get StreamCharSequence_CharSequence StreamCharSequence_Get
             stream_of good pending eofbit failbit badbit orb negb
             consumed_ current_].
      rewrite Hc.
      destruct (char_eqb c NUL).
      * cbn [fst snd]. split; [reflexivity|]. intros E. congruence.
      * apply (IH (c :: seen) fuel (parse_step options c l));
          [cbn in Hf; lia | exact Hrest].
Qed.

Lemma junk_loop_stream (base : list ascii) (skip : bool) :
  forall (text seen : list ascii) (fuel : nat) (l : Locals),
    (List.length text < fuel)%nat -> no_kEof text ->
    fst (junk_loop fuel l
           (stream_of base skip {| consumed_ := seen; current_ := text |}))
    = fst (string_junk_loop l seen text).
Proof.
  induction text as [|c rest IH]; intros seen fuel l Hf Hn;
    (destruct fuel as [|fuel]; [cbn in Hf; lia|]);
    cbn [junk_loop string_junk_loop].
  - reflexivity.
  - inversion Hn as [|? ? Hc Hrest]; subst.
    cbn [Get StreamCharSequence_CharSequence StreamCharSequence_Get
           stream_of good pending eofbit failbit badbit orb negb
           consumed_ current_].
    rewrite Hc.
    destruct (char_eqb c NUL); [reflexivity|].
    destruct (negb (IsSpace c)); [reflexivity|].
    apply (IH (c :: seen) fuel); [cbn in Hf; lia | exact Hrest].
Qed.

Lemma string_loop_zipper (options : Z) :
  forall (text seen : list ascii) (l : Locals),
    rev (consumed_ (snd (string_loop options l seen text)))
      ++ current_ (snd (string_loop options l seen text))
    = rev seen ++ text.
Proof.
  induction text as [|c rest IH]; intros seen l; cbn [string_loop].
  - reflexivity.
  - destruct (is_kEnd (l_state l)); [reflexivity|].
    destruct (char_eqb c NUL).
    + cbn. rewrite <- app_assoc. reflexivity.
    + rewrite IH. cbn. rewrite <- app_assoc. reflexivity.
Qed.

Lemma string_loop_consumed (options : Z) :
  forall (text seen : list ascii) (l : Locals),
    is_kEnd (l_state l) = false ->
    is_kEnd (l_state (fst (string_loop options l seen text))) = true ->
    consumed_ (snd (string_loop options l seen text)) <> [].
Proof.
  induction text as [|c rest IH]; intros seen l Hk Hend;
    cbn [string_loop] in *.
  - cbn [fst] in Hend. congruence.
  - rewrite Hk in *. destruct (char_eqb c NUL).
    + cbn [fst] in Hend. congruence.
    + destruct (is_kEnd (l_state (parse_step options c l))) eqn:Hk1.
      * rewrite (string_loop_kEnd options _ _ _ Hk1). cbn. discriminate.
      * apply IH; assumption.
Qed.

Lemma ParseUnpacked_stream (options : Z) (ins : istream) :
  good ins = true -> no_kEof (pending ins) ->
  fst (ParseUnpacked ins options)
  = fst (ParseUnpacked (MakeStringCharSequence (pending ins)) options).
Proof.
  intros Hg Hn. rewrite ParseUnpacked_string.
  destruct ins as [ex pe eo fa ba sk]. unfold good in Hg.
  cbn [eofbit failbit badbit pending] in *.
  destruct eo; [discriminate Hg|]. destruct fa; [discriminate Hg|].
  destruct ba; [discriminate Hg|]. clear Hg.
  change {| extracted := ex; pending := pe; eofbit := false;
            failbit := false; badbit := false; skipws := sk |}
    with (stream_of ex sk {| consumed_ := []; current_ := pe |}).
  unfold ParseUnpacked.
  change (Avail (stream_of ex sk {| consumed_ := []; current_ := pe |}))
    with (List.length pe).
  destruct (main_loop_stream options ex sk pe [] (S (List.length pe))
              initial_locals ltac:(lia) Hn) as [E1 E2].
  pose proof (string_loop_zipper options pe [] initial_locals) as Hz.
  pose proof (string_loop_consumed options pe [] initial_locals eq_refl)
    as Hc.
  destruct (main_loop (S (List.length pe)) options initial_locals
              (stream_of ex sk {| consumed_ := []; current_ := pe |}))
    as [l input].
  destruct (string_loop options initial_locals [] pe) as [l' q].
  cbn [fst snd] in *. subst l'.
  unfold scan_trailing.
  destruct (is_kEnd (l_state l)) eqn:Hk; [|reflexivity].
  rewrite (E2 eq_refl). specialize (Hc eq_refl).
  destruct q as [co cu]. cbn [consumed_ current_] in *.
  destruct co as [|c0 co]; [contradiction|].
  cbn [Unget StreamCharSequence_CharSequence StreamCharSequence_Unget
         StringCharSequence_CharSequence StringCharSequence_Unget
         stream_of clear_eofbit good eofbit failbit badbit orb negb
         extracted pending consumed_ current_ app with_buffer skipws].
  destruct (no_error l && negb (has options kAllowTrailingJunk));
    [|reflexivity].
  change (with_buffer
            (clear_eofbit
               (stream_of ex sk {| consumed_ := c0 :: co; current_ := cu |}))
            (co ++ ex) (c0 :: cu))
    with (stream_of ex sk {| consumed_ := co; current_ := c0 :: cu |}).
  change (Avail (stream_of ex sk {| consumed_ := co; current_ := c0 :: cu |}))
    with (List.length (c0 :: cu)).
  match goal with
  | |- context [junk_loop ?f ?l0 ?s0] =>
      pose proof (junk_loop_stream ex sk (c0 :: cu) co f l0) as Hj;
      destruct (junk_loop f l0 s0) as [lj qj]
  end.
  cbn [fst] in *. rewrite Hj; [reflexivity | lia|].
  cbn [rev] in Hz. rewrite <- app_assoc in Hz. cbn [app] in Hz.
  unfold no_kEof in *. rewrite <- Hz in Hn.
  apply Forall_app in Hn. tauto.
Qed.

(** X24. On a good stream whose buffer holds no character 255 (which
    [StreamCharSequence::Get] takes for the end of the stream), [Parse]
    gives the same result as on the string of the buffer; hence
    [operator>>], when [skipws] is off, leaves in the target the decimal
    that [Parse] with [kAllowTrailingJunk] reads from that string, and
    leaves the target unchanged when that parse fails. *)
Theorem Parse_stream_as_string (Prec : Z) (policy : RoundPolicy)
    (options : Z) (ins : istream) (d : Decimal) :
  good ins = true -> no_kEof (pending ins) ->
  fst (Parse Prec policy ins options)
  = fst (Parse Prec policy (MakeStringCharSequence (pending ins)) options)
  /\ (skipws ins = false ->
      option_map snd (operator_in Prec policy ins d)
      = option_map
          (fun r => match parse_error r with
                    | Some _ => d
                    | None => decimal r
                    end)
          (fst (Parse Prec policy (MakeStringCharSequence (pending ins))
                  kAllowTrailingJunk))).
Proof.
  intros Hg Hn.
  assert (Hall : forall options,
             fst (Parse Prec policy ins options)
             = fst (Parse Prec policy
                      (MakeStringCharSequence (pending ins)) options)).
  { intros o. rewrite !Parse_fst, ParseUnpacked_stream by assumption.
    reflexivity. }
  split; [apply Hall|].
  intros Hs. unfold operator_in. rewrite Hs.
  rewrite <- (Hall kAllowTrailingJunk).
  destruct (Parse Prec policy ins kAllowTrailingJunk) as [[r|] ins'];
    cbn [fst option_map]; [|reflexivity].
  destruct (parse_error r); reflexivity.
Qed.


Lemma Parse_stream_as_string_witness :
  good {| extracted := []; pending := chars "-1.5 x"; eofbit := false;
          failbit := false; badbit := false; skipws := false |} = true
  /\ no_kEof (chars "-1.5 x")
  /\ fst (Parse 2 Def
            {| extracted := []; pending := chars "-1.5 x"; eofbit := false;
               failbit := false; badbit := false; skipws := false |} kNone)
     = fst (Parse 2 Def (MakeStringCharSequence (chars "-1.5 x")) kNone).
Proof.
  assert (H1 : good {| extracted := []; pending := chars "-1.5 x";
                       eofbit := false; failbit := false; badbit := false;
                       skipws := false |} = true) by reflexivity.
  assert (H2 : no_kEof (chars "-1.5 x")) by (repeat constructor).
  split; [exact H1|]. split; [exact H2|].
  exact (proj1 (Parse_stream_as_string 2 Def kNone
                  {| extracted := []; pending := chars "-1.5 x";
                     eofbit := false; failbit := false; badbit := false;
                     skipws := false |} (FromUnbiased 7) H1 H2)).
Defined.

(** ** Exceptions of the string constructors *)

(** X25. For [Prec] from 0 to 18 the string constructors throw nothing but
    [ParseError]: the exception of [Pow10] inside [FromUnpacked] cannot
    occur, because the parser never counts more than 18 digits of the
    fraction. *)
Theorem string_constructors_throw_only_ParseError (Prec : Z)
    (policy : RoundPolicy) (s : list ascii) :
  0 <= Prec <= 18 ->
  Decimal_of_string Prec policy s <> RuntimeError
  /\ FromStringPermissive Prec policy s <> RuntimeError.
Proof.
  intros HP. unfold Decimal_of_string, FromStringPermissive.
  split.
  - destruct (Parse_total Prec policy (MakeStringCharSequence s) kNone HP)
      as [r Hr].
    rewrite Hr. cbn. destruct (parse_error r); discriminate.
  - destruct (Parse_total Prec policy (MakeStringCharSequence s)
                (Z.lor kAllowSpaces (Z.lor kAllowBoundaryDot kAllowRounding))
                HP) as [r Hr].
    rewrite Hr. cbn. destruct (parse_error r); discriminate.
Qed.

Lemma string_constructors_throw_only_ParseError_witness :
  0 <= 2 <= 18
  /\ Decimal_of_string 2 Def (chars "1.23456789012345678901") <> RuntimeError
  /\ FromStringPermissive 2 Def (chars "1.23456789012345678901")
     <> RuntimeError.
Proof.
  assert (H1 : 0 <= 2 <= 18) by lia.
  split; [exact H1|].
  exact (string_constructors_throw_only_ParseError 2 Def
           (chars "1.23456789012345678901") H1).
Defined.
